(** * TrailDB encoder: a shallow embedding of [tdb_encode.c]

    The development follows the C source function by function. Machine
    integers are values of [Z] with their wrap-around written out
    ([u32], [u64]); arrays are lists indexed from zero; a read or write
    outside an array is the outcome [Undefined]; a call of [DIE] is the
    outcome [Abort]. Allocation and file-system calls are assumed to
    succeed, so their [DIE] branches are not part of the model, and the
    host is little-endian, as the code assumes when it writes the first
    four bytes of a 64-bit offset into the table of contents.

    The code of [tdb_item_field], [write_bits], [choose_grams],
    [huff_encode_grams] and of the builders of the entropy model lies in
    other files; these are parameters of the functions that call them. *)

From Stdlib Require Import ZArith List Lia Bool String Ascii SpecFloat.
From Stdlib Require Import DecimalString DecimalN DecimalPos.
From stdpp Require Import base list.

Local Open Scope Z_scope.

(** ** Machine integers *)

Definition UINT32_MAX : Z := 4294967295.
Definition u32 (x : Z) : Z := x mod 2 ^ 32.
Definition u64 (x : Z) : Z := x mod 2 ^ 64.

Definition is_u32 (x : Z) : bool := (0 <=? x) && (x <? 2 ^ 32).
Definition is_u64 (x : Z) : bool := (0 <=? x) && (x <? 2 ^ 64).

(** Array read [a[i]]: [None] outside the array. *)
Definition index {A : Type} (a : list A) (i : Z) : option A :=
  if i <? 0 then None else a !! Z.to_nat i.

(** ** Outcomes of a run *)

Inductive die : Type :=
| TooManyInvalid (base_timestamp : Z)
| TrailOver4GB
| HuffFailed.

Inductive outcome (A : Type) : Type :=
| Done (a : A)
| Abort (why : die)
| Undefined
| OutOfFuel.

Arguments Done {A} a.
Arguments Abort {A} why.
Arguments Undefined {A}.
Arguments OutOfFuel {A}.

Global Instance outcome_ret : MRet outcome := fun A a => Done a.
Global Instance outcome_bind : MBind outcome := fun A B k m =>
  match m with
  | Done a => k a
  | Abort w => Abort w
  | Undefined => Undefined
  | OutOfFuel => OutOfFuel
  end.

Definition of_option {A : Type} (o : option A) : outcome A :=
  match o with Some a => Done a | None => Undefined end.

(** ** Data model *)

(** [tdb_event]: the fields [timestamp], [item_zero], [num_items] carry
    the prefix [ev_] here, their names being taken by [tdb_cookie_event]. *)
Record tdb_event : Type := mk_event {
  ev_item_zero : Z;       (* uint64_t *)
  ev_num_items : Z;       (* uint32_t *)
  ev_timestamp : Z;       (* uint32_t *)
  prev_event_idx : Z      (* uint64_t, 1-based, 0 = none *)
}.

Record tdb_cookie_event : Type := mk_cookie_event {
  cookie_id : Z;          (* uint64_t *)
  item_zero : Z;          (* uint64_t *)
  num_items : Z;          (* uint32_t *)
  timestamp : Z           (* uint32_t *)
}.

Definition set_timestamp (ev : tdb_cookie_event) (t : Z) : tdb_cookie_event :=
  mk_cookie_event (cookie_id ev) (item_zero ev) (num_items ev) t.

Definition wf_event (e : tdb_event) : bool :=
  is_u64 (ev_item_zero e) && is_u32 (ev_num_items e) &&
  is_u32 (ev_timestamp e) && is_u64 (prev_event_idx e).

Definition wf_cookie_event (e : tdb_cookie_event) : bool :=
  is_u64 (cookie_id e) && is_u64 (item_zero e) &&
  is_u32 (num_items e) && is_u32 (timestamp e).

Definition EDGE_INCREMENT : Z := 1000000.
Definition GROUPBUF_INCREMENT : Z := 10000000.

(** [MAX_INVALID_RATIO] is the [double] constant 0.005, that is
    5764607523034235 * 2^-60. *)
Definition MAX_INVALID_RATIO : spec_float :=
  S754_finite false 5764607523034235 (-60).

(** ** Floating point, as the ratio gate uses it *)

(** Conversion of an unsigned integer to [float] (binary32). *)
Definition float_of_uint (x : Z) : spec_float := binary_normalize 24 128 x 0 false.

(** Promotion of a [float] to [double] (binary64), which is exact. *)
Definition double_of_float (f : spec_float) : spec_float :=
  match f with
  | S754_finite s m e => binary_normalize 53 1024 (if s then Z.neg m else Z.pos m) e s
  | _ => f
  end.

Definition float_div (x y : spec_float) : spec_float := SFdiv 24 128 x y.

(** [x > y] on doubles; false when either is a NaN. *)
Definition double_gt (x y : spec_float) : bool := SFltb y x.

(** ** [compare] and [qsort] *)

Definition compare (x y : tdb_cookie_event) : Z :=
  if timestamp x >? timestamp y then 1
  else if timestamp x <? timestamp y then -1
  else 0.

(** [qsort] is modelled by an insertion sort driven by [compare]. The
    C library leaves the order of equal elements open; here records of
    equal timestamp come out in the reverse of the order they had in
    [buf]. *)
Fixpoint qsort_insert (x : tdb_cookie_event) (l : list tdb_cookie_event)
  : list tdb_cookie_event :=
  match l with
  | [] => [x]
  | y :: l' => if compare x y <? 0 then x :: y :: l' else y :: qsort_insert x l'
  end.

Definition qsort (buf : list tdb_cookie_event) : list tdb_cookie_event :=
  foldr qsort_insert [] buf.

(** ** [group_events] *)

(** The [while (1)] loop that follows the back-links of cookie [i].
    [buf] holds [buf[0..j)]; [buf_size] is the capacity in records. The
    store into [buf[j]] is undefined when the capacity, after its single
    growth step, still does not cover [j] (the addition wraps in 32 bits). *)
Fixpoint follow_backlinks (fuel : nat) (events : list tdb_event) (i : Z)
    (ev : tdb_event) (j buf_size : Z) (buf : list tdb_cookie_event)
  : outcome (list tdb_cookie_event * Z * Z) :=
  match fuel with
  | O => OutOfFuel
  | S fuel' =>
      let buf_size := if j >=? buf_size then u32 (buf_size + GROUPBUF_INCREMENT)
                      else buf_size in
      if j >=? buf_size then Undefined
      else
        let buf := buf ++ [mk_cookie_event i (ev_item_zero ev) (ev_num_items ev)
                                           (ev_timestamp ev)] in
        let j := u32 (j + 1) in
        if prev_event_idx ev =? 0 then Done (buf, j, buf_size)
        else
          ev' ← of_option (index events (prev_event_idx ev - 1));
          follow_backlinks fuel' events i ev' j buf_size buf
  end.

(** The delta-encoding [for] loop over [buf[0..num_events)], by recursion
    on the records still to visit. The state is [prev_timestamp],
    [max_timestamp_delta] and [num_invalid]; it is returned next to the
    rewritten records. *)
Fixpoint delta_encode (prev_timestamp : Z) (buf : list tdb_cookie_event)
    (max_timestamp_delta num_invalid : Z)
  : list tdb_cookie_event * Z * Z * Z :=
  match buf with
  | [] => ([], prev_timestamp, max_timestamp_delta, num_invalid)
  | ev :: rest =>
      let prev := timestamp ev in
      let d := u32 (timestamp ev - prev_timestamp) in
      if d <? Z.shiftl 1 24 then
        let max_timestamp_delta :=
          if d >? max_timestamp_delta then d else max_timestamp_delta in
        let '(out, p, m, n) := delta_encode prev rest max_timestamp_delta num_invalid in
        (set_timestamp ev (u32 (Z.shiftl d 8)) :: out, p, m, n)
      else
        let '(out, p, m, n) :=
          delta_encode prev_timestamp rest max_timestamp_delta (u64 (num_invalid + 1)) in
        (set_timestamp ev 1 :: out, p, m, n)
  end.

(** State of [group_events] between two cookies. *)
Record group_state : Type := mk_group_state {
  grouped_w : list tdb_cookie_event;   (* records written so far *)
  g_buf_size : Z;
  max_timestamp_delta : Z;
  num_invalid : Z
}.

(** Body of the [for (i = 0; i < num_cookies; i++)] loop. *)
Definition group_cookie (fuel : nat) (events : list tdb_event)
    (cookie_pointers : list Z) (base_timestamp : Z) (i : Z) (st : group_state)
  : outcome group_state :=
  p ← of_option (index cookie_pointers i);
  ev ← of_option (index events p);
  '(buf, _, buf_size) ← follow_backlinks fuel events i ev 0 (g_buf_size st) [];
  let buf := qsort buf in
  let '(buf, _, m, n) :=
    delta_encode base_timestamp buf (max_timestamp_delta st) (num_invalid st) in
  Done (mk_group_state (grouped_w st ++ buf) buf_size m n).

Fixpoint group_cookies (fuel : nat) (events : list tdb_event)
    (cookie_pointers : list Z) (base_timestamp : Z)
    (count : nat) (i : Z) (st : group_state) : outcome group_state :=
  match count with
  | O => Done st
  | S count' =>
      st' ← group_cookie fuel events cookie_pointers base_timestamp i st;
      group_cookies fuel events cookie_pointers base_timestamp count' (i + 1) st'
  end.

(** The ratio gate. [idx] is initialised to zero and never assigned to. *)
Definition invalid_ratio_exceeded (num_invalid idx : Z) : bool :=
  double_gt (double_of_float (float_div (float_of_uint num_invalid) (float_of_uint idx)))
            MAX_INVALID_RATIO.

(** [group_events] returns the grouped stream and [max_timestamp_delta]. *)
Definition group_events (fuel : nat) (events : list tdb_event)
    (cookie_pointers : list Z) (num_cookies : Z) (base_timestamp : Z)
  : outcome (list tdb_cookie_event * Z) :=
  let idx := 0 in
  st ← group_cookies fuel events cookie_pointers base_timestamp
           (Z.to_nat num_cookies) 0 (mk_group_state [] 0 0 0);
  if invalid_ratio_exceeded (num_invalid st) idx
  then Abort (TooManyInvalid base_timestamp)
  else Done (grouped_w st, max_timestamp_delta st).

(** ** The output file

    A [FILE] opened for writing is the history of its writes, each an
    offset with the bytes stored there, and the current position. The
    content follows from the history: a write past the end leaves a gap of
    zero bytes, and a write of no bytes leaves the file as it is. *)

Record FILE : Type := mk_file {
  writes : list (Z * list Z);
  pos : Z
}.

Definition pad (len : Z) (c : list Z) : list Z :=
  c ++ replicate (Z.to_nat (len - Z.of_nat (length c))) 0.

Definition write_at (c : list Z) (offs : Z) (bytes : list Z) : list Z :=
  match bytes with
  | [] => c
  | _ => take (Z.to_nat offs) (pad offs c) ++ bytes
         ++ drop (Z.to_nat offs + length bytes) c
  end.

Definition apply_writes (c : list Z) (ws : list (Z * list Z)) : list Z :=
  foldl (fun c w => write_at c (fst w) (snd w)) c ws.

Definition content_of (ws : list (Z * list Z)) : list Z := apply_writes [] ws.

Definition file_content (f : FILE) : list Z := content_of (writes f).
Definition file_size (f : FILE) : Z := Z.of_nat (length (file_content f)).

Definition fopen : FILE := mk_file [] 0.
Definition SAFE_SEEK (f : FILE) (offs : Z) : FILE := mk_file (writes f) offs.
Definition fseek_end (f : FILE) : FILE := mk_file (writes f) (file_size f).
Definition SAFE_WRITE (f : FILE) (bytes : list Z) : FILE :=
  mk_file (writes f ++ [(pos f, bytes)]) (pos f + Z.of_nat (length bytes)).

(** The first [n] bytes of the object representation of an integer, on a
    little-endian host. *)
Fixpoint le_bytes (n : nat) (x : Z) : list Z :=
  match n with
  | O => []
  | S n' => Z.land x 255 :: le_bytes n' (Z.shiftr x 8)
  end.

Fixpoint le_value (bytes : list Z) : Z :=
  match bytes with
  | [] => 0
  | b :: bs => b + 256 * le_value bs
  end.

(** ** The bit buffer

    The trail buffer [buf] is a bit vector: bit [k] of the integer is bit
    [k mod 8] of byte [k / 8]. *)

Definition buf_bytes (buf : Z) (n : Z) : list Z :=
  map (fun k => Z.land (Z.shiftr buf (8 * Z.of_nat k)) 255) (seq 0 (Z.to_nat n)).

(** [memset(buf, 0, n)] *)
Definition memset_buf (buf : Z) (n : Z) : Z :=
  Z.shiftl (Z.shiftr buf (8 * n)) (8 * n).

(** ** [edge_encode_items] and [encode_trails] *)

Section Encoder.

(** Collaborators whose code lies outside [tdb_encode.c]. *)
Variable tdb_item_field : Z -> Z.
Context {gram gram_bufs codemap_t gram_freqs_t field_stats_t : Type}.
Variable init_gram_bufs : Z -> gram_bufs.
Variable choose_grams :
  list Z -> gram_freqs_t -> gram_bufs -> tdb_cookie_event -> list gram * gram_bufs.
Variable huff_encode_grams :
  codemap_t -> list gram -> Z -> Z -> field_stats_t -> outcome (Z * Z).
Variable write_bits : Z -> Z -> Z -> Z.

(** The [for] loop of [edge_encode_items]. [encoded] holds
    the first [n] items of the output array. The buffer was last sized by
    [realloc] to [encoded_size * 4] bytes, a product taken in 32 bits,
    so it has room for [u32 (encoded_size * 4) / 4] items. *)
Fixpoint edge_encode_loop (count : nat) (items : list Z) (j : Z) (n : Z)
    (encoded : list Z) (encoded_size : Z) (prev_items : list Z)
  : outcome (Z * list Z * Z * list Z) :=
  match count with
  | O => Done (n, encoded, encoded_size, prev_items)
  | S count' =>
      item ← of_option (index items j);
      let field := tdb_item_field item in
      prev ← of_option (index prev_items field);
      if negb (prev =? item) then
        let encoded_size :=
          if n =? encoded_size then u32 (encoded_size + EDGE_INCREMENT)
          else encoded_size in
        if n <? u32 (encoded_size * 4) / 4 then
          edge_encode_loop count' items (j + 1) (u32 (n + 1))
            (encoded ++ [item]) encoded_size
            (<[Z.to_nat field := item]> prev_items)
        else Undefined
      else
        edge_encode_loop count' items (j + 1) n encoded encoded_size prev_items
  end.

(** Returns [n], the first [n] items of the output array, [*encoded_size] and [prev_items]. *)
Definition edge_encode_items (items : list Z) (encoded_size : Z)
    (prev_items : list Z) (ev : tdb_cookie_event)
  : outcome (Z * list Z * Z * list Z) :=
  if Z.land (timestamp ev) 255 =? 0 then
    let j := item_zero ev in
    edge_encode_loop (Z.to_nat (u64 (item_zero ev + num_items ev) - j))
      items j 0 [] encoded_size prev_items
  else Done (0, [], encoded_size, prev_items).

(** Local state of [encode_trails] that passes from one event to the
    next; the loop counter [i] and the record [ev] are arguments of the
    loops. *)
Record trail_state : Type := mk_trail_state {
  t_encoded_size : Z;
  t_prev_items : list Z;
  t_gbufs : gram_bufs;
  t_buf : Z;
  t_offs : Z
}.

Variable items : list Z.
Variable grouped : list tdb_cookie_event.
Variable num_events : Z.
Variable num_cookies : Z.
Variable num_fields : Z.
Variable codemap : codemap_t.
Variable gram_freqs : gram_freqs_t.
Variable fstats : field_stats_t.

(** [fread(&ev, sizeof(tdb_cookie_event), 1, grouped)] of record [k]:
    at the end of the stream [ev] keeps its value. *)
Definition fread (k : Z) (ev : tdb_cookie_event) : tdb_cookie_event :=
  default ev (index grouped k).

(** Steps 1) to 3) of the inner loop for the event [ev]. *)
Definition encode_event (st : trail_state) (ev : tdb_cookie_event)
  : outcome trail_state :=
  '(n, encoded, encoded_size, prev_items) ←
    edge_encode_items items (t_encoded_size st) (t_prev_items st) ev;
  let '(grams, gbufs) := choose_grams encoded gram_freqs (t_gbufs st) ev in
  '(buf, offs) ← huff_encode_grams codemap grams (t_buf st) (t_offs st) fstats;
  Done (mk_trail_state encoded_size prev_items gbufs buf offs).

(** [for (; i < num_events && ev.cookie_id == cookie_id; i++)]. The
    stream has been read up to record [i], which is in [ev], so the
    [fread] that ends an iteration reads record [i + 1]. *)
Fixpoint encode_cookie_events (fuel : nat) (cookie : Z) (i : Z)
    (ev : tdb_cookie_event) (st : trail_state)
  : outcome (Z * tdb_cookie_event * trail_state) :=
  if (i <? num_events) && (cookie_id ev =? cookie) then
    match fuel with
    | O => OutOfFuel
    | S fuel' =>
        st' ← encode_event st ev;
        encode_cookie_events fuel' cookie (i + 1) (fread (i + 1) ev) st'
    end
  else Done (i, ev, st).

(** The table holds [u32 (num_fields * 4) / 4] items, the size given to
    [malloc] and to [memset]. *)
Definition memset_prev_items : list Z :=
  replicate (Z.to_nat (u32 (num_fields * 4) / 4)) 0.

(** The state in which the inner loop starts: [offs = 3] and the table
    of last seen items reset. *)
Definition start_trail (st : trail_state) : trail_state :=
  mk_trail_state (t_encoded_size st) memset_prev_items (t_gbufs st) (t_buf st) 3.

(** The length residual: the size of the trail in bytes and the buffer
    to write. *)
Definition length_residual (st : trail_state) : Z * Z :=
  let offs := t_offs st in
  if negb (Z.land offs 7 =? 0)
  then (offs / 8 + 1, write_bits (t_buf st) 0 (8 - Z.land offs 7))
  else (offs / 8, t_buf st).

(** The state [st] with another table of last seen items. *)
Definition set_prev_items (st : trail_state) (table : list Z) : trail_state :=
  mk_trail_state (t_encoded_size st) table (t_gbufs st) (t_buf st) (t_offs st).

(** [SAFE_SEEK(out, cookie_id * 4)] and [SAFE_WRITE(&file_offs, 4)]. *)
Definition write_toc_slot (out : FILE) (cookie file_offs : Z) : FILE :=
  let out := SAFE_SEEK out (u64 (cookie * 4)) in
  SAFE_WRITE out (le_bytes 4 file_offs).

(** From the length residual to the [memset] of the buffer, given the
    state [st] in which the inner loop ended. *)
Definition append_trail (out : FILE) (file_offs : Z) (st : trail_state)
  : FILE * outcome (Z * trail_state) :=
  let '(trail_size, buf) := length_residual st in
  let out := fseek_end out in
  let out := SAFE_SEEK out file_offs in
  let out := SAFE_WRITE out (buf_bytes buf trail_size) in
  let file_offs := u64 (file_offs + trail_size) in
  if file_offs >=? UINT32_MAX then (out, Abort TrailOver4GB)
  else
    let buf := memset_buf buf trail_size in
    (out, Done (file_offs,
                mk_trail_state (t_encoded_size st) (t_prev_items st)
                  (t_gbufs st) buf (t_offs st))).

(** [while (i < num_events)]: returns the file, and [file_offs] when
    the loop ends. *)
Fixpoint encode_cookies (fuel : nat) (out : FILE) (file_offs : Z) (i : Z)
    (ev : tdb_cookie_event) (st : trail_state) : FILE * outcome Z :=
  if i <? num_events then
    match fuel with
    | O => (out, OutOfFuel)
    | S fuel' =>
        let cookie := cookie_id ev in
        let out := write_toc_slot out cookie file_offs in
        match encode_cookie_events fuel cookie i ev (start_trail st) with
        | Done (i, ev, st) =>
            match append_trail out file_offs st with
            | (out, Done (file_offs, st)) =>
                encode_cookies fuel' out file_offs i ev st
            | (out, Abort w) => (out, Abort w)
            | (out, Undefined) => (out, Undefined)
            | (out, OutOfFuel) => (out, OutOfFuel)
            end
        | Abort w => (out, Abort w)
        | Undefined => (out, Undefined)
        | OutOfFuel => (out, OutOfFuel)
        end
    end
  else (out, Done file_offs).

(** [encode_trails]: the trail file, if one was created, and how the
    call ended. The record read before the loop is looked at only when
    [num_events] is positive. The table from [malloc] is given the
    content the first [memset] gives it; nothing reads it before. *)
Definition encode_trails (fuel : nat) : option FILE * outcome unit :=
  let i := 0 in
  let file_offs := u64 ((num_cookies + 1) * 4) in
  let gbufs := init_gram_bufs num_fields in
  if file_offs >=? UINT32_MAX then (None, Abort TrailOver4GB)
  else
    let out := fopen in
    let out := SAFE_SEEK out file_offs in
    let buf := 0 in
    match (if 0 <? num_events then of_option (index grouped 0)
           else Done (default (mk_cookie_event 0 0 0 0) (index grouped 0))) with
    | Done ev =>
        match encode_cookies fuel out file_offs i ev
                (mk_trail_state 0 memset_prev_items gbufs buf 3) with
        | (out, Done file_offs) =>
            let out := SAFE_SEEK out (u64 (num_cookies * 4)) in
            let out := SAFE_WRITE out (le_bytes 4 file_offs) in
            (Some out, Done tt)
        | (out, Abort w) => (Some out, Abort w)
        | (out, Undefined) => (Some out, Undefined)
        | (out, OutOfFuel) => (Some out, OutOfFuel)
        end
    | Abort w => (Some out, Abort w)
    | Undefined => (Some out, Undefined)
    | OutOfFuel => (Some out, OutOfFuel)
    end.

(** *** The loops over a stream given as runs

    The same steps by recursion on the records of one cookie, and on
    the runs of the stream; the loops above are shown to compute them
    when the stream is one run per cookie. *)

Fixpoint encode_run (st : trail_state) (run : list tdb_cookie_event)
  : outcome trail_state :=
  match run with
  | [] => Done st
  | ev :: rest => st' ← encode_event st ev; encode_run st' rest
  end.

Fixpoint encode_runs (out : FILE) (file_offs : Z) (st : trail_state)
    (runs : list (list tdb_cookie_event)) : FILE * outcome Z :=
  match runs with
  | [] => (out, Done file_offs)
  | run :: rest =>
      let cookie := default 0 (cookie_id <$> head run) in
      let out := write_toc_slot out cookie file_offs in
      match encode_run (start_trail st) run with
      | Done st =>
          match append_trail out file_offs st with
          | (out, Done (file_offs, st)) => encode_runs out file_offs st rest
          | (out, Abort w) => (out, Abort w)
          | (out, Undefined) => (out, Undefined)
          | (out, OutOfFuel) => (out, OutOfFuel)
          end
      | Abort w => (out, Abort w)
      | Undefined => (out, Undefined)
      | OutOfFuel => (out, OutOfFuel)
      end
  end.

(** [ev] is the record the stream is at when the loop counter is [i]. *)
Definition current (i : nat) (ev : tdb_cookie_event) : Prop :=
  (i < length grouped)%nat -> grouped !! i = Some ev.

(** The record in [ev] after [n] more iterations of the inner loop. *)
Fixpoint next_ev (i n : nat) (ev : tdb_cookie_event) : tdb_cookie_event :=
  match n with
  | O => ev
  | S n' => next_ev (S i) n' (fread (Z.of_nat i + 1) ev)
  end.

(** The trails of the runs [runs], encoded one after the other from the
    state [st]: for each run the bit offset at which its encoding ends and
    the bytes that are appended to the file. *)
Fixpoint run_trails (st : trail_state) (runs : list (list tdb_cookie_event))
    (trails : list (Z * list Z)) : Prop :=
  match runs, trails with
  | [], [] => True
  | run :: runs', (bits, bytes) :: trails' =>
      exists st1,
        encode_run (start_trail st) run = Done st1 /\
        bits = t_offs st1 /\
        bytes = buf_bytes (snd (length_residual st1)) (fst (length_residual st1)) /\
        run_trails
          (mk_trail_state (t_encoded_size st1) (t_prev_items st1) (t_gbufs st1)
             (memset_buf (snd (length_residual st1)) (fst (length_residual st1)))
             (t_offs st1))
          runs' trails'
  | _, _ => False
  end.

(** The edge encoding of the records of one cookie alone: the items
    kept for each record, then [encoded_size] and the table. *)
Fixpoint edge_encode_run (encoded_size : Z) (prev_items : list Z)
    (run : list tdb_cookie_event) : outcome (list (list Z) * Z * list Z) :=
  match run with
  | [] => Done ([], encoded_size, prev_items)
  | ev :: rest =>
      '(_, encoded, encoded_size, prev_items) ←
        edge_encode_items items encoded_size prev_items ev;
      '(outs, encoded_size, prev_items) ←
        edge_encode_run encoded_size prev_items rest;
      Done (encoded :: outs, encoded_size, prev_items)
  end.

End Encoder.

(** ** [timestamp_range] *)

Fixpoint timestamp_range_loop (count : nat) (events : list tdb_event) (i : Z)
    (min_timestamp max_timestamp : Z) : outcome (Z * Z) :=
  match count with
  | O => Done (min_timestamp, max_timestamp)
  | S count' =>
      e ← of_option (index events i);
      let min_timestamp :=
        if ev_timestamp e <? min_timestamp then ev_timestamp e else min_timestamp in
      let max_timestamp :=
        if ev_timestamp e >? max_timestamp then ev_timestamp e else max_timestamp in
      timestamp_range_loop count' events (i + 1) min_timestamp max_timestamp
  end.

Definition timestamp_range (events : list tdb_event) (num_events : Z)
  : outcome (Z * Z) :=
  timestamp_range_loop (Z.to_nat num_events) events 0 UINT32_MAX 0.

(** ** [store_info] *)

(** [%llu] and [%u]: an unsigned integer in decimal. *)
Definition print_unsigned (x : Z) : string :=
  NilZero.string_of_uint (N.to_uint (Z.to_N x)).

Definition newline_char : ascii := "010"%char.
Definition newline : string := String newline_char EmptyString.

(** The text written by [SAFE_FPRINTF] with the format
    [%llu %llu %u %u %u\n]. *)
Definition store_info (num_events num_cookies min_timestamp max_timestamp
                       max_timestamp_delta : Z) : string :=
  (print_unsigned (u64 num_cookies) ++ " " ++
   print_unsigned (u64 num_events) ++ " " ++
   print_unsigned (u32 min_timestamp) ++ " " ++
   print_unsigned (u32 max_timestamp) ++ " " ++
   print_unsigned (u32 max_timestamp_delta) ++ newline)%string.

(** ** [tdb_encode] *)

(** The files of the output directory; [None] is a file not created. *)
Record output_files (codebook_t : Type) : Type := mk_output_files {
  info : option string;
  trails_data : option FILE;
  trails_codebook : option codebook_t
}.

Arguments mk_output_files {codebook_t} info trails_data trails_codebook.
Arguments info {codebook_t} o.
Arguments trails_data {codebook_t} o.
Arguments trails_codebook {codebook_t} o.

Section Orchestrator.

Variable tdb_item_field : Z -> Z.
Context {gram gram_bufs codemap_t unigram_freqs_t gram_freqs_t
         field_stats_t codebook_t : Type}.
Variable init_gram_bufs : Z -> gram_bufs.
Variable choose_grams :
  list Z -> gram_freqs_t -> gram_bufs -> tdb_cookie_event -> list gram * gram_bufs.
Variable huff_encode_grams :
  codemap_t -> list gram -> Z -> Z -> field_stats_t -> outcome (Z * Z).
Variable write_bits : Z -> Z -> Z -> Z.
Variable collect_unigrams :
  list tdb_cookie_event -> Z -> list Z -> Z -> unigram_freqs_t.
Variable make_grams :
  list tdb_cookie_event -> Z -> list Z -> Z -> unigram_freqs_t -> gram_freqs_t.
Variable huff_create_codemap : gram_freqs_t -> codemap_t.
Variable huff_field_stats : list Z -> Z -> Z -> field_stats_t.
Variable huff_create_codebook : codemap_t -> codebook_t.

Definition store_codebook (codemap : codemap_t) : codebook_t :=
  huff_create_codebook codemap.

Definition tdb_encode (fuel : nat) (cookie_pointers : list Z) (num_cookies : Z)
    (events : list tdb_event) (num_events : Z) (items : list Z)
    (num_fields : Z) (field_cardinalities : list Z)
  : output_files codebook_t * outcome unit :=
  let none := mk_output_files None None None in
  match timestamp_range events num_events with
  | Done (min_timestamp, max_timestamp) =>
      match group_events fuel events cookie_pointers num_cookies min_timestamp with
      | Done (grouped, max_timestamp_delta) =>
          let info := store_info num_events num_cookies min_timestamp
                        max_timestamp max_timestamp_delta in
          let unigram_freqs :=
            collect_unigrams grouped num_events items num_fields in
          let gram_freqs :=
            make_grams grouped num_events items num_fields unigram_freqs in
          let codemap := huff_create_codemap gram_freqs in
          let fstats :=
            huff_field_stats field_cardinalities num_fields max_timestamp_delta in
          match encode_trails tdb_item_field init_gram_bufs choose_grams
                  huff_encode_grams write_bits items grouped num_events
                  num_cookies num_fields codemap gram_freqs fstats fuel with
          | (out, Done _) =>
              (mk_output_files (Some info) out (Some (store_codebook codemap)),
               Done tt)
          | (out, Abort w) => (mk_output_files (Some info) out None, Abort w)
          | (out, Undefined) => (mk_output_files (Some info) out None, Undefined)
          | (out, OutOfFuel) => (mk_output_files (Some info) out None, OutOfFuel)
          end
      | Abort w => (none, Abort w)
      | Undefined => (none, Undefined)
      | OutOfFuel => (none, OutOfFuel)
      end
  | Abort w => (none, Abort w)
  | Undefined => (none, Undefined)
  | OutOfFuel => (none, OutOfFuel)
  end.

End Orchestrator.

(** ** Collaborators for worked examples

    A field is the low byte of an item; a gram is an item; every gram
    takes eight bits of the buffer, its low byte. *)

Definition item_low_byte (item : Z) : Z := Z.land item 255.

Definition grams_as_items (encoded : list Z) (_ : unit) (g : unit)
    (_ : tdb_cookie_event) : list Z * unit := (encoded, g).

Definition write_bits_or (buf offs val : Z) : Z := Z.lor buf (Z.shiftl val offs).

Fixpoint emit_bytes (grams : list Z) (buf offs : Z) : Z * Z :=
  match grams with
  | [] => (buf, offs)
  | g :: rest => emit_bytes rest (write_bits_or buf offs (Z.land g 255)) (offs + 8)
  end.

Definition huff_bytes (_ : unit) (grams : list Z) (buf offs : Z) (_ : unit)
  : outcome (Z * Z) :=
  if offs + 8 * Z.of_nat (length grams) <? UINT32_MAX
  then Done (emit_bytes grams buf offs)
  else Abort HuffFailed.

Definition example_encode (fuel : nat) (cookie_pointers : list Z)
    (events : list tdb_event) (items : list Z) (num_fields : Z)
  : output_files unit * outcome unit :=
  tdb_encode item_low_byte (fun _ => tt) grams_as_items huff_bytes write_bits_or
    (fun _ _ _ _ => tt) (fun _ _ _ _ _ => tt) (fun _ => tt) (fun _ _ _ => tt)
    (fun _ => tt) fuel cookie_pointers (Z.of_nat (length cookie_pointers))
    events (Z.of_nat (length events)) items num_fields [].

(** ** Reading the grouped stream back

    The decoder of the grouped timestamps, as the specification words it:
    the reference starts at the base timestamp, a record whose low eight
    bits are zero adds its upper 24 bits to the reference and has the
    reference as its timestamp, any other record has none. *)
Fixpoint reconstruct (reference : Z) (stored : list Z) : list (option Z) :=
  match stored with
  | [] => []
  | t :: rest =>
      if Z.land t 255 =? 0
      then let r := reference + Z.shiftr t 8 in Some r :: reconstruct r rest
      else None :: reconstruct reference rest
  end.

(** The reference of that decoder after the records [stored]. *)
Fixpoint reference_after (reference : Z) (stored : list Z) : Z :=
  match stored with
  | [] => reference
  | t :: rest =>
      if Z.land t 255 =? 0
      then reference_after (reference + Z.shiftr t 8) rest
      else reference_after reference rest
  end.

(** [lo <= l0 <= l1 <= ...] *)
Fixpoint ascending (lo : Z) (l : list Z) : bool :=
  match l with
  | [] => true
  | x :: l' => (lo <=? x) && ascending x l'
  end.

(** The value of [prev_timestamp] when the loop reaches [buf[j]]. *)
Definition reference_at (base_timestamp : Z) (buf : list tdb_cookie_event)
    (j : nat) : Z :=
  snd (fst (fst (delta_encode base_timestamp (take j buf) 0 0))).

(** A grouped record made from event [e] for cookie [i]. *)
Definition made_from (i : Z) (events : list tdb_event) (r : tdb_cookie_event) : Prop :=
  cookie_id r = i /\
  exists e, e ∈ events /\ timestamp r = ev_timestamp e /\
            item_zero r = ev_item_zero e /\ num_items r = ev_num_items e.

(** Every back-link points to an earlier slot of the array. *)
Definition backlinks_backward (events : list tdb_event) : Prop :=
  forall k e, events !! k = Some e -> 0 <= prev_event_idx e <= Z.of_nat k.


(** The run [group_events] writes for a cookie whose chain of records,
    in the order the back-links were followed, is [chain]. *)
Definition cookie_run (base_timestamp : Z) (chain : list tdb_cookie_event)
  : list tdb_cookie_event :=
  fst (fst (fst (delta_encode base_timestamp (qsort chain) 0 0))).

(** The largest delta among the valid-tagged records of a stream, and
    [m] if there is none larger. *)
Definition max_valid_delta (m : Z) (stored : list tdb_cookie_event) : Z :=
  foldl (fun acc r => if Z.land (timestamp r) 255 =? 0
                      then Z.max acc (Z.shiftr (timestamp r) 8) else acc)
        m stored.

(** Consecutive non-empty runs for the cookies [first], [first + 1], ... *)
Fixpoint well_grouped (first : Z) (runs : list (list tdb_cookie_event)) : bool :=
  match runs with
  | [] => true
  | run :: rest =>
      negb (Nat.eqb (length run) 0) && forallb (fun r => cookie_id r =? first) run
      && well_grouped (first + 1) rest
  end.

(** ** Edge encoding, as the specification words it *)

(** The items of an event: [items[item_zero .. item_zero + num_items)]. *)
Definition event_items (items : list Z) (ev : tdb_cookie_event) : list Z :=
  take (Z.to_nat (num_items ev)) (drop (Z.to_nat (item_zero ev)) items).

(** The value last seen for field [f]: the latest of the items [seen]
    that has this field, and the entry of the table the event started
    with when there is none. *)
Definition last_seen (field : Z -> Z) (table seen : list Z) (f : Z) : option Z :=
  match find (fun item => field item =? f) (rev seen) with
  | Some item => Some item
  | None => index table f
  end.

(** The items that differ from the value last seen for their field, in
    the order of the item array; [seen] are the items already visited. *)
Fixpoint edge_subset (field : Z -> Z) (table seen rest : list Z) : list Z :=
  match rest with
  | [] => []
  | item :: rest' =>
      let tail := edge_subset field table (seen ++ [item]) rest' in
      match last_seen field table seen (field item) with
      | Some v => if v =? item then tail else item :: tail
      | None => item :: tail
      end
  end.

(** The fields of these items are slots of the table. *)
Definition fields_in_table (field : Z -> Z) (table items : list Z) : bool :=
  forallb (fun item => (0 <=? field item)
                       && (field item <? Z.of_nat (length table))) items.

(** [table] holds, for every field, the value last seen after the items
    [seen], starting from [table0]. *)
Definition tracks (field : Z -> Z) (table0 seen table : list Z) : Prop :=
  length table = length table0 /\
  forall f, 0 <= f -> index table f = last_seen field table0 seen f.

(** ** Reading the info file

    A reader for the one line of the info file: fields separated by
    single spaces, closed by a newline that ends the text, each field an
    unsigned decimal number. *)

Definition parse_unsigned (s : string) : option Z :=
  (fun d => Z.of_N (N.of_uint d)) <$> NilZero.uint_of_string s.

Fixpoint line_fields (s cur : string) : option (list string) :=
  match s with
  | EmptyString => None
  | String c s' =>
      if Ascii.eqb c newline_char then
        match s' with EmptyString => Some [cur] | _ => None end
      else if Ascii.eqb c " " then cons cur <$> line_fields s' EmptyString
      else line_fields s' (cur ++ String c EmptyString)
  end.

Definition read_info (line : string) : option (list Z) :=
  fields ← line_fields line EmptyString;
  mapM parse_unsigned fields.

(** No character of [s] is a space or a newline. *)
Fixpoint no_separator (s : string) : bool :=
  match s with
  | EmptyString => true
  | String c s' =>
      negb (Ascii.eqb c newline_char) && negb (Ascii.eqb c " ")
      && no_separator s'
  end.

(** ** The layout of the trail file *)

(** The writes that lay out the trails [trails] of the cookies [cookie],
    [cookie + 1], ... from the offset [file_offs] on: for each cookie its
    slot of the table of contents, then its trail. *)
Fixpoint trail_writes (cookie file_offs : Z) (trails : list (list Z))
  : list (Z * list Z) :=
  match trails with
  | [] => []
  | t :: rest =>
      (cookie * 4, le_bytes 4 file_offs) :: (file_offs, t)
      :: trail_writes (cookie + 1) (file_offs + Z.of_nat (length t)) rest
  end.

(** Where each of the trails starts. *)
Fixpoint trail_starts (file_offs : Z) (trails : list (list Z)) : list Z :=
  match trails with
  | [] => []
  | t :: rest => file_offs :: trail_starts (file_offs + Z.of_nat (length t)) rest
  end.

(** The offsets of the table of contents: where each trail starts, and
    where the last one ends. *)
Fixpoint toc_offsets (file_offs : Z) (trails : list (list Z)) : list Z :=
  match trails with
  | [] => [file_offs]
  | t :: rest => file_offs :: toc_offsets (file_offs + Z.of_nat (length t)) rest
  end.

(** Entry [i] of the table of contents of a file. *)
Definition toc_entry (content : list Z) (i : Z) : Z :=
  le_value (take 4 (drop (Z.to_nat (4 * i)) content)).

(** The end of a write: the offset after its last byte. *)
Definition write_end (w : Z * list Z) : Z := fst w + Z.of_nat (length (snd w)).

(** In the writes [ws] of a run that ended as [r], a write that ends at
    [UINT32_MAX] or beyond is the last one, and the run was aborted. *)
Fixpoint guarded {A : Type} (ws : list (Z * list Z)) (r : outcome A) : Prop :=
  match ws with
  | [] => True
  | w :: rest =>
      if write_end w <? UINT32_MAX then guarded rest r
      else rest = [] /\ r = Abort TrailOver4GB
  end.

(** Bit [k] of a sequence of bytes. *)
Definition bit_of (bytes : list Z) (k : Z) : bool :=
  Z.testbit (default 0 (index bytes (k / 8))) (k mod 8).

(** What the length residual comes to for a trail of [bits] bits stored
    in [bytes]: when [bits] is not a multiple of 8 there is one more byte
    than [bits / 8], the low three bits of the first byte hold the number
    [8 - bits mod 8] of unused bits, and those unused bits at the end of
    the last byte are zero; when it is a multiple of 8 there are
    [bits / 8] bytes and the low three bits of the first byte are zero. *)
Definition residual_recorded (bits : Z) (bytes : list Z) : Prop :=
  if bits mod 8 =? 0 then
    Z.of_nat (length bytes) = bits / 8 /\
    exists b0, bytes !! 0%nat = Some b0 /\ Z.land b0 7 = 0
  else
    1 <= 8 - bits mod 8 <= 7 /\
    Z.of_nat (length bytes) = bits / 8 + 1 /\
    (exists b0, bytes !! 0%nat = Some b0 /\ Z.land b0 7 = 8 - bits mod 8) /\
    forall k, bits <= k < 8 * Z.of_nat (length bytes) -> bit_of bytes k = false.

(** The number of invalid-tagged records of a stream. *)
Definition count_invalid (stored : list tdb_cookie_event) : Z :=
  Z.of_nat (length (filter (fun r => Z.land (timestamp r) 255 <> 0) stored)).

(** ** Worked inputs

    Three cookies over five events. Cookie 0 has the events at 100, 100
    and 500 with the items A=1, A=1, A=2; field A is field 1. *)
Definition item_A (v : Z) : Z := v * 256 + 1.
Definition sc_items : list Z := [item_A 1; item_A 1; item_A 2; item_A 7; item_A 9].
Definition sc_events : list tdb_event :=
  [mk_event 0 1 100 0; mk_event 1 1 100 1; mk_event 2 1 500 2;
   mk_event 3 1 120 0; mk_event 4 1 130 0].
Definition sc_cookie_pointers : list Z := [2; 3; 4].

(** A buffer whose second record lies [2^24] seconds after the first. *)
Definition far_buf : list tdb_cookie_event :=
  [mk_cookie_event 0 0 1 50; mk_cookie_event 0 1 1 16777266;
   mk_cookie_event 0 2 1 60].

(** One cookie with 400 events: 399 at timestamp 0 and the most recent
    one [2^24] seconds later. *)
Definition sparse_events : list tdb_event :=
  mk_event 0 0 0 0 ::
  map (fun k => mk_event 0 0 (if Nat.eqb k 399 then 16777216 else 0) (Z.of_nat k))
      (seq 1 399).

(** Two cookies over four events: the second event of cookie 0 lies
    [2^24] seconds after the first and the third five seconds later
    still, and cookie 1 has one event, 100 seconds after the base. *)
Definition late_events : list tdb_event :=
  [mk_event 0 1 100 0; mk_event 1 1 16777316 1; mk_event 2 1 16777321 2;
   mk_event 3 1 200 0].

(** The state in which the loop of [group_events] ends on them. *)
Definition late_state : group_state :=
  mk_group_state
    [mk_cookie_event 0 0 1 0; mk_cookie_event 0 1 1 1; mk_cookie_event 0 2 1 1;
     mk_cookie_event 1 3 1 25600]
    10000000 100 2.

(** The grouped stream of the worked input, its runs, and its trail
    file under the collaborators of the worked examples. *)
Definition sc_runs : list (list tdb_cookie_event) :=
  [[mk_cookie_event 0 0 1 0; mk_cookie_event 0 1 1 0; mk_cookie_event 0 2 1 102400];
   [mk_cookie_event 1 3 1 5120];
   [mk_cookie_event 2 4 1 7680]].

Definition sc_grouped : list tdb_cookie_event := concat sc_runs.

Definition sc_encode_trails (fuel : nat) : option FILE * outcome unit :=
  encode_trails item_low_byte (fun _ => tt) grams_as_items huff_bytes
    write_bits_or sc_items sc_grouped (Z.of_nat (length sc_grouped)) 3 2
    tt tt tt fuel.

Definition sc_trail_file : FILE :=
  Eval vm_compute in
    match fst (sc_encode_trails 5) with Some f => f | None => fopen end.

(** ** Chains with a cycle *)

(** A set of events that the back-links never leave: every member has
    a back-link, and the event it links to, when the array has it, is a
    member again. *)
Definition backlinks_closed (events : list tdb_event) (P : tdb_event -> Prop) : Prop :=
  forall e, P e ->
    prev_event_idx e <> 0 /\
    forall e', index events (prev_event_idx e - 1) = Some e' -> P e'.

(** ** The events of a cookie *)

(** The events on the chain of back-links that starts at [ev], the most
    recent one first. *)
Fixpoint chain_events (fuel : nat) (events : list tdb_event) (ev : tdb_event)
  : option (list tdb_event) :=
  match fuel with
  | O => None
  | S fuel' =>
      if prev_event_idx ev =? 0 then Some [ev]
      else
        ev' ← index events (prev_event_idx ev - 1);
        cons ev <$> chain_events fuel' events ev'
  end.

(** The cookie and the item range of a grouped record, and those of an
    event of cookie [i]. *)
Definition record_items (r : tdb_cookie_event) : Z * Z * Z :=
  (cookie_id r, item_zero r, num_items r).

Definition event_items_of (i : Z) (e : tdb_event) : Z * Z * Z :=
  (i, ev_item_zero e, ev_num_items e).

(** ** The grouped stream as [encode_trails] reads it *)

(** The record that [ev] holds when the loops of [encode_trails] have
    counted to [k]: record [k] of the stream, and past its end the last
    record [r], which the failed reads leave in place. *)
Definition record_at (grouped : list tdb_cookie_event) (r : tdb_cookie_event)
    (k : Z) : tdb_cookie_event :=
  default r (index grouped k).

(** The stream cut to its first [n] records, or filled up to [n]
    records with copies of [r]. *)
Definition stream_as_read (grouped : list tdb_cookie_event) (r : tdb_cookie_event)
    (n : nat) : list tdb_cookie_event :=
  take n grouped ++ replicate (n - length grouped) r.

(** * Utilities: a shallow embedding of [util.c]

    The functions of [util.c] live in a module of their own, the file
    having a [compare] of its own. Allocation is assumed to succeed, as
    above. *)

Module util.

(** ** [bits_needed] *)

(** The loop [while (x)] with its body [x >>= 1; ++bits]. *)
Fixpoint bits_needed_loop (fuel : nat) (x bits : Z) : outcome Z :=
  if negb (x =? 0) then
    match fuel with
    | O => OutOfFuel
    | S fuel' => bits_needed_loop fuel' (Z.shiftr x 1) (u32 (bits + 1))
    end
  else Done bits.

Definition bits_needed (fuel : nat) (max : Z) : outcome Z :=
  let x := max in
  let bits := if negb (x =? 0) then 0 else 1 in
  bits_needed_loop fuel x bits.

(** ** [compare] and [sort_judyl] *)

Record sortpair : Type := mk_sortpair {
  key : Z;                (* Word_t *)
  value : Z               (* Word_t *)
}.

(** Pairs with the greater value come first. *)
Definition compare (x y : sortpair) : Z :=
  if value x >? value y then -1
  else if value x <? value y then 1
  else 0.

(** [qsort], as for the grouped records: an insertion sort driven by
    [compare], in which pairs of equal value come out in the reverse of
    the order they had in the array. *)
Fixpoint qsort_insert (x : sortpair) (l : list sortpair) : list sortpair :=
  match l with
  | [] => [x]
  | y :: l' => if compare x y <? 0 then x :: y :: l' else y :: qsort_insert x l'
  end.

Definition qsort (pairs : list sortpair) : list sortpair :=
  foldr qsort_insert [] pairs.

(** A JudyL array maps words to words and is walked in the order of its
    indices. It is the list of its entries, index and value, in the
    ascending order of the indices.

    [JLC]: the number of indices from [index1] to [index2]; [JLF]: the
    first entry at or after [index]; [JLN]: the first entry after
    [index]. *)
Definition JLC (judy : list (Z * Z)) (index1 index2 : Z) : Z :=
  Z.of_nat (length (filter (fun e => index1 <= fst e <= index2) judy)).

Definition JLF (judy : list (Z * Z)) (index : Z) : option (Z * Z) :=
  find (fun e => index <=? fst e) judy.

Definition JLN (judy : list (Z * Z)) (index : Z) : option (Z * Z) :=
  find (fun e => index <? fst e) judy.

(** The loop [while (val)]: [found] is the entry that [key] and [val]
    stand for, and [pairs] the array from [calloc], which is taken to
    return an array also when there is no pair to hold. *)
Fixpoint sort_judyl_loop (fuel : nat) (judy : list (Z * Z)) (found : option (Z * Z))
    (i : Z) (pairs : list sortpair) : outcome (list sortpair) :=
  match found with
  | None => Done pairs
  | Some (key, val) =>
      match fuel with
      | O => OutOfFuel
      | S fuel' =>
          if i <? Z.of_nat (length pairs) then
            let pairs := <[Z.to_nat i := mk_sortpair key val]> pairs in
            sort_judyl_loop fuel' judy (JLN judy key) (u32 (i + 1)) pairs
          else Undefined
      end
  end.

(** Returns the sorted pairs and [*num_items]. *)
Definition sort_judyl (fuel : nat) (judy : list (Z * Z))
  : outcome (list sortpair * Z) :=
  let num_items := JLC judy 0 (u64 (-1)) in
  let pairs := replicate (Z.to_nat num_items) (mk_sortpair 0 0) in
  pairs ← sort_judyl_loop fuel judy (JLF judy 0) 0 pairs;
  Done (qsort pairs, num_items).

(** The entries of a JudyL array: indices that are words, in strictly
    ascending order. *)
Fixpoint judy_sorted (lo : Z) (judy : list (Z * Z)) : bool :=
  match judy with
  | [] => true
  | e :: rest => (lo <=? fst e) && (fst e <? 2 ^ 64) && judy_sorted (fst e + 1) rest
  end.

(** Values in descending order, none above [hi]. *)
Fixpoint descending (hi : Z) (pairs : list sortpair) : bool :=
  match pairs with
  | [] => true
  | p :: rest => (value p <=? hi) && descending (value p) rest
  end.

Definition entry_of (p : sortpair) : Z * Z := (key p, value p).

(** ** [parse_uint64] *)

(** [isspace] in the C locale: space, and the characters from the tab
    to the carriage return. *)
Definition isspace (c : ascii) : bool :=
  let n := Z.of_N (N_of_ascii c) in
  (n =? 32) || ((9 <=? n) && (n <=? 13)).

Definition digit (c : ascii) : option Z :=
  let n := Z.of_N (N_of_ascii c) in
  if (48 <=? n) && (n <=? 57) then Some (n - 48) else None.

Fixpoint skip_spaces (s : string) : string :=
  match s with
  | String c s' => if isspace c then skip_spaces s' else s
  | EmptyString => s
  end.

(** The decimal digits at the head of [s]: their value on top of [acc],
    whether there was any, and what follows them. *)
Fixpoint read_digits (s : string) (acc : Z) (any : bool) : Z * bool * string :=
  match s with
  | String c s' =>
      match digit c with
      | Some d => read_digits s' (10 * acc + d) true
      | None => (acc, any, s)
      end
  | EmptyString => (acc, any, s)
  end.

(** The sign at the head of [s], if there is one: whether it is a
    minus, and what follows it. *)
Definition take_sign (s : string) : bool * string :=
  match s with
  | String "-" s' => (true, s')
  | String "+" s' => (false, s')
  | _ => (false, s)
  end.

Definition ULLONG_MAX : Z := 2 ^ 64 - 1.

Section Parse.

(** Whether [strtoull] sets [errno] when it finds no digits to convert:
    POSIX allows [EINVAL] there, and the C standard asks for nothing. *)
Variable einval_without_digits : bool.

(** [strtoull(nptr, &p, 10)]: the value, [p], and whether [errno] was
    set. White space is skipped, a sign is taken, and the digits are
    read. Without digits nothing is converted and [p] is [nptr]. A value
    beyond [ULLONG_MAX] gives [ULLONG_MAX] and [ERANGE]; a value after a
    minus sign is negated in 64 bits. *)
Definition strtoull (nptr : string) : Z * string * bool :=
  let s := skip_spaces nptr in
  let '(minus, s) := take_sign s in
  let '(v, any, p) := read_digits s 0 false in
  if negb any then (0, nptr, einval_without_digits)
  else if v >? ULLONG_MAX then (ULLONG_MAX, p, true)
  else (if minus then u64 (- v) else v, p, false).

(** [*p]: the character at [p], the end of the string being a NUL. *)
Definition deref (p : string) : ascii :=
  match p with
  | String c _ => c
  | EmptyString => zero
  end.

Inductive parsed : Type :=
| Number (n : Z)
| Invalid_unsigned_integer.

Definition parse_uint64 (str : string) : parsed :=
  let '(n, p, errno) := strtoull str in
  if negb (Ascii.eqb (deref p) zero) || errno
  then Invalid_unsigned_integer
  else Number n.

End Parse.

(** The number that the digits [d] stand for, on top of [acc]. *)
Fixpoint uint_value (d : Decimal.uint) (acc : Z) : Z :=
  match d with
  | Decimal.Nil => acc
  | Decimal.D0 l => uint_value l (10 * acc)
  | Decimal.D1 l => uint_value l (10 * acc + 1)
  | Decimal.D2 l => uint_value l (10 * acc + 2)
  | Decimal.D3 l => uint_value l (10 * acc + 3)
  | Decimal.D4 l => uint_value l (10 * acc + 4)
  | Decimal.D5 l => uint_value l (10 * acc + 5)
  | Decimal.D6 l => uint_value l (10 * acc + 6)
  | Decimal.D7 l => uint_value l (10 * acc + 7)
  | Decimal.D8 l => uint_value l (10 * acc + 8)
  | Decimal.D9 l => uint_value l (10 * acc + 9)
  end.

(** A string of white space. *)
Fixpoint all_spaces (s : string) : bool :=
  match s with
  | String c s' => isspace c && all_spaces s'
  | EmptyString => true
  end.

(** ** [dsfmt_shuffle] *)

(** Arithmetic on [double] (binary64), rounding to nearest even. *)
Definition double_of_uint (x : Z) : spec_float := binary_normalize 53 1024 x 0 false.
Definition double_mul (x y : spec_float) : spec_float := SFmul 53 1024 x y.
Definition double_add (x y : spec_float) : spec_float := SFadd 53 1024 x y.

(** Conversion of a [double] to [uint32_t]: the fraction is dropped, and
    the conversion is undefined when what is left is no value of the
    type. *)
Definition uint32_of_double (f : spec_float) : option Z :=
  match f with
  | S754_zero _ => Some 0
  | S754_finite s m e =>
      let t := if e >=? 0 then Z.pos m * 2 ^ e else Z.pos m / 2 ^ (- e) in
      let t := if s then - t else t in
      if (0 <=? t) && (t <? 2 ^ 32) then Some t else None
  | _ => None
  end.

Section Shuffle.

(** The generator, whose code lies in another file: the state made
    from a seed, and the draw of a [double] from the state. *)
Context {dsfmt_t : Type}.
Variable dsfmt_init_gen_rand : Z -> dsfmt_t.
Variable dsfmt_genrand_close_open : dsfmt_t -> dsfmt_t * spec_float.

(** The index [j] of one step: [i + (len - i) * r] in [double],
    converted to [uint32_t]. *)
Definition shuffle_index (i len : Z) (r : spec_float) : option Z :=
  uint32_of_double
    (double_add (double_of_uint i) (double_mul (double_of_uint (len - i)) r)).

(** The loop [for (i = 0; i < len - 1; i++)]. *)
Fixpoint dsfmt_shuffle_loop (count : nat) (i len : Z) (state : dsfmt_t)
    (arr : list Z) : outcome (list Z) :=
  match count with
  | O => Done arr
  | S count' =>
      let '(state, r) := dsfmt_genrand_close_open state in
      j ← of_option (shuffle_index i len r);
      t ← of_option (index arr j);
      x ← of_option (index arr i);
      let arr := <[Z.to_nat j := x]> arr in
      let arr := <[Z.to_nat i := t]> arr in
      dsfmt_shuffle_loop count' (i + 1) len state arr
  end.

Definition dsfmt_shuffle (arr : list Z) (len seed : Z) : outcome (list Z) :=
  if len >? 1 then
    dsfmt_shuffle_loop (Z.to_nat (len - 1)) 0 len (dsfmt_init_gen_rand seed) arr
  else Done arr.

End Shuffle.

(** The greatest [double] below 1 with 52 bits after the point,
    [1 - 2^-52]. *)
Definition below_one : spec_float := S754_finite false 9007199254740990 (-53).

End util.

(** * Properties *)

(** ** Machine arithmetic *)

Lemma is_u32_spec x : is_u32 x = true <-> 0 <= x < 2 ^ 32.
Proof. unfold is_u32. rewrite andb_true_iff, Z.leb_le, Z.ltb_lt. tauto. Qed.

Lemma is_u64_spec x : is_u64 x = true <-> 0 <= x < 2 ^ 64.
Proof. unfold is_u64. rewrite andb_true_iff, Z.leb_le, Z.ltb_lt. tauto. Qed.

Lemma u32_small x : 0 <= x < 2 ^ 32 -> u32 x = x.
Proof. intros. unfold u32. apply Z.mod_small. lia. Qed.

Lemma u64_small x : 0 <= x < 2 ^ 64 -> u64 x = x.
Proof. intros. unfold u64. apply Z.mod_small. lia. Qed.

Lemma u32_range x : 0 <= u32 x < 2 ^ 32.
Proof. unfold u32. apply Z.mod_pos_bound. lia. Qed.

Lemma u64_range x : 0 <= u64 x < 2 ^ 64.
Proof. unfold u64. apply Z.mod_pos_bound. lia. Qed.

Lemma index_Some {A} (a : list A) i x :
  index a i = Some x <-> 0 <= i /\ a !! Z.to_nat i = Some x.
Proof.
  unfold index. destruct (Z.ltb_spec i 0); split.
  - discriminate.
  - intros [? _]. lia.
  - intros. split; [lia | assumption].
  - now intros [_ ?].
Qed.

Lemma index_nat {A} (a : list A) (k : nat) : index a (Z.of_nat k) = a !! k.
Proof.
  unfold index. destruct (Z.ltb_spec (Z.of_nat k) 0); [lia |].
  now rewrite Nat2Z.id.
Qed.

(** ** The delta-encoding loop *)

Lemma shift_24 : Z.shiftl 1 24 = 2 ^ 24.
Proof. reflexivity. Qed.

(** A delta below [2^24] survives the shift by eight bits: the tag is
    zero and the upper 24 bits give the delta back. *)
Lemma stored_delta d :
  0 <= d < 2 ^ 24 ->
  Z.land (u32 (Z.shiftl d 8)) 255 = 0 /\ Z.shiftr (u32 (Z.shiftl d 8)) 8 = d.
Proof.
  intros Hd. rewrite Z.shiftl_mul_pow2 by lia.
  rewrite u32_small by lia.
  change 255 with (Z.ones 8). rewrite Z.land_ones by lia.
  rewrite Z.shiftr_div_pow2 by lia.
  split.
  - apply Z.mod_mul. lia.
  - apply Z.div_mul. lia.
Qed.

Lemma delta_encode_app p l1 l2 m n :
  delta_encode p (l1 ++ l2) m n =
  let '(o1, p1, m1, n1) := delta_encode p l1 m n in
  let '(o2, p2, m2, n2) := delta_encode p1 l2 m1 n1 in
  (o1 ++ o2, p2, m2, n2).
Proof.
  revert p m n. induction l1 as [|ev l1 IH]; intros p m n; simpl.
  - now destruct (delta_encode p l2 m n) as [[[? ?] ?] ?].
  - destruct (_ <? _).
    + rewrite IH.
      destruct (delta_encode (timestamp ev) l1 _ n) as [[[o1 p1] m1] n1].
      now destruct (delta_encode p1 l2 m1 n1) as [[[? ?] ?] ?].
    + rewrite IH.
      destruct (delta_encode p l1 m _) as [[[o1 p1] m1] n1].
      now destruct (delta_encode p1 l2 m1 n1) as [[[? ?] ?] ?].
Qed.

(** The rewritten records and the reference do not depend on the two
    counters threaded through the loop. *)
Lemma delta_encode_counters p l m n m' n' :
  fst (fst (delta_encode p l m n)) = fst (fst (delta_encode p l m' n')).
Proof.
  revert p m n m' n'. induction l as [|ev l IH]; intros; simpl; [easy|].
  destruct (_ <? _).
  - specialize (IH (timestamp ev)
      (if u32 (timestamp ev - p) >? m then u32 (timestamp ev - p) else m) n
      (if u32 (timestamp ev - p) >? m' then u32 (timestamp ev - p) else m') n').
    destruct (delta_encode (timestamp ev) l _ n) as [[[? ?] ?] ?].
    destruct (delta_encode (timestamp ev) l _ n') as [[[? ?] ?] ?].
    simpl in *. congruence.
  - specialize (IH p m (u64 (n + 1)) m' (u64 (n' + 1))).
    destruct (delta_encode p l m _) as [[[? ?] ?] ?].
    destruct (delta_encode p l m' _) as [[[? ?] ?] ?].
    simpl in *. congruence.
Qed.

Lemma delta_encode_length p l m n :
  length (fst (fst (fst (delta_encode p l m n)))) = length l.
Proof.
  revert p m n. induction l as [|ev l IH]; intros; simpl; [easy|].
  destruct (_ <? _).
  - specialize (IH (timestamp ev)
      (if u32 (timestamp ev - p) >? m then u32 (timestamp ev - p) else m) n).
    destruct (delta_encode (timestamp ev) l _ n) as [[[? ?] ?] ?]. simpl in *. lia.
  - specialize (IH p m (u64 (n + 1))).
    destruct (delta_encode p l m _) as [[[? ?] ?] ?]. simpl in *. lia.
Qed.

(** What the loop does with [buf[j]], in terms of the reference it has
    reached there. *)
Lemma delta_encode_at base buf m n j ev :
  buf !! j = Some ev ->
  let ref := reference_at base buf j in
  let d := u32 (timestamp ev - ref) in
  fst (fst (fst (delta_encode base buf m n))) !! j
    = Some (set_timestamp ev (if d <? 2 ^ 24 then u32 (Z.shiftl d 8) else 1)) /\
  reference_at base buf (S j) = (if d <? 2 ^ 24 then timestamp ev else ref).
Proof.
  intros Hj ref d.
  pose proof (take_drop_middle buf j ev Hj) as Hsplit.
  assert (Hlen : length (take j buf) = j).
  { apply length_take_le. apply lookup_lt_Some in Hj. lia. }
  assert (Href : snd (fst (fst (delta_encode base (take j buf) m n))) = ref).
  { unfold ref, reference_at.
    now rewrite (delta_encode_counters base (take j buf) m n 0 0). }
  split.
  - rewrite <- Hsplit at 1. rewrite delta_encode_app.
    pose proof (delta_encode_length base (take j buf) m n) as Hl.
    destruct (delta_encode base (take j buf) m n) as [[[o1 p1] m1] n1].
    simpl in Href, Hl. subst p1.
    simpl. fold d. rewrite shift_24.
    destruct (d <? 2 ^ 24).
    + destruct (delta_encode (timestamp ev) _ _ n1) as [[[o2 p2] m2] n2]. simpl.
      rewrite lookup_app_r by lia.
      replace (j - length o1)%nat with 0%nat by lia. reflexivity.
    + destruct (delta_encode ref _ m1 _) as [[[o2 p2] m2] n2]. simpl.
      rewrite lookup_app_r by lia.
      replace (j - length o1)%nat with 0%nat by lia. reflexivity.
  - unfold reference_at at 1. rewrite (take_S_r _ _ _ Hj), delta_encode_app.
    unfold ref, reference_at in *.
    destruct (delta_encode base (take j buf) 0 0) as [[[o1 p1] m1] n1].
    simpl. rewrite shift_24. simpl in d. fold d.
    now destruct (d <? 2 ^ 24).
Qed.

(** ** Sorting *)

Lemma qsort_insert_perm x l : Permutation (qsort_insert x l) (x :: l).
Proof.
  induction l as [|y l IH]; simpl; [easy|].
  destruct (_ <? _); [easy|].
  rewrite IH. apply perm_swap.
Qed.

Lemma qsort_perm l : Permutation (qsort l) l.
Proof.
  induction l as [|x l IH]; simpl; [easy|].
  rewrite qsort_insert_perm. now constructor.
Qed.

Lemma compare_neg x y : (compare x y <? 0) = (timestamp x <? timestamp y).
Proof.
  unfold compare.
  destruct (Z.gtb_spec (timestamp x) (timestamp y));
    destruct (Z.ltb_spec (timestamp x) (timestamp y)); simpl; try easy; lia.
Qed.

Lemma qsort_insert_ascending lo x l :
  lo <= timestamp x ->
  ascending lo (timestamp <$> l) = true ->
  ascending lo (timestamp <$> qsort_insert x l) = true.
Proof.
  revert lo. induction l as [|y l IH]; intros lo Hx Hl; simpl in *.
  - rewrite andb_true_r. now apply Z.leb_le.
  - apply andb_true_iff in Hl as [Hy Hl]. apply Z.leb_le in Hy.
    rewrite compare_neg. destruct (Z.ltb_spec (timestamp x) (timestamp y)); simpl.
    + rewrite Hl, andb_true_r. apply andb_true_iff. split; apply Z.leb_le; lia.
    + apply andb_true_iff. split; [now apply Z.leb_le|]. apply IH; [lia | easy].
Qed.

Lemma qsort_ascending lo l :
  Forall (fun ev => lo <= timestamp ev) l ->
  ascending lo (timestamp <$> qsort l) = true.
Proof.
  induction 1 as [|x l Hx Hl IH]; simpl; [easy|].
  now apply qsort_insert_ascending.
Qed.

(** ** Reading back what the loop stored *)

Lemma delta_encode_reconstruct buf : forall base m n j ev',
  0 <= base ->
  Forall (fun ev => timestamp ev < 2 ^ 32) buf ->
  ascending base (timestamp <$> buf) = true ->
  fst (fst (fst (delta_encode base buf m n))) !! j = Some ev' ->
  Z.land (timestamp ev') 255 = 0 ->
  exists ev, buf !! j = Some ev /\
    reconstruct base (timestamp <$> fst (fst (fst (delta_encode base buf m n)))) !! j
      = Some (Some (timestamp ev)).
Proof.
  induction buf as [|ev buf IH]; intros base m n j ev' Hb Hr Ha Hj Hv; [easy|].
  simpl in Ha. apply andb_true_iff in Ha as [Hle Ha]. apply Z.leb_le in Hle.
  inversion Hr as [|? ? Hev Hr']; subst.
  assert (Hd : u32 (timestamp ev - base) = timestamp ev - base)
    by (apply u32_small; lia).
  simpl in Hj |- *. rewrite Hd, shift_24 in Hj |- *.
  destruct (Z.ltb_spec (timestamp ev - base) (2 ^ 24)) as [Hfit|Hfit].
  - pose proof (stored_delta (timestamp ev - base) ltac:(lia)) as [Htag Hup].
    specialize (IH (timestamp ev)
      (if timestamp ev - base >? m then timestamp ev - base else m) n).
    destruct (delta_encode (timestamp ev) buf _ n) as [[[out p] m'] n'].
    simpl in Hj |- *. rewrite Htag, Hup. simpl.
    replace (base + (timestamp ev - base)) with (timestamp ev) by lia.
    destruct j as [|j]; simpl in *.
    + eauto.
    + apply (IH j ev'); auto; lia.
  - specialize (IH base m (u64 (n + 1))).
    destruct (delta_encode base buf m _) as [[[out p] m'] n'].
    simpl in Hj |- *.
    destruct j as [|j]; simpl in *.
    + injection Hj as <-. simpl in Hv. discriminate.
    + apply (IH j ev'); auto.
      destruct buf as [|ev2 buf]; simpl in *; [easy|].
      apply andb_true_iff in Ha as [Hle2 Ha]. apply Z.leb_le in Hle2.
      apply andb_true_iff. split; [apply Z.leb_le; lia | easy].
Qed.

(** ** Following the back-links *)

Lemma follow_backlinks_chain fuel events i : forall ev j bs buf buf' j' bs',
  ev ∈ events ->
  follow_backlinks fuel events i ev j bs buf = Done (buf', j', bs') ->
  exists chain, buf' = buf ++ chain /\ chain <> [] /\
                Forall (made_from i events) chain.
Proof.
  induction fuel as [|fuel IH]; intros ev j bs buf buf' j' bs' Hin H; [easy|].
  simpl in H.
  destruct (j >=? (if j >=? bs then u32 (bs + GROUPBUF_INCREMENT) else bs)); [easy|].
  set (r := mk_cookie_event i (ev_item_zero ev) (ev_num_items ev) (ev_timestamp ev)) in *.
  assert (Hr : made_from i events r) by (split; [easy | exists ev; easy]).
  destruct (prev_event_idx ev =? 0).
  - injection H as <- _ _. exists [r]. repeat split; [easy | now constructor].
  - destruct (index events (prev_event_idx ev - 1)) as [ev2|] eqn:Hidx; [|easy].
    simpl in H. apply IH in H as (chain & -> & _ & Hall).
    + exists (r :: chain). rewrite <- app_assoc. repeat split; [easy | now constructor].
    + apply index_Some in Hidx as [_ Hidx]. eapply list_elem_of_lookup_2, Hidx.
Qed.

(** With back-links that point backward the walk from [events[k]] ends
    within [k + 1] steps, and the buffer never has to grow twice. *)
Lemma follow_backlinks_total events i :
  backlinks_backward events ->
  forall fuel k ev j bs buf,
    events !! k = Some ev ->
    (k < fuel)%nat ->
    0 <= j <= bs -> bs < 2 ^ 32 ->
    j + Z.of_nat k + GROUPBUF_INCREMENT < 2 ^ 32 ->
    exists buf' j' bs',
      follow_backlinks fuel events i ev j bs buf = Done (buf', j', bs') /\
      0 <= bs' < 2 ^ 32.
Proof.
  intros Hback. unfold GROUPBUF_INCREMENT.
  induction fuel as [|fuel IH]; intros k ev j bs buf Hk Hfuel Hj Hbs Hsz; [lia|].
  simpl. unfold GROUPBUF_INCREMENT.
  set (bs1 := if j >=? bs then u32 (bs + 10000000) else bs).
  assert (Hbs1 : j < bs1 < 2 ^ 32).
  { unfold bs1. destruct (Z.geb_spec j bs).
    - rewrite u32_small by lia. lia.
    - lia. }
  destruct (Z.geb_spec j bs1); [lia|].
  rewrite (u32_small (j + 1)) by lia.
  destruct (Z.eqb_spec (prev_event_idx ev) 0).
  - eexists _, _, _. split; [reflexivity | lia].
  - pose proof (Hback k ev Hk) as Hprev.
    destruct (lookup_lt_is_Some_2 events (Z.to_nat (prev_event_idx ev - 1)))
      as [ev2 Hev2].
    { apply lookup_lt_Some in Hk. lia. }
    assert (Hidx : index events (prev_event_idx ev - 1) = Some ev2).
    { apply index_Some. split; [lia | easy]. }
    rewrite Hidx. simpl.
    apply (IH (Z.to_nat (prev_event_idx ev - 1))); try lia; easy.
Qed.

(** On an array whose back-links point backward and whose cookie
    pointers are slots of the array, [group_cookies] reaches the end of
    its loop, given fuel for the longest chain. *)
Lemma group_cookies_total fuel events cookie_pointers base :
  backlinks_backward events ->
  Forall (fun p => 0 <= p < Z.of_nat (length events)) cookie_pointers ->
  Z.of_nat (length events) + GROUPBUF_INCREMENT < 2 ^ 32 ->
  (length events <= fuel)%nat ->
  forall count i st,
    0 <= i -> i + Z.of_nat count <= Z.of_nat (length cookie_pointers) ->
    0 <= g_buf_size st < 2 ^ 32 ->
    exists st', group_cookies fuel events cookie_pointers base count i st = Done st'.
Proof.
  intros Hback Hptr Hsize Hfuel.
  induction count as [|count IH]; intros i st Hi Hcount Hbs; [now eexists|].
  cbn [group_cookies]. unfold group_cookie.
  destruct (lookup_lt_is_Some_2 cookie_pointers (Z.to_nat i)) as [p Hp]; [lia|].
  assert (Hip : index cookie_pointers i = Some p) by (apply index_Some; easy).
  rewrite Hip. cbn [of_option mbind outcome_bind].
  rewrite Forall_forall in Hptr.
  pose proof (Hptr p (list_elem_of_lookup_2 _ _ _ Hp)) as Hprange.
  destruct (lookup_lt_is_Some_2 events (Z.to_nat p)) as [ev Hev]; [lia|].
  assert (Hiev : index events p = Some ev) by (apply index_Some; split; [lia | easy]).
  rewrite Hiev. cbn [of_option mbind outcome_bind].
  destruct (follow_backlinks_total events i Hback fuel (Z.to_nat p) ev 0
              (g_buf_size st) [] Hev)
    as (buf & j & bs & Hf & Hbs'); try lia.
  rewrite Hf. cbn [mbind outcome_bind].
  destruct (delta_encode base (qsort buf) _ _) as [[[run p'] m] n].
  apply IH; simpl; lia.
Qed.

(** ** The range scan *)

Lemma timestamp_range_loop_spec count events : forall i lo hi lo' hi',
  0 <= i ->
  timestamp_range_loop count events i lo hi = Done (lo', hi') ->
  lo' <= lo /\ hi <= hi' /\
  (forall k e, (k < count)%nat -> events !! (Z.to_nat i + k)%nat = Some e ->
               lo' <= ev_timestamp e <= hi') /\
  (lo' = lo \/ exists e, e ∈ events /\ ev_timestamp e = lo') /\
  (hi' = hi \/ exists e, e ∈ events /\ ev_timestamp e = hi').
Proof.
  induction count as [|count IH]; intros i lo hi lo' hi' Hi H; simpl in H.
  - injection H as <- <-. repeat split; try lia; auto.
  - destruct (index events i) as [e|] eqn:He; [|easy]. simpl in H.
    apply index_Some in He as [_ He].
    apply IH in H as (Hlo & Hhi & Hall & Hmin & Hmax); [|lia].
    assert (He' : e ∈ events) by (eapply list_elem_of_lookup_2, He).
    replace (Z.to_nat (i + 1)) with (S (Z.to_nat i)) in Hall by lia.
    split; [|split; [|split; [|split]]].
    + destruct (Z.ltb_spec (ev_timestamp e) lo); lia.
    + destruct (Z.gtb_spec (ev_timestamp e) hi); lia.
    + intros k e2 Hk Hk2. destruct k as [|k].
      * rewrite Nat.add_0_r in Hk2. rewrite He in Hk2. injection Hk2 as <-.
        destruct (Z.ltb_spec (ev_timestamp e) lo);
          destruct (Z.gtb_spec (ev_timestamp e) hi); lia.
      * apply (Hall k); [lia|].
        now replace (S (Z.to_nat i) + k)%nat with (Z.to_nat i + S k)%nat by lia.
    + destruct Hmin as [->|Hmin]; [|now right].
      destruct (Z.ltb_spec (ev_timestamp e) lo); [right; eauto | now left].
    + destruct Hmax as [->|Hmax]; [|now right].
      destruct (Z.gtb_spec (ev_timestamp e) hi); [right; eauto | now left].
Qed.

Lemma timestamp_range_bounds events lo hi :
  timestamp_range events (Z.of_nat (length events)) = Done (lo, hi) ->
  forall e, e ∈ events -> lo <= ev_timestamp e <= hi.
Proof.
  intros H e He. apply timestamp_range_loop_spec in H as (_ & _ & Hall & _); [|lia].
  apply list_elem_of_lookup_1 in He as [k Hk].
  apply (Hall k); [|easy]. apply lookup_lt_Some in Hk. lia.
Qed.

Lemma timestamp_range_total events :
  exists lo hi, timestamp_range events (Z.of_nat (length events)) = Done (lo, hi).
Proof.
  unfold timestamp_range. rewrite Nat2Z.id.
  generalize UINT32_MAX, 0 at 2.
  assert (H : forall count i lo hi, 0 <= i ->
            (Z.to_nat i + count <= length events)%nat ->
            exists lo' hi', timestamp_range_loop count events i lo hi = Done (lo', hi')).
  { induction count as [|count IH]; intros i lo hi Hi Hc; simpl; [eauto|].
    destruct (lookup_lt_is_Some_2 events (Z.to_nat i)) as [e He]; [lia|].
    assert (Hidx : index events i = Some e) by (apply index_Some; easy).
    rewrite Hidx. simpl. apply IH; lia. }
  intros lo hi. apply H; simpl; lia.
Qed.

(** ** The grouped stream, cookie by cookie *)

Lemma delta_encode_fields p l : forall m n,
  Forall2 (fun a b => cookie_id b = cookie_id a /\ item_zero b = item_zero a /\
                      num_items b = num_items a)
          l (fst (fst (fst (delta_encode p l m n)))).
Proof.
  revert p. induction l as [|ev l IH]; intros p m n; simpl; [constructor|].
  destruct (_ <? _).
  - specialize (IH (timestamp ev)
      (if u32 (timestamp ev - p) >? m then u32 (timestamp ev - p) else m) n).
    destruct (delta_encode (timestamp ev) l _ n) as [[[? ?] ?] ?].
    now constructor.
  - specialize (IH p m (u64 (n + 1))).
    destruct (delta_encode p l m _) as [[[? ?] ?] ?].
    now constructor.
Qed.

Lemma delta_encode_max p l : forall m n,
  snd (fst (delta_encode p l m n))
  = max_valid_delta m (fst (fst (fst (delta_encode p l m n)))).
Proof.
  revert p. induction l as [|ev l IH]; intros p m n; simpl; [easy|].
  rewrite shift_24.
  destruct (Z.ltb_spec (u32 (timestamp ev - p)) (2 ^ 24)) as [Hfit|Hfit].
  - pose proof (u32_range (timestamp ev - p)).
    pose proof (stored_delta (u32 (timestamp ev - p)) ltac:(lia)) as [Htag Hup].
    specialize (IH (timestamp ev)
      (if u32 (timestamp ev - p) >? m then u32 (timestamp ev - p) else m) n).
    destruct (delta_encode (timestamp ev) l _ n) as [[[out p'] m'] n'].
    simpl in *. unfold max_valid_delta in *. simpl. rewrite Htag, Hup. simpl.
    rewrite IH. f_equal.
    destruct (Z.gtb_spec (u32 (timestamp ev - p)) m); lia.
  - specialize (IH p m (u64 (n + 1))).
    destruct (delta_encode p l m _) as [[[out p'] m'] n'].
    simpl in *. unfold max_valid_delta in *. simpl. exact IH.
Qed.

Lemma max_valid_delta_app m l1 l2 :
  max_valid_delta m (l1 ++ l2) = max_valid_delta (max_valid_delta m l1) l2.
Proof. unfold max_valid_delta. apply foldl_app. Qed.

Lemma group_cookie_inv fuel events cookie_pointers base i st st' :
  group_cookie fuel events cookie_pointers base i st = Done st' ->
  exists chain,
    chain <> [] /\ Forall (made_from i events) chain /\
    grouped_w st' = grouped_w st ++ cookie_run base chain /\
    max_timestamp_delta st'
      = max_valid_delta (max_timestamp_delta st) (cookie_run base chain).
Proof.
  unfold group_cookie. intros H.
  destruct (index cookie_pointers i) as [p|]; [|easy]. simpl in H.
  destruct (index events p) as [ev|] eqn:Hev; [|easy]. simpl in H.
  destruct (follow_backlinks _ _ _ _ _ _ _) as [[[chain j] bs]| | |] eqn:Hf;
    try easy. simpl in H.
  apply index_Some in Hev as [_ Hev]. apply list_elem_of_lookup_2 in Hev.
  apply (follow_backlinks_chain _ _ _ _ _ _ _ _ _ _ Hev) in Hf
    as (chain' & -> & Hne & Hall).
  simpl in *. exists chain'.
  pose proof (delta_encode_counters base (qsort chain')
                (max_timestamp_delta st) (num_invalid st) 0 0) as Hc.
  pose proof (delta_encode_max base (qsort chain')
                (max_timestamp_delta st) (num_invalid st)) as Hm.
  unfold cookie_run.
  destruct (delta_encode base (qsort chain') (max_timestamp_delta st) _)
    as [[[run p'] m'] n'].
  injection H as <-. simpl in *.
  replace (fst (fst (fst (delta_encode base (qsort chain') 0 0)))) with run
    by (now rewrite <- Hc).
  auto.
Qed.

Lemma group_cookies_inv fuel events cookie_pointers base count :
  forall i st st',
  group_cookies fuel events cookie_pointers base count i st = Done st' ->
  exists chains,
    length chains = count /\
    (forall k chain, chains !! k = Some chain ->
       chain <> [] /\ Forall (made_from (i + Z.of_nat k) events) chain) /\
    grouped_w st' = grouped_w st ++ concat (cookie_run base <$> chains) /\
    max_timestamp_delta st'
      = max_valid_delta (max_timestamp_delta st)
          (concat (cookie_run base <$> chains)).
Proof.
  induction count as [|count IH]; intros i st st' H; simpl in H.
  - injection H as <-. exists []. simpl. rewrite app_nil_r. repeat split; easy.
  - destruct (group_cookie _ _ _ _ _ _) as [st1| | |] eqn:H1; try easy.
    simpl in H.
    apply group_cookie_inv in H1 as (chain & Hne & Hall & Hw & Hm).
    apply IH in H as (chains & Hlen & Hch & Hw' & Hm').
    exists (chain :: chains). simpl. split; [lia|]. split; [|split].
    + intros [|k] c Hk; simpl in Hk.
      * injection Hk as <-. now rewrite Z.add_0_r.
      * apply Hch in Hk. now replace (i + Z.of_nat (S k)) with (i + 1 + Z.of_nat k) by lia.
    + now rewrite Hw', Hw, <- app_assoc.
    + now rewrite Hm', Hm, max_valid_delta_app.
Qed.

Lemma group_events_inv fuel events cookie_pointers num_cookies base grouped maxd :
  group_events fuel events cookie_pointers num_cookies base = Done (grouped, maxd) ->
  exists chains,
    length chains = Z.to_nat num_cookies /\
    (forall k chain, chains !! k = Some chain ->
       chain <> [] /\ Forall (made_from (Z.of_nat k) events) chain) /\
    grouped = concat (cookie_run base <$> chains) /\
    maxd = max_valid_delta 0 grouped.
Proof.
  unfold group_events. intros H.
  destruct (group_cookies _ _ _ _ _ _ _) as [st| | |] eqn:Hg; try easy.
  simpl in H. destruct (invalid_ratio_exceeded _ _); [easy|].
  injection H as <- <-.
  apply group_cookies_inv in Hg as (chains & Hlen & Hch & Hw & Hm).
  simpl in *. exists chains. rewrite Hw. split; [easy|]. split; [|easy].
  intros k chain Hk. apply Hch in Hk. now rewrite Z.add_0_l in Hk.
Qed.

(** ** Delta decoding and invalid records *)

Lemma ascending_prev buf : forall base m n j ev,
  ascending base (timestamp <$> buf) = true ->
  buf !! j = Some ev ->
  snd (fst (fst (delta_encode base (take j buf) m n))) <= timestamp ev.
Proof.
  induction buf as [|e buf IH]; intros base m n j ev Ha Hj; [easy|].
  simpl in Ha. apply andb_true_iff in Ha as [Hle Ha]. apply Z.leb_le in Hle.
  destruct j as [|j]; simpl in *.
  - injection Hj as <-. easy.
  - assert (Hb : ascending base (timestamp <$> buf) = true).
    { destruct buf as [|e2 buf]; simpl in *; [easy|].
      apply andb_true_iff in Ha as [Hle2 Ha]. apply Z.leb_le in Hle2.
      apply andb_true_iff. split; [apply Z.leb_le; lia | easy]. }
    destruct (_ <? _).
    + specialize (IH (timestamp e)
        (if u32 (timestamp e - base) >? m then u32 (timestamp e - base) else m)
        n j ev Ha Hj).
      now destruct (delta_encode (timestamp e) (take j buf) _ n) as [[[o p] m'] n'].
    + specialize (IH base m (u64 (n + 1)) j ev Hb Hj).
      now destruct (delta_encode base (take j buf) m _) as [[[o p] m'] n'].
Qed.

Lemma reference_lower buf : forall base m n lo,
  lo <= base ->
  Forall (fun r => lo <= timestamp r) buf ->
  lo <= snd (fst (fst (delta_encode base buf m n))).
Proof.
  induction buf as [|e buf IH]; intros base m n lo Hb Hall; [easy|].
  inversion Hall; subst. simpl.
  destruct (_ <? _).
  - specialize (IH (timestamp e)
      (if u32 (timestamp e - base) >? m then u32 (timestamp e - base) else m)
      n lo ltac:(lia) ltac:(assumption)).
    now destruct (delta_encode (timestamp e) buf _ n) as [[[o p] m'] n'].
  - specialize (IH base m (u64 (n + 1)) lo Hb ltac:(assumption)).
    now destruct (delta_encode base buf m _) as [[[o p] m'] n'].
Qed.

(** A record with a tag that is not zero has no timestamp for the
    decoder. *)
Lemma reconstruct_invalid stored : forall reference j t,
  stored !! j = Some t -> Z.land t 255 <> 0 ->
  reconstruct reference stored !! j = Some None.
Proof.
  induction stored as [|t0 stored IH]; intros reference j t Hj Ht; [easy|].
  cbn [reconstruct].
  destruct j as [|j]; simpl in Hj.
  - injection Hj as ->. apply Z.eqb_neq in Ht. now rewrite Ht.
  - destruct (Z.land t0 255 =? 0); simpl; eauto.
Qed.

(** The reference of the loop and the reference of the decoder agree
    at every record. *)
Lemma reference_after_at buf : forall base j,
  0 <= base ->
  Forall (fun ev => timestamp ev < 2 ^ 32) buf ->
  ascending base (timestamp <$> buf) = true ->
  reference_after base
    (take j (timestamp <$> fst (fst (fst (delta_encode base buf 0 0)))))
  = reference_at base buf j.
Proof.
  induction buf as [|ev buf IH]; intros base j Hb Hr Ha.
  - now destruct j.
  - destruct j as [|j]; [reflexivity|].
    simpl in Ha. apply andb_true_iff in Ha as [Hle Ha]. apply Z.leb_le in Hle.
    inversion Hr as [|? ? Hev Hr']; subst.
    assert (Hd : u32 (timestamp ev - base) = timestamp ev - base)
      by (apply u32_small; lia).
    unfold reference_at. cbn [take delta_encode]. rewrite Hd, shift_24.
    destruct (Z.ltb_spec (timestamp ev - base) (2 ^ 24)) as [Hfit|Hfit].
    + pose proof (stored_delta (timestamp ev - base) ltac:(lia)) as [Htag Hup].
      specialize (IH (timestamp ev) j ltac:(lia) Hr' Ha).
      unfold reference_at in IH.
      set (m1 := if timestamp ev - base >? 0 then timestamp ev - base else 0) in *.
      pose proof (delta_encode_counters (timestamp ev) buf m1 0 0 0) as Hc1.
      pose proof (delta_encode_counters (timestamp ev) (take j buf) m1 0 0 0) as Hc2.
      destruct (delta_encode (timestamp ev) buf m1 0) as [[[o1 p1] m1'] n1].
      destruct (delta_encode (timestamp ev) (take j buf) m1 0) as [[[o2 p2] m2] n2].
      destruct (delta_encode (timestamp ev) buf 0 0) as [[[o3 p3] m3] n3].
      destruct (delta_encode (timestamp ev) (take j buf) 0 0) as [[[o4 p4] m4] n4].
      cbn [fst snd] in *. injection Hc1 as -> _. injection Hc2 as _ ->.
      cbn [fmap list_fmap take reference_after set_timestamp timestamp].
      rewrite Htag, Hup. cbn [Z.eqb].
      replace (base + (timestamp ev - base)) with (timestamp ev) by lia.
      exact IH.
    + assert (Ha' : ascending base (timestamp <$> buf) = true).
      { destruct buf as [|ev2 buf]; simpl in *; [easy|].
        apply andb_true_iff in Ha as [Hle2 Ha]. apply Z.leb_le in Hle2.
        apply andb_true_iff. split; [apply Z.leb_le; lia | easy]. }
      specialize (IH base j Hb Hr' Ha').
      unfold reference_at in IH.
      pose proof (delta_encode_counters base buf 0 (u64 (0 + 1)) 0 0) as Hc1.
      pose proof (delta_encode_counters base (take j buf) 0 (u64 (0 + 1)) 0 0) as Hc2.
      destruct (delta_encode base buf 0 (u64 (0 + 1))) as [[[o1 p1] m1] n1].
      destruct (delta_encode base (take j buf) 0 (u64 (0 + 1))) as [[[o2 p2] m2] n2].
      destruct (delta_encode base buf 0 0) as [[[o3 p3] m3] n3].
      destruct (delta_encode base (take j buf) 0 0) as [[[o4 p4] m4] n4].
      cbn [fst snd] in *. injection Hc1 as -> _. injection Hc2 as _ ->.
      cbn [fmap list_fmap take reference_after set_timestamp timestamp].
      exact IH.
Qed.

(** C3. The stream is the one [group_events] has written when its
    loop over the cookies ends, before the test of the invalid ratio, so
    that streams with invalid-tagged records are included; it is the
    stream [group_events] returns when it returns. For every cookie of
    this stream, adding up the stored deltas of the valid-tagged
    records, from the base timestamp on, gives back the timestamps of
    the cookie's events in sorted order; the reference of the loop is the
    reference of the decoder at every record; a valid-tagged record, one
    that lies less than [2^24] seconds after the reference, moves the
    reference to its timestamp; and a record that lies further away is
    stored as 1, has no timestamp for the decoder, and leaves the
    reference where it was. The base timestamp is the minimum found by
    the range scan, as in [tdb_encode]. *)
Theorem delta_decode_roundtrip fuel events cookie_pointers num_cookies lo hi st :
  Forall (fun e => wf_event e = true) events ->
  timestamp_range events (Z.of_nat (length events)) = Done (lo, hi) ->
  group_cookies fuel events cookie_pointers lo (Z.to_nat num_cookies) 0
    (mk_group_state [] 0 0 0) = Done st ->
  (forall grouped maxd,
     group_events fuel events cookie_pointers num_cookies lo = Done (grouped, maxd) ->
     grouped = grouped_w st) /\
  exists chains,
    length chains = Z.to_nat num_cookies /\
    grouped_w st = concat (cookie_run lo <$> chains) /\
    forall i chain, chains !! i = Some chain ->
      Forall (made_from (Z.of_nat i) events) chain /\
      length (cookie_run lo chain) = length chain /\
      (forall j,
         reference_after lo (take j (timestamp <$> cookie_run lo chain))
         = reference_at lo (qsort chain) j) /\
      (forall j r,
         cookie_run lo chain !! j = Some r ->
         Z.land (timestamp r) 255 = 0 ->
         exists orig,
           qsort chain !! j = Some orig /\
           reconstruct lo (timestamp <$> cookie_run lo chain) !! j
             = Some (Some (timestamp orig)) /\
           0 <= timestamp orig - reference_at lo (qsort chain) j < 2 ^ 24 /\
           reference_at lo (qsort chain) (S j) = timestamp orig) /\
      (forall j r,
         cookie_run lo chain !! j = Some r ->
         Z.land (timestamp r) 255 <> 0 ->
         exists orig,
           qsort chain !! j = Some orig /\
           timestamp r = 1 /\
           reconstruct lo (timestamp <$> cookie_run lo chain) !! j = Some None /\
           2 ^ 24 <= timestamp orig - reference_at lo (qsort chain) j /\
           reference_at lo (qsort chain) (S j) = reference_at lo (qsort chain) j) /\
      (forall j orig,
         qsort chain !! j = Some orig ->
         0 <= timestamp orig - reference_at lo (qsort chain) j < 2 ^ 24 ->
         exists r, cookie_run lo chain !! j = Some r /\
                   Z.land (timestamp r) 255 = 0).
Proof.
  intros Hwf Hrange Hgroup. split.
  { intros grouped maxd Hdone. unfold group_events in Hdone.
    rewrite Hgroup in Hdone. cbn [mbind outcome_bind] in Hdone.
    destruct (invalid_ratio_exceeded _ _); [discriminate|].
    now injection Hdone as <- _. }
  apply group_cookies_inv in Hgroup as (chains & Hlen & Hch & Hg & _).
  simpl in Hg.
  exists chains. split; [easy|]. split; [easy|].
  intros i chain Hi. destruct (Hch i chain Hi) as [_ Hmade].
  rewrite Z.add_0_l in Hmade.
  split; [easy|].
  assert (Hts : Forall (fun r => lo <= timestamp r < 2 ^ 32) chain).
  { eapply Forall_impl; [exact Hmade|]. intros r (_ & e & He & Ht & _).
    rewrite Ht. split.
    - now apply (timestamp_range_bounds _ _ _ Hrange).
    - rewrite Forall_forall in Hwf. specialize (Hwf e He).
      unfold wf_event in Hwf. rewrite !andb_true_iff in Hwf.
      destruct Hwf as [[_ Hwf] _]. apply is_u32_spec in Hwf. lia. }
  assert (Hlo : 0 <= lo).
  { apply timestamp_range_loop_spec in Hrange as (_ & _ & _ & [->|(e & He & <-)] & _);
      [unfold UINT32_MAX; lia | | lia].
    rewrite Forall_forall in Hwf. specialize (Hwf e He).
    unfold wf_event in Hwf. rewrite !andb_true_iff in Hwf.
    destruct Hwf as [[_ Hwf] _]. apply is_u32_spec in Hwf. lia. }
  assert (Hsorted : Forall (fun r => lo <= timestamp r < 2 ^ 32) (qsort chain)).
  { now rewrite qsort_perm. }
  assert (Hbelow : Forall (fun r => timestamp r < 2 ^ 32) (qsort chain)).
  { eapply Forall_impl; [exact Hsorted|]. simpl. intros; lia. }
  assert (Hasc : ascending lo (timestamp <$> qsort chain) = true).
  { apply qsort_ascending. eapply Forall_impl; [exact Hts|]. simpl. intros; lia. }
  assert (Hgap : forall j orig, qsort chain !! j = Some orig ->
            u32 (timestamp orig - reference_at lo (qsort chain) j)
            = timestamp orig - reference_at lo (qsort chain) j /\
            0 <= timestamp orig - reference_at lo (qsort chain) j).
  { intros j orig Horig.
    pose proof (ascending_prev (qsort chain) lo 0 0 j orig Hasc Horig) as Hup.
    assert (Hdown : lo <= reference_at lo (qsort chain) j).
    { apply reference_lower; [lia|]. apply Forall_take.
      eapply Forall_impl; [exact Hsorted|]. simpl. intros; lia. }
    fold (reference_at lo (qsort chain) j) in Hup.
    rewrite Forall_forall in Hsorted.
    pose proof (Hsorted orig (list_elem_of_lookup_2 _ _ _ Horig)) as Hr.
    split; [apply u32_small|]; lia. }
  assert (Hrec : forall j r, cookie_run lo chain !! j = Some r ->
            exists orig, qsort chain !! j = Some orig).
  { intros j r Hj. apply lookup_lt_Some in Hj. unfold cookie_run in Hj.
    rewrite delta_encode_length in Hj. now apply lookup_lt_is_Some_2. }
  split; [|split; [|split; [|split]]].
  - unfold cookie_run. rewrite delta_encode_length.
    apply Permutation_length, qsort_perm.
  - intros j. unfold cookie_run. now apply reference_after_at.
  - intros j r Hj Hv. destruct (Hrec j r Hj) as [orig Horig].
    destruct (Hgap j orig Horig) as [Hu Hpos].
    destruct (delta_encode_at lo (qsort chain) 0 0 j orig Horig) as [Hout Hnext].
    cbv zeta in Hout, Hnext. rewrite Hu in Hout, Hnext.
    unfold cookie_run in Hj |- *. rewrite Hout in Hj. injection Hj as <-.
    simpl in Hv.
    destruct (Z.ltb_spec (timestamp orig - reference_at lo (qsort chain) j) (2 ^ 24));
      [|discriminate].
    exists orig. split; [easy|]. split; [|split; [lia | exact Hnext]].
    assert (Hlook : fst (fst (fst (delta_encode lo (qsort chain) 0 0))) !! j
              = Some (set_timestamp orig
                        (u32 (Z.shiftl (timestamp orig - reference_at lo (qsort chain) j)
                                8)))).
    { rewrite Hout.
      now destruct (Z.ltb_spec (timestamp orig - reference_at lo (qsort chain) j)
                      (2 ^ 24)); [|lia]. }
    destruct (delta_encode_reconstruct (qsort chain) lo 0 0 j _ Hlo Hbelow Hasc Hlook)
      as (orig' & Horig' & Hre).
    { simpl. now apply stored_delta. }
    congruence.
  - intros j r Hj Hv. destruct (Hrec j r Hj) as [orig Horig].
    destruct (Hgap j orig Horig) as [Hu Hpos].
    destruct (delta_encode_at lo (qsort chain) 0 0 j orig Horig) as [Hout Hnext].
    cbv zeta in Hout, Hnext. rewrite Hu in Hout, Hnext.
    unfold cookie_run in Hj |- *. rewrite Hout in Hj. injection Hj as <-.
    simpl in Hv |- *.
    destruct (Z.ltb_spec (timestamp orig - reference_at lo (qsort chain) j) (2 ^ 24))
      as [Hfit|Hfar].
    { exfalso. apply Hv. now apply stored_delta. }
    exists orig. split; [easy|]. split; [reflexivity|].
    split; [|split; [lia | exact Hnext]].
    apply (reconstruct_invalid _ lo j 1); [|discriminate].
    now rewrite list_lookup_fmap, Hout.
  - intros j orig Hj Hd. unfold cookie_run.
    destruct (delta_encode_at lo (qsort chain) 0 0 j orig Hj) as [Hout _].
    rewrite Hout. eexists. split; [reflexivity|]. simpl.
    rewrite u32_small by lia.
    destruct (Z.ltb_spec (timestamp orig - reference_at lo (qsort chain) j) (2 ^ 24));
      [|lia].
    now apply stored_delta.
Qed.

Lemma delta_decode_roundtrip_witness :
  (forall grouped maxd,
     group_events 4 late_events [2; 3] 2 100 = Done (grouped, maxd) ->
     grouped = grouped_w late_state) /\
  exists chains,
    length chains = Z.to_nat 2 /\
    grouped_w late_state = concat (cookie_run 100 <$> chains) /\
    forall i chain, chains !! i = Some chain ->
      Forall (made_from (Z.of_nat i) late_events) chain /\
      length (cookie_run 100 chain) = length chain /\
      (forall j,
         reference_after 100 (take j (timestamp <$> cookie_run 100 chain))
         = reference_at 100 (qsort chain) j) /\
      (forall j r,
         cookie_run 100 chain !! j = Some r ->
         Z.land (timestamp r) 255 = 0 ->
         exists orig,
           qsort chain !! j = Some orig /\
           reconstruct 100 (timestamp <$> cookie_run 100 chain) !! j
             = Some (Some (timestamp orig)) /\
           0 <= timestamp orig - reference_at 100 (qsort chain) j < 2 ^ 24 /\
           reference_at 100 (qsort chain) (S j) = timestamp orig) /\
      (forall j r,
         cookie_run 100 chain !! j = Some r ->
         Z.land (timestamp r) 255 <> 0 ->
         exists orig,
           qsort chain !! j = Some orig /\
           timestamp r = 1 /\
           reconstruct 100 (timestamp <$> cookie_run 100 chain) !! j = Some None /\
           2 ^ 24 <= timestamp orig - reference_at 100 (qsort chain) j /\
           reference_at 100 (qsort chain) (S j) = reference_at 100 (qsort chain) j) /\
      (forall j orig,
         qsort chain !! j = Some orig ->
         0 <= timestamp orig - reference_at 100 (qsort chain) j < 2 ^ 24 ->
         exists r, cookie_run 100 chain !! j = Some r /\
                   Z.land (timestamp r) 255 = 0).
Proof.
  apply (delta_decode_roundtrip 4 late_events [2; 3] 2 100 16777321 late_state).
  - repeat constructor.
  - reflexivity.
  - reflexivity.
Defined.

(** In the stream of the worked input the second and the third record
    of cookie 0 are both invalid-tagged, the third being measured from
    the first and not from the second; the decoder reads the timestamps
    100 and 200 with none for the two records in between; and
    [group_events] aborts on this stream. *)
Example late_stream :
  timestamp <$> grouped_w late_state = [0; 1; 1; 25600] /\
  reconstruct 100 [0; 1; 1] ++ reconstruct 100 [25600]
  = [Some 100; None; None; Some 200] /\
  group_events 4 late_events [2; 3] 2 100 = Abort (TooManyInvalid 100).
Proof. repeat split; vm_compute; reflexivity. Qed.

(** C4. A record whose delta from the reference does not fit in 24 bits
    is stored with the timestamp 1, whose low eight bits are not zero;
    the reference stays as it was for the next record; and
    [edge_encode_items] returns no item for the stored record and leaves
    [encoded_size] and [prev_items] as they were. *)
Theorem invalid_record_sentinel (tdb_item_field : Z -> Z) base buf m n j ev :
  buf !! j = Some ev ->
  2 ^ 24 <= u32 (timestamp ev - reference_at base buf j) ->
  exists stored,
    fst (fst (fst (delta_encode base buf m n))) !! j = Some stored /\
    timestamp stored = 1 /\
    Z.land (timestamp stored) 255 <> 0 /\
    reference_at base buf (S j) = reference_at base buf j /\
    forall items encoded_size prev_items,
      edge_encode_items tdb_item_field items encoded_size prev_items stored
      = Done (0, [], encoded_size, prev_items).
Proof.
  intros Hj Hd.
  destruct (delta_encode_at base buf m n j ev Hj) as [Hout Href].
  destruct (Z.ltb_spec (u32 (timestamp ev - reference_at base buf j)) (2 ^ 24));
    [lia|].
  exists (set_timestamp ev 1). repeat split; try easy.
Qed.

Lemma invalid_record_sentinel_witness :
  exists stored,
    fst (fst (fst (delta_encode 50 far_buf 0 0))) !! 1%nat = Some stored /\
    timestamp stored = 1 /\
    Z.land (timestamp stored) 255 <> 0 /\
    reference_at 50 far_buf 2 = reference_at 50 far_buf 1 /\
    forall items encoded_size prev_items,
      edge_encode_items item_low_byte items encoded_size prev_items stored
      = Done (0, [], encoded_size, prev_items).
Proof.
  apply (invalid_record_sentinel item_low_byte 50 far_buf 0 0 1
           (mk_cookie_event 0 1 1 16777266)).
  - reflexivity.
  - vm_compute. discriminate.
Defined.

(** ** Edge encoding *)

Section EdgeEncoding.

Variable field : Z -> Z.

Lemma last_seen_snoc table seen item f :
  last_seen field table (seen ++ [item]) f
  = if field item =? f then Some item else last_seen field table seen f.
Proof.
  unfold last_seen. rewrite rev_app_distr. simpl.
  now destruct (field item =? f).
Qed.

Lemma index_insert {A} (l : list A) (f g : Z) (x : A) :
  0 <= f < Z.of_nat (length l) -> 0 <= g ->
  index (<[Z.to_nat f := x]> l) g = if f =? g then Some x else index l g.
Proof.
  intros Hf Hg. unfold index.
  destruct (Z.ltb_spec g 0); [lia|].
  destruct (Z.eqb_spec f g) as [->|Hne].
  - apply list_lookup_insert_eq. lia.
  - apply list_lookup_insert_ne. lia.
Qed.

Lemma edge_encode_loop_spec items table0 : forall count j n encoded encoded_size
    prev_items seen,
  0 <= j ->
  (Z.to_nat j + count <= length items)%nat ->
  fields_in_table field table0 (take count (drop (Z.to_nat j) items)) = true ->
  tracks field table0 seen prev_items ->
  n = Z.of_nat (length encoded) ->
  n <= encoded_size < 2 ^ 30 ->
  n + Z.of_nat count + EDGE_INCREMENT < 2 ^ 30 ->
  exists encoded_size' prev_items',
    let kept := edge_subset field table0 seen (take count (drop (Z.to_nat j) items)) in
    edge_encode_loop field count items j n encoded encoded_size prev_items
    = Done (n + Z.of_nat (length kept), encoded ++ kept, encoded_size', prev_items') /\
    tracks field table0 (seen ++ take count (drop (Z.to_nat j) items)) prev_items' /\
    n + Z.of_nat (length kept) <= encoded_size' < 2 ^ 30.
Proof.
  unfold EDGE_INCREMENT.
  induction count as [|count IH];
    intros j n encoded encoded_size prev_items seen Hj Hlen Hfields Htr Hn Hsz Hcap.
  - simpl. exists encoded_size, prev_items.
    rewrite !app_nil_r, Z.add_0_r. repeat split; try apply Htr; lia.
  - destruct (lookup_lt_is_Some_2 items (Z.to_nat j)) as [item Hitem]; [lia|].
    assert (Hdrop : drop (Z.to_nat j) items = item :: drop (Z.to_nat (j + 1)) items).
    { replace (Z.to_nat (j + 1)) with (S (Z.to_nat j)) by lia.
      now apply drop_S. }
    rewrite Hdrop in *. rewrite firstn_cons in *.
    simpl in Hfields. rewrite !andb_true_iff in Hfields.
    destruct Hfields as [[Hf0 Hf1] Hfields].
    apply Z.leb_le in Hf0. apply Z.ltb_lt in Hf1.
    destruct Htr as [Htl Htr].
    cbn [edge_encode_loop].
    assert (Hidx : index items j = Some item) by (apply index_Some; easy).
    rewrite Hidx. cbn [of_option mbind outcome_bind].
    destruct (lookup_lt_is_Some_2 prev_items (Z.to_nat (field item))) as [prev Hprev];
      [lia|].
    assert (Hpidx : index prev_items (field item) = Some prev)
      by (apply index_Some; easy).
    rewrite Hpidx. cbn [of_option mbind outcome_bind].
    cbn [edge_subset]. rewrite <- (Htr _ Hf0), Hpidx.
    destruct (Z.eqb_spec prev item) as [->|Hne]; cbn [negb].
    + (* the item is the one last seen: not kept *)
      destruct (IH (j + 1) n encoded encoded_size prev_items (seen ++ [item]))
        as (es' & pi' & Heq & Htr' & Hb); try lia; auto.
      { split; [easy|]. intros f Hf. rewrite last_seen_snoc, <- Htr by easy.
        destruct (Z.eqb_spec (field item) f) as [<-|]; easy. }
      exists es', pi'. rewrite <- app_assoc in Htr'. simpl in *. easy.
    + (* a new value: kept, and the table updated *)
      set (es1 := if n =? encoded_size then u32 (encoded_size + 1000000)
                  else encoded_size).
      assert (Hes1 : n < es1 < 2 ^ 30).
      { unfold es1. destruct (Z.eqb_spec n encoded_size).
        - rewrite u32_small by lia. lia.
        - lia. }
      unfold EDGE_INCREMENT. fold es1.
      rewrite (u32_small (es1 * 4)) by lia.
      rewrite Z.div_mul by lia.
      destruct (Z.ltb_spec n es1); [|lia].
      rewrite (u32_small (n + 1)) by lia.
      destruct (IH (j + 1) (n + 1) (encoded ++ [item]) es1
                  (<[Z.to_nat (field item) := item]> prev_items) (seen ++ [item]))
        as (es' & pi' & Heq & Htr' & Hb); try lia; auto.
      { split; [now rewrite length_insert|]. intros f Hf.
        rewrite last_seen_snoc, <- Htr by easy.
        apply index_insert; lia. }
      { rewrite length_app. simpl. lia. }
      exists es', pi'. rewrite <- !app_assoc in *. simpl in *.
      rewrite Heq. split; [|split; [easy | lia]].
      do 2 f_equal. f_equal. f_equal. lia.
Qed.

End EdgeEncoding.

Section EdgeEncodingClaims.

Variable field : Z -> Z.

Lemma edge_subset_distinct table : forall rest seen,
  NoDup (field <$> rest) ->
  (forall item, item ∈ rest ->
     last_seen field table seen (field item) = index table (field item)) ->
  edge_subset field table seen rest
  = filter (fun item => index table (field item) <> Some item) rest.
Proof.
  induction rest as [|item rest IH]; intros seen Hnd Hseen; [easy|].
  simpl in Hnd. apply NoDup_cons in Hnd as [Hnotin Hnd].
  assert (Htail : edge_subset field table (seen ++ [item]) rest
                  = filter (fun item => index table (field item) <> Some item) rest).
  { apply IH; [easy|]. intros x Hx. rewrite last_seen_snoc.
    destruct (Z.eqb_spec (field item) (field x)) as [Heq|_].
    - exfalso. apply Hnotin. rewrite Heq. now apply list_elem_of_fmap_2.
    - apply Hseen. now right. }
  cbn [edge_subset]. rewrite Htail, (Hseen item) by now left.
  rewrite filter_cons.
  destruct (index table (field item)) as [v|] eqn:Hv.
  - destruct (Z.eqb_spec v item) as [->|Hne].
    + now rewrite decide_False by (intros H; now apply H).
    + rewrite decide_True; [easy|]. intros [=]. easy.
  - now rewrite decide_True.
Qed.

Lemma last_seen_member table : forall l item,
  NoDup (field <$> l) -> item ∈ l ->
  last_seen field table l (field item) = Some item.
Proof.
  induction l as [|x l IH] using rev_ind; intros item Hnd Hin.
  - now apply elem_of_nil in Hin.
  - rewrite last_seen_snoc. rewrite fmap_app in Hnd. simpl in Hnd.
    apply NoDup_app in Hnd as (Hnd & Hdisj & _).
    apply elem_of_app in Hin as [Hin|Hin].
    + destruct (Z.eqb_spec (field x) (field item)) as [Heq|_].
      * exfalso. apply (Hdisj (field item)).
        -- now apply list_elem_of_fmap_2.
        -- rewrite Heq. now left.
      * now apply IH.
    + apply list_elem_of_singleton in Hin as ->. now rewrite Z.eqb_refl.
Qed.

Lemma last_seen_other table l f :
  f ∉ field <$> l -> last_seen field table l f = index table f.
Proof.
  induction l as [|x l IH] using rev_ind; intros Hf; [easy|].
  rewrite last_seen_snoc. rewrite fmap_app, not_elem_of_app in Hf.
  destruct Hf as [Hf Hx].
  destruct (Z.eqb_spec (field x) f) as [<-|_].
  - exfalso. apply Hx. now left.
  - now apply IH.
Qed.

(** C6. For a valid event, [edge_encode_items] returns, in the order of
    the item array, the items of the event that differ from the value
    last seen for their field, and leaves in the table, for every field,
    the value last seen. When the items of the event have distinct
    fields, the items returned are those that differ from their entry
    of the table as the event found it, every item of the event is the
    entry of its field afterwards, and the other entries are unchanged. *)
Theorem edge_encode_changed_items items encoded_size prev_items ev :
  Z.land (timestamp ev) 255 = 0 ->
  0 <= item_zero ev -> 0 <= num_items ev ->
  item_zero ev + num_items ev <= Z.of_nat (length items) ->
  item_zero ev + num_items ev < 2 ^ 64 ->
  fields_in_table field prev_items (event_items items ev) = true ->
  0 <= encoded_size < 2 ^ 30 ->
  num_items ev + EDGE_INCREMENT < 2 ^ 30 ->
  exists encoded_size' prev_items',
    let kept := edge_subset field prev_items [] (event_items items ev) in
    edge_encode_items field items encoded_size prev_items ev
    = Done (Z.of_nat (length kept), kept, encoded_size', prev_items') /\
    length prev_items' = length prev_items /\
    (forall f, 0 <= f ->
       index prev_items' f = last_seen field prev_items (event_items items ev) f) /\
    (NoDup (field <$> event_items items ev) ->
       kept = filter (fun item => index prev_items (field item) <> Some item)
                     (event_items items ev) /\
       (forall item, item ∈ event_items items ev ->
          index prev_items' (field item) = Some item) /\
       (forall f, 0 <= f -> f ∉ field <$> event_items items ev ->
          index prev_items' f = index prev_items f)).
Proof.
  intros Hvalid Hz Hn Hrange Hwrap Hfields Hsize Hcap.
  unfold edge_encode_items. rewrite Hvalid. cbn [Z.eqb].
  rewrite (u64_small (item_zero ev + num_items ev)) by lia.
  replace (Z.to_nat (item_zero ev + num_items ev - item_zero ev))
    with (Z.to_nat (num_items ev)) by lia.
  destruct (edge_encode_loop_spec field items prev_items (Z.to_nat (num_items ev))
              (item_zero ev) 0 [] encoded_size prev_items [])
    as (es' & pi' & Heq & [Hlen Htr] & _); try lia; auto.
  { split; [easy|]. intros f Hf. reflexivity. }
  fold (event_items items ev) in *. simpl in Heq, Htr.
  exists es', pi'. cbv zeta. split; [exact Heq|]. split; [exact Hlen|].
  split; [exact Htr|]. intros Hnd. split; [|split].
  - apply edge_subset_distinct; [easy|]. intros item _. reflexivity.
  - intros item Hin.
    assert (Hf : 0 <= field item).
    { unfold fields_in_table in Hfields. rewrite forallb_forall in Hfields.
      apply list_elem_of_In, Hfields in Hin. apply andb_true_iff in Hin as [Hin _].
      now apply Z.leb_le. }
    rewrite Htr by easy. now apply last_seen_member.
  - intros f Hf Hnot. rewrite Htr by easy. now apply last_seen_other.
Qed.

End EdgeEncodingClaims.

Lemma edge_encode_changed_items_witness :
  exists encoded_size' prev_items',
    edge_encode_items item_low_byte sc_items 0 [0; item_A 1]
      (mk_cookie_event 0 2 1 102400)
    = Done (1, [item_A 2], encoded_size', prev_items') /\
    index prev_items' 1 = Some (item_A 2).
Proof.
  destruct (edge_encode_changed_items item_low_byte sc_items 0 [0; item_A 1]
              (mk_cookie_event 0 2 1 102400))
    as (es' & pi' & Heq & _ & Htr & _);
    [reflexivity | simpl; lia | simpl; lia | simpl; lia | simpl; lia
    | reflexivity | lia | unfold EDGE_INCREMENT; simpl; lia |].
  exists es', pi'. split; [exact Heq | exact (Htr 1 ltac:(lia))].
Defined.

(** ** The info file *)

Lemma parse_print x : 0 <= x -> parse_unsigned (print_unsigned x) = Some x.
Proof.
  intros Hx. unfold parse_unsigned, print_unsigned.
  rewrite NilZero.usu.
  - simpl. now rewrite DecimalN.Unsigned.of_to, Z2N.id.
  - destruct (Z.to_N x); [easy | apply DecimalPos.Unsigned.to_uint_nonnil].
Qed.

Lemma string_of_uint_no_separator d :
  no_separator (NilEmpty.string_of_uint d) = true.
Proof. induction d; simpl; auto. Qed.

Lemma print_no_separator x : no_separator (print_unsigned x) = true.
Proof.
  unfold print_unsigned, NilZero.string_of_uint.
  destruct (N.to_uint (Z.to_N x)) eqn:E; try reflexivity;
    rewrite <- E; apply string_of_uint_no_separator.
Qed.

Lemma line_fields_token t : forall rest cur,
  no_separator t = true ->
  line_fields (t ++ rest) cur = line_fields rest (cur ++ t).
Proof.
  induction t as [|c t IH]; intros rest cur Ht; simpl in *.
  - f_equal. clear. induction cur; simpl; congruence.
  - rewrite !andb_true_iff, !negb_true_iff in Ht. destruct Ht as [[-> ->] Ht].
    rewrite IH by easy. f_equal. clear.
    induction cur; simpl; congruence.
Qed.

Lemma line_fields_space t rest cur :
  no_separator t = true ->
  line_fields (t ++ " " ++ rest) cur
  = cons (cur ++ t)%string <$> line_fields rest EmptyString.
Proof. intros Ht. now rewrite line_fields_token. Qed.

Lemma line_fields_end t cur :
  no_separator t = true ->
  line_fields (t ++ newline) cur = Some [(cur ++ t)%string].
Proof. intros Ht. now rewrite line_fields_token. Qed.

Lemma read_info_store_info ne nc lo hi md :
  read_info (store_info ne nc lo hi md)
  = Some [u64 nc; u64 ne; u32 lo; u32 hi; u32 md].
Proof.
  unfold read_info, store_info.
  rewrite !line_fields_space, line_fields_end by apply print_no_separator.
  cbn [fmap option_fmap option_map mbind option_bind String.append].
  cbn [mapM mbind option_bind mret option_ret fmap option_fmap option_map].
  rewrite !parse_print by (apply u64_range || apply u32_range).
  reflexivity.
Qed.

Lemma delta_encode_stored_range p l : forall m n,
  Forall (fun r => 0 <= timestamp r < 2 ^ 32)
         (fst (fst (fst (delta_encode p l m n)))).
Proof.
  revert p. induction l as [|ev l IH]; intros p m n; simpl; [constructor|].
  destruct (_ <? _).
  - specialize (IH (timestamp ev)
      (if u32 (timestamp ev - p) >? m then u32 (timestamp ev - p) else m) n).
    destruct (delta_encode (timestamp ev) l _ n) as [[[? ?] ?] ?].
    constructor; [apply u32_range | easy].
  - specialize (IH p m (u64 (n + 1))).
    destruct (delta_encode p l m _) as [[[? ?] ?] ?].
    constructor; [simpl; lia | easy].
Qed.

Lemma max_valid_delta_range l : forall m,
  0 <= m < 2 ^ 24 ->
  Forall (fun r => 0 <= timestamp r < 2 ^ 32) l ->
  0 <= max_valid_delta m l < 2 ^ 24.
Proof.
  unfold max_valid_delta.
  induction l as [|r l IH]; intros m Hm Hall; simpl; [easy|].
  inversion Hall as [|? ? Hr Hl]; subst.
  apply IH; [|easy].
  destruct (_ =? _); [|easy].
  assert (0 <= Z.shiftr (timestamp r) 8 < 2 ^ 24).
  { rewrite Z.shiftr_div_pow2 by lia. split.
    - apply Z.div_pos; lia.
    - apply Z.div_lt_upper_bound; lia. }
  lia.
Qed.

Section InfoFile.

Variable tdb_item_field : Z -> Z.
Context {gram gram_bufs codemap_t unigram_freqs_t gram_freqs_t
         field_stats_t codebook_t : Type}.
Variable init_gram_bufs : Z -> gram_bufs.
Variable choose_grams :
  list Z -> gram_freqs_t -> gram_bufs -> tdb_cookie_event -> list gram * gram_bufs.
Variable huff_encode_grams :
  codemap_t -> list gram -> Z -> Z -> field_stats_t -> outcome (Z * Z).
Variable write_bits : Z -> Z -> Z -> Z.
Variable collect_unigrams :
  list tdb_cookie_event -> Z -> list Z -> Z -> unigram_freqs_t.
Variable make_grams :
  list tdb_cookie_event -> Z -> list Z -> Z -> unigram_freqs_t -> gram_freqs_t.
Variable huff_create_codemap : gram_freqs_t -> codemap_t.
Variable huff_field_stats : list Z -> Z -> Z -> field_stats_t.
Variable huff_create_codebook : codemap_t -> codebook_t.

(** C8. When [tdb_encode] writes the info file, its text is one line
    of five unsigned decimal numbers separated by single spaces: the
    number of cookies, the number of events, the least and the greatest
    timestamp of the events as the range scan found them, and the
    greatest delta among the valid-tagged records of the grouped
    stream. The first two are below [2^64], the others below [2^32]. *)
Theorem info_file_contents fuel cookie_pointers num_cookies events items
    num_fields field_cardinalities files r line :
  Forall (fun e => wf_event e = true) events ->
  is_u64 num_cookies = true ->
  Z.of_nat (length events) < 2 ^ 64 ->
  tdb_encode tdb_item_field init_gram_bufs choose_grams huff_encode_grams
    write_bits collect_unigrams make_grams huff_create_codemap
    huff_field_stats huff_create_codebook fuel cookie_pointers num_cookies
    events (Z.of_nat (length events)) items num_fields field_cardinalities
  = (files, r) ->
  info files = Some line ->
  exists lo hi grouped maxd,
    timestamp_range events (Z.of_nat (length events)) = Done (lo, hi) /\
    group_events fuel events cookie_pointers num_cookies lo = Done (grouped, maxd) /\
    (forall e, e ∈ events -> lo <= ev_timestamp e <= hi) /\
    (events <> [] -> (exists e, e ∈ events /\ ev_timestamp e = lo) /\
                     (exists e, e ∈ events /\ ev_timestamp e = hi)) /\
    maxd = max_valid_delta 0 grouped /\
    line = (print_unsigned num_cookies ++ " " ++
            print_unsigned (Z.of_nat (length events)) ++ " " ++
            print_unsigned lo ++ " " ++ print_unsigned hi ++ " " ++
            print_unsigned maxd ++ newline)%string /\
    read_info line = Some [num_cookies; Z.of_nat (length events); lo; hi; maxd] /\
    is_u32 lo = true /\ is_u32 hi = true /\ is_u32 maxd = true.
Proof.
  intros Hwf Hnc Hne Henc Hinfo. unfold tdb_encode in Henc.
  destruct (timestamp_range events _) as [[lo hi]| | |] eqn:Hrange;
    try (injection Henc as <- _; discriminate).
  destruct (group_events fuel events cookie_pointers num_cookies lo)
    as [[grouped maxd]| | |] eqn:Hgroup;
    try (injection Henc as <- _; discriminate).
  assert (Hline : line = store_info (Z.of_nat (length events)) num_cookies lo hi maxd).
  { destruct (encode_trails _ _ _ _ _ _ _ _ _ _ _ _ _ _) as [out [[]| | |]];
      injection Henc as <- _; simpl in Hinfo; congruence. }
  clear Henc Hinfo.
  pose proof (timestamp_range_bounds _ _ _ Hrange) as Hbounds.
  assert (Hts : forall e, e ∈ events -> 0 <= ev_timestamp e < 2 ^ 32).
  { intros e He. rewrite Forall_forall in Hwf. specialize (Hwf e He).
    unfold wf_event in Hwf. rewrite !andb_true_iff in Hwf.
    destruct Hwf as [[_ Hwf] _]. now apply is_u32_spec in Hwf. }
  pose proof Hrange as Hspec.
  apply timestamp_range_loop_spec in Hspec as (_ & _ & _ & Hmin & Hmax); [|lia].
  assert (Hlo : 0 <= lo < 2 ^ 32).
  { destruct Hmin as [->|(e & He & <-)]; [unfold UINT32_MAX; lia | auto]. }
  assert (Hhi : 0 <= hi < 2 ^ 32).
  { destruct Hmax as [->|(e & He & <-)]; [lia | auto]. }
  pose proof (group_events_inv _ _ _ _ _ _ _ Hgroup) as (chains & _ & _ & Hg & Hm).
  assert (Hmd : 0 <= maxd < 2 ^ 24).
  { rewrite Hm. apply max_valid_delta_range; [lia|]. rewrite Hg.
    apply Forall_concat, Forall_fmap, Forall_forall. intros chain _.
    apply delta_encode_stored_range. }
  apply is_u64_spec in Hnc.
  exists lo, hi, grouped, maxd.
  split; [easy|]. split; [easy|]. split; [easy|]. split.
  { intros Hne'. destruct events as [|e0 events']; [easy|].
    assert (He0 : e0 ∈ e0 :: events') by now left.
    split.
    - destruct Hmin as [->|Hmin]; [|easy]. exists e0. split; [easy|].
      specialize (Hbounds e0 He0). specialize (Hts e0 He0).
      unfold UINT32_MAX in *. lia.
    - destruct Hmax as [->|Hmax]; [|easy]. exists e0. split; [easy|].
      specialize (Hbounds e0 He0). specialize (Hts e0 He0). lia. }
  split; [easy|].
  assert (Hstore : store_info (Z.of_nat (length events)) num_cookies lo hi maxd
     = (print_unsigned num_cookies ++ " " ++
        print_unsigned (Z.of_nat (length events)) ++ " " ++
        print_unsigned lo ++ " " ++ print_unsigned hi ++ " " ++
        print_unsigned maxd ++ newline)%string).
  { unfold store_info.
    now rewrite !u64_small, !u32_small by lia. }
  split; [now rewrite Hline|]. split.
  - rewrite Hline, read_info_store_info.
    now rewrite !u64_small, !u32_small by lia.
  - rewrite !is_u32_spec. lia.
Qed.

End InfoFile.

Lemma info_file_contents_witness :
  exists lo hi grouped maxd,
    timestamp_range sc_events 5 = Done (lo, hi) /\
    group_events 10 sc_events sc_cookie_pointers 3 lo = Done (grouped, maxd) /\
    read_info (store_info 5 3 100 500 400) = Some [3; 5; lo; hi; maxd].
Proof.
  destruct (info_file_contents item_low_byte (fun _ => tt) grams_as_items
              huff_bytes write_bits_or (fun _ _ _ _ => tt) (fun _ _ _ _ _ => tt)
              (fun _ => tt) (fun _ _ _ => tt) (fun _ => tt)
              10%nat sc_cookie_pointers 3 sc_events sc_items 2 []
              (fst (example_encode 10 sc_cookie_pointers sc_events sc_items 2))
              (Done tt) (store_info 5 3 100 500 400))
    as (lo & hi & grouped & maxd & H1 & H2 & _ & _ & _ & _ & H3 & _).
  - repeat constructor.
  - reflexivity.
  - reflexivity.
  - reflexivity.
  - reflexivity.
  - exists lo, hi, grouped, maxd. auto.
Defined.

(** ** The loops of [encode_trails] on a stream of runs *)

Section TrailEncoder.

Variable tdb_item_field : Z -> Z.
Context {gram gram_bufs codemap_t gram_freqs_t field_stats_t : Type}.
Variable init_gram_bufs : Z -> gram_bufs.
Variable choose_grams :
  list Z -> gram_freqs_t -> gram_bufs -> tdb_cookie_event -> list gram * gram_bufs.
Variable huff_encode_grams :
  codemap_t -> list gram -> Z -> Z -> field_stats_t -> outcome (Z * Z).
Variable write_bits : Z -> Z -> Z -> Z.
Variable items : list Z.
Variable grouped : list tdb_cookie_event.
Variable num_cookies : Z.
Variable num_fields : Z.
Variable codemap : codemap_t.
Variable gram_freqs : gram_freqs_t.
Variable fstats : field_stats_t.

Local Abbreviation num_events := (Z.of_nat (length grouped)).
Local Abbreviation enc_event :=
  (encode_event tdb_item_field choose_grams huff_encode_grams
     items codemap gram_freqs fstats).
Local Abbreviation enc_run :=
  (encode_run tdb_item_field choose_grams huff_encode_grams
     items codemap gram_freqs fstats).
Local Abbreviation enc_cookie_events :=
  (encode_cookie_events tdb_item_field choose_grams huff_encode_grams
     items grouped num_events codemap gram_freqs fstats).
Local Abbreviation enc_runs :=
  (encode_runs tdb_item_field choose_grams huff_encode_grams
     write_bits items num_fields codemap gram_freqs fstats).
Local Abbreviation enc_cookies :=
  (encode_cookies tdb_item_field choose_grams huff_encode_grams write_bits
     items grouped num_events num_fields codemap gram_freqs fstats).
Local Abbreviation enc_trails :=
  (encode_trails tdb_item_field init_gram_bufs choose_grams huff_encode_grams
     write_bits items grouped num_events num_cookies num_fields codemap
     gram_freqs fstats).
Local Abbreviation start := (start_trail num_fields).
Local Abbreviation append := (append_trail write_bits).

Lemma current_fread i ev : current grouped (S i) (fread grouped (Z.of_nat i + 1) ev).
Proof.
  intros Hi. unfold fread.
  replace (Z.of_nat i + 1) with (Z.of_nat (S i)) by lia.
  rewrite index_nat.
  destruct (lookup_lt_is_Some_2 grouped (S i) Hi) as [r Hr].
  now rewrite Hr.
Qed.

Lemma current_next_ev n : forall i ev,
  current grouped i ev -> current grouped (i + n) (next_ev grouped i n ev).
Proof.
  induction n as [|n IH]; intros i ev Hcur; simpl.
  - now rewrite Nat.add_0_r.
  - rewrite <- Nat.add_succ_comm. apply IH, current_fread.
Qed.

(** The inner loop on the records [run] of cookie [cookie] that start
    at position [i], followed by a record of another cookie or by the
    end of the stream. *)
Lemma encode_cookie_events_run cookie : forall run fuel i ev st,
  current grouped i ev ->
  (forall k r, run !! k = Some r ->
     grouped !! (i + k)%nat = Some r /\ cookie_id r = cookie) ->
  (forall r, grouped !! (i + length run)%nat = Some r -> cookie_id r <> cookie) ->
  (length run <= fuel)%nat ->
  enc_cookie_events fuel cookie (Z.of_nat i) ev st
  = (st' ← enc_run st run;
     Done (Z.of_nat (i + length run), next_ev grouped i (length run) ev, st')).
Proof.
  induction run as [|r run IH]; intros fuel i ev st Hcur Hrun Hstop Hfuel.
  - simpl in *. rewrite Nat.add_0_r in *.
    assert (Hcond : (Z.of_nat i <? num_events) && (cookie_id ev =? cookie) = false).
    { destruct (Z.ltb_spec (Z.of_nat i) num_events) as [Hlt|]; [|easy].
      specialize (Hcur ltac:(lia)). apply Hstop in Hcur.
      simpl. now apply Z.eqb_neq. }
    destruct fuel; simpl; now rewrite Hcond.
  - destruct (Hrun 0%nat r eq_refl) as [Hr Hc]. rewrite Nat.add_0_r in Hr.
    assert (Hlt : (i < length grouped)%nat) by (eapply lookup_lt_Some; eauto).
    pose proof (Hcur Hlt) as Hev. rewrite Hr in Hev. injection Hev as <-.
    destruct fuel as [|fuel]; [simpl in Hfuel; lia|].
    simpl.
    assert (Hcond : (Z.of_nat i <? num_events) && (cookie_id r =? cookie) = true).
    { apply andb_true_iff. split; [apply Z.ltb_lt; lia | now apply Z.eqb_eq]. }
    rewrite Hcond.
    destruct (enc_event st r) as [st1| | |]; simpl; try easy.
    replace (Z.of_nat i + 1) with (Z.of_nat (S i)) by lia.
    rewrite (IH fuel (S i)).
    + rewrite <- Nat.add_succ_comm.
      now replace (Z.of_nat (S i)) with (Z.of_nat i + 1) by lia.
    + replace (Z.of_nat (S i)) with (Z.of_nat i + 1) by lia. apply current_fread.
    + intros k r' Hk. specialize (Hrun (S k) r' Hk).
      now rewrite <- Nat.add_succ_comm in Hrun.
    + intros r' Hr'. apply Hstop. simpl. now rewrite <- Nat.add_succ_comm.
    + simpl in Hfuel. lia.
Qed.

Lemma well_grouped_head c runs r :
  well_grouped c runs = true ->
  concat runs !! 0%nat = Some r -> cookie_id r = c.
Proof.
  destruct runs as [|run rest]; [easy|]. simpl.
  rewrite !andb_true_iff. intros [[Hne Hall] _] Hr.
  destruct run as [|r0 run]; [easy|]. simpl in *.
  injection Hr as <-. apply andb_true_iff in Hall as [Hc _].
  now apply Z.eqb_eq.
Qed.

(** The outer loop at position [i] of a stream that goes on with the
    runs [runs]. *)
Lemma encode_cookies_runs : forall runs fuel out file_offs i ev st c,
  current grouped i ev ->
  drop i grouped = concat runs ->
  well_grouped c runs = true ->
  (length (concat runs) <= fuel)%nat ->
  enc_cookies fuel out file_offs (Z.of_nat i) ev st
  = enc_runs out file_offs st runs.
Proof.
  induction runs as [|run rest IH];
    intros fuel out file_offs i ev st c Hcur Hdrop Hwg Hfuel.
  - simpl in *.
    assert (Hi : (length grouped <= i)%nat).
    { apply (f_equal length) in Hdrop. rewrite length_drop in Hdrop.
      simpl in Hdrop. lia. }
    assert (E : (Z.of_nat i <? num_events) = false) by (apply Z.ltb_ge; lia).
    destruct fuel; simpl; now rewrite E.
  - simpl in Hwg. rewrite !andb_true_iff in Hwg. destruct Hwg as [[Hne Hall] Hwg].
    destruct run as [|r run]; [easy|]. clear Hne.
    change (concat ((r :: run) :: rest)) with ((r :: run) ++ concat rest) in *.
    assert (Hlook : forall k, grouped !! (i + k)%nat = ((r :: run) ++ concat rest) !! k).
    { intros k. now rewrite <- Hdrop, lookup_drop. }
    assert (Hr : grouped !! i = Some r).
    { specialize (Hlook 0%nat). now rewrite Nat.add_0_r in Hlook. }
    assert (Hlt : (i < length grouped)%nat) by (eapply lookup_lt_Some; eauto).
    pose proof (Hcur Hlt) as Hev. rewrite Hr in Hev. injection Hev as <-.
    rewrite forallb_forall in Hall.
    destruct fuel as [|fuel]; [simpl in Hfuel; lia|].
    cbn [encode_cookies encode_runs head fmap option_fmap option_map default].
    destruct (Z.ltb_spec (Z.of_nat i) num_events) as [_|]; [|lia].
    rewrite (encode_cookie_events_run (cookie_id r) (r :: run) (S fuel) i r).
    + assert (Hc : cookie_id r = c).
      { apply Z.eqb_eq, Hall. now left. }
      destruct (enc_run (start st) (r :: run)) as [st1| | |]; try easy.
      cbn [mbind outcome_bind].
      destruct (append _ file_offs st1) as [out1 [[file_offs1 st2]| | |]]; try easy.
      apply (IH fuel _ _ _ _ _ (c + 1)).
      * now apply current_next_ev.
      * rewrite <- (drop_drop grouped), Hdrop.
        now rewrite drop_app_length.
      * easy.
      * simpl in Hfuel. rewrite length_app in Hfuel. lia.
    + easy.
    + intros k r' Hk. split.
      * rewrite Hlook. now apply lookup_app_l_Some.
      * assert (Hc : cookie_id r = c) by (apply Z.eqb_eq, Hall; now left).
        rewrite Hc. apply Z.eqb_eq, Hall, list_elem_of_In.
        eapply list_elem_of_lookup_2, Hk.
    + intros r' Hr'. rewrite Hlook in Hr'.
      rewrite lookup_app_r in Hr' by lia. rewrite Nat.sub_diag in Hr'.
      apply (well_grouped_head _ _ _ Hwg) in Hr'.
      assert (cookie_id r = c) by (apply Z.eqb_eq, Hall; now left). lia.
    + simpl in Hfuel |- *. rewrite length_app in Hfuel. simpl in Hfuel. lia.
Qed.

(** [encode_trails] on a stream that is one run per cookie. *)
Lemma encode_trails_runs runs fuel :
  grouped = concat runs ->
  well_grouped 0 runs = true ->
  (length grouped <= fuel)%nat ->
  enc_trails fuel
  = let file_offs := u64 ((num_cookies + 1) * 4) in
    if file_offs >=? UINT32_MAX then (None, Abort TrailOver4GB)
    else
      match enc_runs (SAFE_SEEK fopen file_offs) file_offs
              (mk_trail_state 0 (memset_prev_items num_fields)
                 (init_gram_bufs num_fields) 0 3) runs with
      | (out, Done file_offs) =>
          (Some (SAFE_WRITE (SAFE_SEEK out (u64 (num_cookies * 4)))
                   (le_bytes 4 file_offs)), Done tt)
      | (out, Abort w) => (Some out, Abort w)
      | (out, Undefined) => (Some out, Undefined)
      | (out, OutOfFuel) => (Some out, OutOfFuel)
      end.
Proof.
  intros Hg Hwg Hfuel. unfold encode_trails. cbv zeta.
  destruct (_ >=? UINT32_MAX); [easy|].
  assert (Hev : exists ev,
    (if 0 <? num_events then of_option (index grouped 0)
     else Done (default (mk_cookie_event 0 0 0 0) (index grouped 0))) = Done ev
    /\ current grouped 0 ev).
  { destruct grouped as [|r g] eqn:E.
    - simpl. eexists. split; [reflexivity|]. intros Hlt. simpl in Hlt. lia.
    - exists r. split; [|now intros _].
      destruct (Z.ltb_spec 0 (Z.of_nat (length (r :: g)))) as [_|H];
        [reflexivity | simpl in H; lia]. }
  destruct Hev as (ev & -> & Hcur).
  rewrite (encode_cookies_runs runs fuel _ _ 0%nat ev _ 0); auto.
  - now rewrite <- Hg.
Qed.

End TrailEncoder.

(** ** Writes and file content *)

Lemma length_pad len c :
  Z.of_nat (length c) <= len -> Z.of_nat (length (pad len c)) = len.
Proof. intros H. unfold pad. rewrite length_app, length_replicate. lia. Qed.

Lemma pad_full len c : len <= Z.of_nat (length c) -> pad len c = c.
Proof.
  intros H. unfold pad. replace (Z.to_nat _) with 0%nat by lia.
  apply app_nil_r.
Qed.

Lemma length_le_bytes n x : length (le_bytes n x) = n.
Proof. revert x. induction n; intros; simpl; auto. Qed.

Lemma length_buf_bytes buf n : length (buf_bytes buf n) = Z.to_nat n.
Proof. unfold buf_bytes. now rewrite length_map, length_seq. Qed.

(** A write into the middle: the bytes replace as many old ones. *)
Lemma write_at_middle a old rest bytes :
  length old = length bytes ->
  write_at (a ++ old ++ rest) (Z.of_nat (length a)) bytes = a ++ bytes ++ rest.
Proof.
  intros Hlen. destruct bytes as [|b bytes].
  - destruct old; [easy | discriminate].
  - unfold write_at. rewrite Nat2Z.id.
    rewrite pad_full by (rewrite !length_app; lia).
    rewrite take_app_length. f_equal. f_equal.
    rewrite drop_app_ge by lia.
    replace (length a + length (b :: bytes) - length a)%nat with (length old) by lia.
    now rewrite drop_app_length.
Qed.

(** A write at or past the end. *)
Lemma write_at_end c offs bytes :
  bytes <> [] -> Z.of_nat (length c) <= offs ->
  write_at c offs bytes = pad offs c ++ bytes.
Proof.
  intros Hne Hlen. destruct bytes as [|b bytes]; [easy|].
  unfold write_at.
  pose proof (length_pad offs c Hlen) as Hp.
  rewrite take_ge by lia.
  rewrite drop_ge by lia. now rewrite app_nil_r.
Qed.

Lemma content_of_app ws1 ws2 :
  content_of (ws1 ++ ws2) = apply_writes (content_of ws1) ws2.
Proof. unfold content_of, apply_writes. apply foldl_app. Qed.

Lemma toc_offsets_starts trails : forall file_offs,
  toc_offsets file_offs trails
  = trail_starts file_offs trails
    ++ [file_offs + Z.of_nat (length (concat trails))].
Proof.
  induction trails as [|t rest IH]; intros file_offs.
  - simpl. now rewrite Z.add_0_r.
  - cbn [toc_offsets trail_starts concat]. rewrite IH, length_app.
    simpl. do 3 f_equal. lia.
Qed.

Lemma length_trail_starts trails : forall file_offs,
  length (trail_starts file_offs trails) = length trails.
Proof. induction trails; intros; simpl; auto. Qed.

Lemma length_toc_chunks (offs : list Z) :
  length (concat (le_bytes 4 <$> offs)) = (4 * length offs)%nat.
Proof.
  induction offs as [|o offs IH]; [easy|].
  rewrite fmap_cons. cbn [concat]. rewrite length_app, length_le_bytes, IH.
  simpl. lia.
Qed.

Lemma apply_writes_cons c offs bytes ws :
  apply_writes c ((offs, bytes) :: ws) = apply_writes (write_at c offs bytes) ws.
Proof. reflexivity. Qed.

(** The writes of the trails into a file whose table of contents has
    [m] free slots left. *)
Lemma layout_step : forall trails tocs m body cookie,
  Z.of_nat (length tocs) = cookie * 4 ->
  (length trails <= m)%nat ->
  Forall (fun t => t <> []) trails ->
  let c := tocs ++ replicate (4 * m) 0 ++ body in
  apply_writes c (trail_writes cookie (Z.of_nat (length c)) trails)
  = (tocs ++ concat (le_bytes 4 <$> trail_starts (Z.of_nat (length c)) trails))
    ++ replicate (4 * (m - length trails)) 0 ++ body ++ concat trails.
Proof.
  induction trails as [|t rest IH]; intros tocs m body cookie Htocs Hm Hne c.
  - simpl. subst c. rewrite !app_nil_r, Nat.sub_0_r. reflexivity.
  - inversion Hne as [|? ? Ht Hrest]; subst.
    destruct m as [|m]; [simpl in Hm; lia|].
    set (F := Z.of_nat (length c)).
    cbn [trail_writes]. rewrite !apply_writes_cons.
    (* the slot of the table of contents *)
    assert (H1 : write_at c (cookie * 4) (le_bytes 4 F)
                 = tocs ++ le_bytes 4 F ++ replicate (4 * m) 0 ++ body).
    { subst c. rewrite <- Htocs.
      replace (4 * S m)%nat with (4 + 4 * m)%nat by lia.
      rewrite replicate_add, <- app_assoc.
      apply write_at_middle. now rewrite length_le_bytes, length_replicate. }
    rewrite H1.
    set (c1 := tocs ++ le_bytes 4 F ++ replicate (4 * m) 0 ++ body).
    assert (Hc1 : Z.of_nat (length c1) = F).
    { unfold c1, F, c. rewrite !length_app, !length_replicate, length_le_bytes. lia. }
    (* the trail *)
    rewrite write_at_end by (easy || lia).
    rewrite pad_full by lia.
    replace (c1 ++ t) with ((tocs ++ le_bytes 4 F) ++ replicate (4 * m) 0 ++ (body ++ t))
      by (unfold c1; now rewrite <- !app_assoc).
    assert (Hlen : F + Z.of_nat (length t)
                   = Z.of_nat (length ((tocs ++ le_bytes 4 F) ++ replicate (4 * m) 0
                                         ++ (body ++ t)))).
    { unfold c1 in Hc1.
      rewrite !length_app, ?length_le_bytes, ?length_replicate in *. lia. }
    rewrite Hlen.
    rewrite (IH (tocs ++ le_bytes 4 F) m (body ++ t) (cookie + 1)).
    + rewrite <- Hlen. cbn [trail_starts fmap list_fmap concat].
      fold (fmap (M:=list) (le_bytes 4)).
      rewrite <- !app_assoc. simpl. reflexivity.
    + rewrite length_app, length_le_bytes. lia.
    + simpl in Hm. lia.
    + easy.
Qed.

(** The file made by the writes of all trails and of the last slot. *)
Lemma layout_file trails :
  Forall (fun t => t <> []) trails ->
  let n := Z.of_nat (length trails) in
  let file_offs := 4 * (n + 1) in
  content_of (trail_writes 0 file_offs trails
              ++ [(n * 4, le_bytes 4 (file_offs + Z.of_nat (length (concat trails))))])
  = concat (le_bytes 4 <$> toc_offsets file_offs trails) ++ concat trails.
Proof.
  intros Hne n F0. rewrite content_of_app, toc_offsets_starts.
  destruct trails as [|t rest].
  - reflexivity.
  - inversion Hne as [|? ? Ht Hrest]; subst.
    unfold content_of. cbn [trail_writes].
    rewrite (apply_writes_cons [] (0 * 4)).
    assert (H0 : write_at [] (0 * 4) (le_bytes 4 F0) = le_bytes 4 F0) by reflexivity.
    rewrite H0, (apply_writes_cons (le_bytes 4 F0) F0 t).
    rewrite (write_at_end (le_bytes 4 F0) F0 t);
      [| exact Ht | rewrite length_le_bytes; unfold F0, n; simpl length; lia].
    unfold pad. rewrite length_le_bytes.
    replace (Z.to_nat (F0 - Z.of_nat 4)) with (4 * length (t :: rest))%nat
      by (unfold F0, n; lia).
    rewrite <- app_assoc.
    assert (Hlen : F0 + Z.of_nat (length t)
      = Z.of_nat (length (le_bytes 4 F0 ++ replicate (4 * length (t :: rest)) 0 ++ t))).
    { rewrite !length_app, length_le_bytes, length_replicate. unfold F0, n. lia. }
    rewrite Hlen.
    rewrite (layout_step rest (le_bytes 4 F0) (length (t :: rest)) t (0 + 1));
      [| now rewrite length_le_bytes | simpl; lia | easy].
    rewrite <- Hlen.
    replace (length (t :: rest) - length rest)%nat with 1%nat by (simpl; lia).
    unfold apply_writes. cbn [foldl fst snd].
    replace (n * 4)
      with (Z.of_nat (length (le_bytes 4 F0
                              ++ concat (le_bytes 4 <$> trail_starts (F0 + Z.of_nat (length t)) rest)))).
    2:{ rewrite length_app, length_le_bytes, length_toc_chunks, length_trail_starts.
        unfold n. simpl. lia. }
    change (replicate (4 * 1) 0) with (replicate 4 0).
    rewrite write_at_middle by now rewrite length_le_bytes.
    cbn [trail_starts]. rewrite fmap_app, concat_app, fmap_cons. cbn [concat].
    rewrite <- !app_assoc. cbn [fmap list_fmap concat]. rewrite app_nil_r.
    reflexivity.
Qed.

Lemma le_value_le_bytes n x :
  le_value (le_bytes n x) = x mod 2 ^ (8 * Z.of_nat n).
Proof.
  revert x. induction n as [|n IH]; intros x.
  - simpl. now rewrite Z.mod_1_r.
  - cbn [le_bytes le_value]. rewrite IH.
    change 255 with (Z.ones 8). rewrite Z.land_ones by lia.
    rewrite Z.shiftr_div_pow2 by lia.
    replace (8 * Z.of_nat (S n)) with (8 + 8 * Z.of_nat n) by lia.
    rewrite Z.pow_add_r by lia.
    rewrite (Z.rem_mul_r x (2 ^ 8) (2 ^ (8 * Z.of_nat n))) by lia.
    reflexivity.
Qed.

Lemma toc_offsets_lookup trails : forall file_offs i,
  (i <= length trails)%nat ->
  toc_offsets file_offs trails !! i
  = Some (file_offs + Z.of_nat (length (concat (take i trails)))).
Proof.
  induction trails as [|t rest IH]; intros file_offs i Hi.
  - destruct i; [|simpl in Hi; lia]. simpl. now rewrite Z.add_0_r.
  - destruct i as [|i]; cbn [toc_offsets].
    + simpl. now rewrite Z.add_0_r.
    + cbn [lookup list_lookup take concat]. rewrite IH by (simpl in Hi; lia).
      rewrite length_app. f_equal. lia.
Qed.

Lemma length_toc_offsets trails : forall file_offs,
  length (toc_offsets file_offs trails) = S (length trails).
Proof. induction trails; intros; simpl; auto. Qed.

(** Reading entry [i] of a table of contents. *)
Lemma toc_entry_chunks (offs : list Z) rest : forall i o,
  offs !! i = Some o -> 0 <= o < 2 ^ 32 ->
  toc_entry (concat (le_bytes 4 <$> offs) ++ rest) (Z.of_nat i) = o.
Proof.
  unfold toc_entry.
  induction offs as [|o0 offs IH]; intros i o Hi Ho; [easy|].
  rewrite fmap_cons. cbn [concat]. rewrite <- app_assoc.
  destruct i as [|i].
  - injection Hi as ->. simpl Z.to_nat.
    rewrite drop_0, take_app_length' by now rewrite length_le_bytes.
    rewrite le_value_le_bytes. apply Z.mod_small. simpl. lia.
  - replace (Z.to_nat (4 * Z.of_nat (S i))) with (4 + Z.to_nat (4 * Z.of_nat i))%nat by lia.
    rewrite <- drop_drop.
    rewrite drop_app_length' by now rewrite length_le_bytes.
    now apply IH.
Qed.

Lemma concat_take_drop (trails : list (list Z)) i t :
  trails !! i = Some t ->
  take (length t) (drop (length (concat (take i trails))) (concat trails)) = t.
Proof.
  intros Hi. rewrite <- (take_drop_middle trails i t Hi) at 2.
  rewrite concat_app, drop_app_length. cbn [concat].
  now rewrite take_app_length.
Qed.

(** ** Every cookie has a run *)

Lemma well_grouped_intro runs : forall c,
  (forall k run, runs !! k = Some run ->
     run <> [] /\ Forall (fun r => cookie_id r = c + Z.of_nat k) run) ->
  well_grouped c runs = true.
Proof.
  induction runs as [|run runs IH]; intros c H; [easy|].
  cbn [well_grouped]. rewrite !andb_true_iff. split; [split|].
  - destruct (H 0%nat run eq_refl) as [Hne _]. now destruct run.
  - destruct (H 0%nat run eq_refl) as [_ Hall]. apply forallb_forall.
    intros r Hr. apply Z.eqb_eq. rewrite Forall_forall in Hall.
    rewrite (Hall r) by now apply list_elem_of_In. lia.
  - apply IH. intros k r Hk. specialize (H (S k) r Hk).
    now replace (c + 1 + Z.of_nat k) with (c + Z.of_nat (S k)) by lia.
Qed.

Lemma cookie_run_cookie base chain i events :
  chain <> [] -> Forall (made_from i events) chain ->
  cookie_run base chain <> [] /\
  Forall (fun r => cookie_id r = i) (cookie_run base chain).
Proof.
  intros Hne Hall. unfold cookie_run.
  pose proof (delta_encode_length base (qsort chain) 0 0) as Hlen.
  pose proof (delta_encode_fields base (qsort chain) 0 0) as Hf.
  pose proof (qsort_perm chain) as Hperm.
  split.
  - intros Hnil. rewrite Hnil in Hlen. simpl in Hlen.
    apply Permutation_length in Hperm. destruct chain; [easy | simpl in *; lia].
  - assert (Hq : Forall (fun r => cookie_id r = i) (qsort chain)).
    { rewrite Hperm. eapply Forall_impl; [exact Hall|]. now intros r [? _]. }
    clear Hlen Hperm Hne Hall.
    induction Hf as [|a b l' out' [Hab _] _ IH]; [constructor|].
    inversion Hq; subst. constructor; [congruence | auto].
Qed.

Lemma group_events_well_grouped fuel events cookie_pointers num_cookies base
    grouped maxd :
  group_events fuel events cookie_pointers num_cookies base = Done (grouped, maxd) ->
  exists runs,
    grouped = concat runs /\ length runs = Z.to_nat num_cookies /\
    well_grouped 0 runs = true.
Proof.
  intros H. apply group_events_inv in H as (chains & Hlen & Hch & Hg & _).
  exists (cookie_run base <$> chains). split; [easy|].
  split; [now rewrite length_fmap|].
  apply well_grouped_intro. intros k run Hk.
  rewrite list_lookup_fmap in Hk.
  destruct (chains !! k) as [chain|] eqn:Hc; [|easy]. injection Hk as <-.
  destruct (Hch k chain Hc) as [Hne Hall]. rewrite Z.add_0_l.
  now apply (cookie_run_cookie base chain _ events).
Qed.



(** ** The trail file of a run *)

Section TrailFile.

Variable tdb_item_field : Z -> Z.
Context {gram gram_bufs codemap_t gram_freqs_t field_stats_t : Type}.
Variable init_gram_bufs : Z -> gram_bufs.
Variable choose_grams :
  list Z -> gram_freqs_t -> gram_bufs -> tdb_cookie_event -> list gram * gram_bufs.
Variable huff_encode_grams :
  codemap_t -> list gram -> Z -> Z -> field_stats_t -> outcome (Z * Z).
Variable write_bits : Z -> Z -> Z -> Z.
Variable items : list Z.
Variable grouped : list tdb_cookie_event.
Variable num_cookies : Z.
Variable num_fields : Z.
Variable codemap : codemap_t.
Variable gram_freqs : gram_freqs_t.
Variable fstats : field_stats_t.

(** [huff_encode_grams] moves the bit offset forward only, and fails
    rather than reach [UINT32_MAX] bits. *)
Hypothesis huff_advances : forall grams buf offs buf' offs',
  huff_encode_grams codemap grams buf offs fstats = Done (buf', offs') ->
  offs <= offs' < UINT32_MAX.

Local Abbreviation enc_event :=
  (encode_event tdb_item_field choose_grams huff_encode_grams
     items codemap gram_freqs fstats).
Local Abbreviation enc_run :=
  (encode_run tdb_item_field choose_grams huff_encode_grams
     items codemap gram_freqs fstats).
Local Abbreviation enc_runs :=
  (encode_runs tdb_item_field choose_grams huff_encode_grams
     write_bits items num_fields codemap gram_freqs fstats).
Local Abbreviation trails_of :=
  (run_trails tdb_item_field choose_grams huff_encode_grams
     write_bits items num_fields codemap gram_freqs fstats).
Local Abbreviation enc_trails :=
  (encode_trails tdb_item_field init_gram_bufs choose_grams huff_encode_grams
     write_bits items grouped (Z.of_nat (length grouped)) num_cookies num_fields
     codemap gram_freqs fstats).
Local Abbreviation start_state :=
  (mk_trail_state 0 (memset_prev_items num_fields) (init_gram_bufs num_fields) 0 3).
Local Abbreviation start := (start_trail num_fields).
Local Abbreviation residual := (length_residual write_bits).

Lemma encode_event_offs st ev st' :
  enc_event st ev = Done st' -> t_offs st <= t_offs st' < UINT32_MAX.
Proof.
  unfold encode_event. intros H.
  destruct (edge_encode_items _ _ _ _ _) as [[[[n enc] es] pi]| | |]; try easy.
  cbn [mbind outcome_bind] in H.
  destruct (choose_grams _ _ _ _) as [grams gb].
  destruct (huff_encode_grams _ _ _ _ _) as [[buf offs]| | |] eqn:Hh; try easy.
  cbn [mbind outcome_bind] in H. injection H as <-. simpl.
  now apply huff_advances in Hh.
Qed.

Lemma encode_run_offs run : forall st st',
  t_offs st < UINT32_MAX ->
  enc_run st run = Done st' -> t_offs st <= t_offs st' < UINT32_MAX.
Proof.
  induction run as [|ev run IH]; intros st st' Hst H; simpl in H.
  - injection H as <-. lia.
  - destruct (enc_event st ev) as [st1| | |] eqn:He; try easy.
    cbn [mbind outcome_bind] in H.
    apply encode_event_offs in He. apply IH in H; lia.
Qed.

Lemma length_residual_size (st : @trail_state gram_bufs) :
  0 <= t_offs st -> fst (residual st) = (t_offs st + 7) / 8.
Proof.
  intros Hst. unfold length_residual.
  change 7 with (Z.ones 3) at 1. rewrite Z.land_ones by lia.
  change (2 ^ 3) with 8.
  destruct (Z.eqb_spec (t_offs st mod 8) 0); simpl;
    Z.div_mod_to_equations; lia.
Qed.

Lemma well_grouped_cookie c run rest :
  well_grouped c (run :: rest) = true ->
  run <> [] /\ default 0 (cookie_id <$> head run) = c /\
  well_grouped (c + 1) rest = true.
Proof.
  simpl. rewrite !andb_true_iff. intros [[Hne Hall] Hwg].
  destruct run as [|r run]; [easy|]. simpl in *.
  apply andb_true_iff in Hall as [Hc _]. apply Z.eqb_eq in Hc. easy.
Qed.

(** The writes of a run of [encode_runs] that reaches the end of the
    stream: for every run of records, its slot and its trail. *)
Lemma encode_runs_done : forall runs out file_offs st c out' file_offs',
  enc_runs out file_offs st runs = (out', Done file_offs') ->
  well_grouped c runs = true ->
  0 <= c -> (c + Z.of_nat (length runs)) * 4 <= 2 ^ 64 ->
  0 <= file_offs < UINT32_MAX ->
  exists trails,
    trails_of st runs trails /\
    length trails = length runs /\
    writes out' = writes out ++ trail_writes c file_offs (snd <$> trails) /\
    file_offs' = file_offs + Z.of_nat (length (concat (snd <$> trails))) /\
    file_offs' < UINT32_MAX /\
    Forall (fun tr => 3 <= fst tr < UINT32_MAX /\
                      Z.of_nat (length (snd tr)) = (fst tr + 7) / 8) trails.
Proof.
  induction runs as [|run rest IH];
    intros out file_offs st c out' file_offs' H Hwg Hc Hn HF.
  - simpl in H. injection H as <- <-. exists []. simpl.
    rewrite app_nil_r, Z.add_0_r. repeat split; try easy; lia.
  - apply well_grouped_cookie in Hwg as (Hne & Hcookie & Hwg).
    cbn [encode_runs] in H. rewrite Hcookie in H.
    destruct (enc_run (start st) run) as [st1| | |] eqn:Hrun; try easy.
    pose proof (encode_run_offs run (start st) st1) as Hoffs.
    simpl t_offs in Hoffs.
    specialize (Hoffs ltac:(unfold UINT32_MAX; lia) Hrun).
    pose proof (length_residual_size st1 ltac:(lia)) as Hsize.
    unfold append_trail in H.
    destruct (residual st1) as [size buf] eqn:Hres. simpl in Hsize.
    assert (Hsz : 1 <= size <= 2 ^ 29).
    { rewrite Hsize. unfold UINT32_MAX in Hoffs. Z.div_mod_to_equations. lia. }
    rewrite (u64_small (file_offs + size)) in H by (unfold UINT32_MAX in HF; lia).
    destruct (Z.geb_spec (file_offs + size) UINT32_MAX) as [|Hlt]; [easy|].
    apply (IH _ _ _ (c + 1)) in H as (trails & Htr & Hlen & Hw & HF' & Hmax & Hall);
      [| easy | lia | simpl length in Hn; lia | lia].
    exists ((t_offs st1, buf_bytes buf size) :: trails).
    assert (Hbytes : Z.of_nat (length (buf_bytes buf size)) = size).
    { rewrite length_buf_bytes. lia. }
    split; [|split; [|split; [|split; [|split]]]].
    + cbn [run_trails]. exists st1. rewrite Hres. simpl. easy.
    + simpl. lia.
    + rewrite Hw. cbn [SAFE_WRITE SAFE_SEEK fseek_end write_toc_slot writes pos].
      rewrite u64_small by (simpl length in Hn; lia).
      rewrite <- !app_assoc. cbn [fmap list_fmap trail_writes snd app].
      now rewrite Hbytes.
    + rewrite HF'. rewrite fmap_cons. cbn [concat snd]. rewrite length_app. lia.
    + easy.
    + constructor; [|easy]. simpl. split; [lia|]. now rewrite Hbytes.
Qed.

Lemma guarded_below {A} ws (r : outcome A) :
  Forall (fun w => write_end w < UINT32_MAX) ws -> guarded ws r.
Proof.
  induction 1 as [|w ws Hw _ IH]; simpl; [easy|].
  now destruct (Z.ltb_spec (write_end w) UINT32_MAX); [|lia].
Qed.

Lemma guarded_done {A} ws (x : A) :
  guarded ws (Done x) -> Forall (fun w => write_end w < UINT32_MAX) ws.
Proof.
  induction ws as [|w ws IH]; simpl; [constructor|].
  destruct (Z.ltb_spec (write_end w) UINT32_MAX); [|now intros [_ ?]].
  constructor; auto.
Qed.

Lemma guarded_split {A} (r : outcome A) ws1 : forall ws w ws2,
  guarded ws r -> ws = ws1 ++ w :: ws2 -> UINT32_MAX <= write_end w ->
  ws2 = [] /\ r = Abort TrailOver4GB.
Proof.
  induction ws1 as [|w1 ws1 IH]; intros ws w ws2 Hg -> Hw; simpl in Hg.
  - now destruct (Z.ltb_spec (write_end w) UINT32_MAX); [lia|].
  - destruct (Z.ltb_spec (write_end w1) UINT32_MAX).
    + now apply (IH _ w ws2 Hg).
    + destruct Hg as [Hnil _]. now destruct ws1.
Qed.

Lemma guarded_outcome {A B} ws (r : outcome A) (r' : outcome B) :
  guarded ws r -> (r = Abort TrailOver4GB -> r' = Abort TrailOver4GB) ->
  guarded ws r'.
Proof.
  intros Hg Hr. induction ws as [|w ws IH]; simpl in *; [easy|].
  destruct (_ <? _); [auto|]. destruct Hg as [-> Hg]. auto.
Qed.

(** However [encode_runs] ends, a write that ends at [UINT32_MAX] or
    beyond is its last one and makes it abort. *)
Lemma encode_runs_guarded : forall runs out file_offs st c out' r,
  enc_runs out file_offs st runs = (out', r) ->
  well_grouped c runs = true ->
  0 <= c -> (c + Z.of_nat (length runs)) * 4 <= file_offs ->
  file_offs < UINT32_MAX ->
  exists new, writes out' = writes out ++ new /\ guarded new r.
Proof.
  induction runs as [|run rest IH];
    intros out file_offs st c out' r H Hwg Hc Hn HF.
  - simpl in H. injection H as <- <-. exists []. now rewrite app_nil_r.
  - apply well_grouped_cookie in Hwg as (Hne & Hcookie & Hwg).
    cbn [encode_runs] in H. rewrite Hcookie in H.
    simpl length in Hn.
    assert (Htoc : (write_end (u64 (c * 4), le_bytes 4 file_offs) <? UINT32_MAX) = true).
    { apply Z.ltb_lt. unfold write_end. simpl.
      rewrite u64_small by (unfold UINT32_MAX in HF; lia). lia. }
    destruct (enc_run (start st) run) as [st1| | |] eqn:Hrun;
      try (injection H as <- <-; exists [(u64 (c * 4), le_bytes 4 file_offs)];
           split; [reflexivity|]; cbn [guarded]; now rewrite Htoc).
    pose proof (encode_run_offs run (start st) st1) as Hoffs.
    simpl t_offs in Hoffs.
    specialize (Hoffs ltac:(unfold UINT32_MAX; lia) Hrun).
    pose proof (length_residual_size st1 ltac:(lia)) as Hsize.
    unfold append_trail in H.
    destruct (residual st1) as [size buf] eqn:Hres. simpl in Hsize.
    assert (Hsz : 1 <= size <= 2 ^ 29).
    { rewrite Hsize. unfold UINT32_MAX in Hoffs. Z.div_mod_to_equations. lia. }
    rewrite (u64_small (file_offs + size)) in H by (unfold UINT32_MAX in HF; lia).
    assert (Hend : write_end (file_offs, buf_bytes buf size) = file_offs + size).
    { unfold write_end. simpl. rewrite length_buf_bytes. lia. }
    destruct (Z.geb_spec (file_offs + size) UINT32_MAX) as [Hge|Hlt].
    + injection H as <- <-.
      exists [(u64 (c * 4), le_bytes 4 file_offs); (file_offs, buf_bytes buf size)].
      split; [simpl; now rewrite <- app_assoc|].
      cbn [guarded]. rewrite Htoc, Hend.
      now destruct (Z.ltb_spec (file_offs + size) UINT32_MAX); [lia|].
    + apply (IH _ _ _ (c + 1)) in H as (new & Hw & Hg); [| easy | lia | lia | lia].
      exists ((u64 (c * 4), le_bytes 4 file_offs)
                :: (file_offs, buf_bytes buf size) :: new). split.
      * rewrite Hw. simpl. now rewrite <- !app_assoc.
      * cbn [guarded]. rewrite Htoc, Hend.
        now destruct (Z.ltb_spec (file_offs + size) UINT32_MAX); [|lia].
Qed.

Lemma length_concat_take {A} (l : list (list A)) i :
  (length (concat (take i l)) <= length (concat l))%nat.
Proof.
  rewrite <- (take_drop i l) at 2. rewrite concat_app, length_app. lia.
Qed.

(** The trail file of a call of [encode_trails] that returns. *)
Lemma encode_trails_done runs fuel f :
  grouped = concat runs ->
  well_grouped 0 runs = true ->
  num_cookies = Z.of_nat (length runs) ->
  (num_cookies + 1) * 4 < 2 ^ 64 ->
  (length grouped <= fuel)%nat ->
  enc_trails fuel = (Some f, Done tt) ->
  exists trails,
    let trs := snd <$> trails in
    let file_offs := 4 * (num_cookies + 1) in
    let file_offs' := file_offs + Z.of_nat (length (concat trs)) in
    trails_of start_state runs trails /\
    length trails = length runs /\
    Forall (fun tr => 3 <= fst tr < UINT32_MAX /\
                      Z.of_nat (length (snd tr)) = (fst tr + 7) / 8) trails /\
    file_offs' < UINT32_MAX /\
    writes f = trail_writes 0 file_offs trs
               ++ [(num_cookies * 4, le_bytes 4 file_offs')] /\
    file_content f = concat (le_bytes 4 <$> toc_offsets file_offs trs) ++ concat trs /\
    forall i, (i <= length trails)%nat ->
      toc_entry (file_content f) (Z.of_nat i)
      = file_offs + Z.of_nat (length (concat (take i trs))).
Proof.
  intros Hg Hwg Hn Hsmall Hfuel H.
  rewrite (encode_trails_runs _ _ _ _ _ _ _ _ _ _ _ _ runs fuel Hg Hwg Hfuel) in H.
  cbv zeta in H.
  rewrite (u64_small ((num_cookies + 1) * 4)) in H by lia.
  destruct (Z.geb_spec ((num_cookies + 1) * 4) UINT32_MAX) as [|Hlt]; [easy|].
  destruct (enc_runs _ _ _ runs) as [out [F'| | |]] eqn:Hruns; try easy.
  assert (Hf : f = SAFE_WRITE (SAFE_SEEK out (u64 (num_cookies * 4))) (le_bytes 4 F'))
    by congruence.
  clear H. subst f.
  apply (encode_runs_done _ _ _ _ 0) in Hruns
    as (trails & Htr & Hlen & Hw & HF' & Hmax & Hall); [| easy | lia | lia | lia].
  exists trails. cbv zeta.
  replace (4 * (num_cookies + 1)) with ((num_cookies + 1) * 4) by lia.
  rewrite <- HF'.
  split; [easy|]. split; [easy|]. split; [easy|]. split; [easy|].
  assert (Hwrites : writes (SAFE_WRITE (SAFE_SEEK out (u64 (num_cookies * 4)))
                              (le_bytes 4 F'))
          = trail_writes 0 ((num_cookies + 1) * 4) (snd <$> trails)
            ++ [(num_cookies * 4, le_bytes 4 F')]).
  { simpl. rewrite Hw. simpl. now rewrite u64_small by lia. }
  split; [exact Hwrites|].
  assert (Hcontent : file_content (SAFE_WRITE (SAFE_SEEK out (u64 (num_cookies * 4)))
                                     (le_bytes 4 F'))
          = concat (le_bytes 4 <$> toc_offsets ((num_cookies + 1) * 4) (snd <$> trails))
            ++ concat (snd <$> trails)).
  { unfold file_content. rewrite Hwrites, HF'.
    assert (Hnt : num_cookies = Z.of_nat (length (snd <$> trails))).
    { rewrite length_fmap. lia. }
    rewrite Hnt.
    replace ((Z.of_nat (length (snd <$> trails)) + 1) * 4)
      with (4 * (Z.of_nat (length (snd <$> trails)) + 1)) by lia.
    apply layout_file.
    apply Forall_fmap. eapply Forall_impl; [exact Hall|].
    intros [bits bytes] [Hb Hl]. simpl in *. intros ->. simpl in Hl.
    Z.div_mod_to_equations. lia. }
  split; [exact Hcontent|].
  intros i Hi. rewrite Hcontent.
  apply toc_entry_chunks.
  - apply toc_offsets_lookup. now rewrite length_fmap.
  - pose proof (length_concat_take (snd <$> trails) i).
    unfold UINT32_MAX in Hmax. lia.
Qed.

(** C2. A write that ends at offset [2^32 - 1] or beyond, and so any
    write that would take the file to [2^32] bytes, is the last write of
    the run and the run aborts; no file is opened when the table of
    contents alone reaches that size; and the file of a run that returns
    is shorter than [2^32 - 1] bytes. *)
Theorem trail_file_below_4GB runs fuel out r :
  grouped = concat runs ->
  well_grouped 0 runs = true ->
  num_cookies = Z.of_nat (length runs) ->
  (num_cookies + 1) * 4 < 2 ^ 64 ->
  (length grouped <= fuel)%nat ->
  enc_trails fuel = (out, r) ->
  (out = None -> r = Abort TrailOver4GB) /\
  (forall f ws1 w ws2,
     out = Some f -> writes f = ws1 ++ w :: ws2 ->
     2 ^ 32 - 1 <= write_end w ->
     ws2 = [] /\ r = Abort TrailOver4GB) /\
  (r = Done tt ->
     exists f, out = Some f /\ file_size f < 2 ^ 32 - 1 /\
               Forall (fun w => write_end w < 2 ^ 32 - 1) (writes f)).
Proof.
  intros Hg Hwg Hn Hsmall Hfuel H.
  pose proof H as H0.
  rewrite (encode_trails_runs _ _ _ _ _ _ _ _ _ _ _ _ runs fuel Hg Hwg Hfuel) in H.
  cbv zeta in H.
  rewrite (u64_small ((num_cookies + 1) * 4)) in H by lia.
  change (2 ^ 32 - 1) with UINT32_MAX.
  destruct (Z.geb_spec ((num_cookies + 1) * 4) UINT32_MAX) as [|Hlt].
  { injection H as <- <-. repeat split; easy. }
  destruct (enc_runs _ _ _ runs) as [out1 r1] eqn:Hruns.
  assert (Hguard : forall f, out = Some f -> guarded (writes f) r).
  { apply (encode_runs_guarded _ _ _ _ 0) in Hruns as (new & Hw & Hgd);
      [| easy | lia | lia | lia].
    simpl in Hw. intros f Hf.
    destruct r1 as [F'| | |]; injection H as <- <-; injection Hf as <-.
    - simpl. rewrite Hw. apply guarded_below.
      apply Forall_app. split; [now apply guarded_done in Hgd|].
      constructor; [|constructor]. unfold write_end. simpl.
      rewrite u64_small by lia. lia.
    - rewrite Hw. eapply guarded_outcome; [exact Hgd|]. now intros [= ->].
    - rewrite Hw. eapply guarded_outcome; [exact Hgd|]. easy.
    - rewrite Hw. eapply guarded_outcome; [exact Hgd|]. easy. }
  split; [|split].
  - intros ->. destruct r1; discriminate.
  - intros f ws1 w ws2 Hf Hw Hend.
    now apply (guarded_split r ws1 (writes f) w ws2 (Hguard f Hf)).
  - intros ->. destruct out as [f|]; [|now destruct r1].
    exists f. split; [easy|].
    split; [|now apply (guarded_done _ tt), Hguard].
    destruct (encode_trails_done runs fuel f Hg Hwg Hn Hsmall Hfuel H0)
      as (trails & _ & Hlen & _ & Hmax & _ & Hcontent & _).
    unfold file_size. rewrite Hcontent.
    rewrite length_app, length_toc_chunks, length_toc_offsets, length_fmap.
    lia.
Qed.

(** C5. In the file of a call of [encode_trails] that returns, the
    first [4 * (num_cookies + 1)] bytes are the offsets of the table of
    contents, four bytes each with the low byte first; entry [i + 1] is
    entry [i] plus the length of the trail of cookie [i], which is the bit
    length of its encoding rounded up to bytes; the trail of cookie [i]
    is found at entry [i]; and the last entry is the size of the file. *)
Theorem toc_consistency runs fuel f :
  grouped = concat runs ->
  well_grouped 0 runs = true ->
  num_cookies = Z.of_nat (length runs) ->
  (num_cookies + 1) * 4 < 2 ^ 64 ->
  (length grouped <= fuel)%nat ->
  enc_trails fuel = (Some f, Done tt) ->
  exists trails,
    let content := file_content f in
    trails_of start_state runs trails /\
    Z.of_nat (length trails) = num_cookies /\
    take (Z.to_nat (4 * (num_cookies + 1))) content
    = concat (le_bytes 4 <$> toc_offsets (4 * (num_cookies + 1)) (snd <$> trails)) /\
    (forall i bits bytes,
       trails !! i = Some (bits, bytes) ->
       toc_entry content (Z.of_nat i) <= toc_entry content (Z.of_nat i + 1) /\
       toc_entry content (Z.of_nat i + 1) - toc_entry content (Z.of_nat i)
       = Z.of_nat (length bytes) /\
       Z.of_nat (length bytes) = (bits + 7) / 8 /\
       take (length bytes) (drop (Z.to_nat (toc_entry content (Z.of_nat i))) content)
       = bytes) /\
    toc_entry content num_cookies = file_size f.
Proof.
  intros Hg Hwg Hn Hsmall Hfuel H.
  destruct (encode_trails_done runs fuel f Hg Hwg Hn Hsmall Hfuel H)
    as (trails & Htr & Hlen & Hall & Hmax & _ & Hcontent & Hentry).
  cbv zeta in Hmax, Hentry.
  exists trails. cbv zeta. unfold file_size.
  set (trs := snd <$> trails) in *.
  set (F0 := 4 * (num_cookies + 1)) in *.
  assert (Htl : length trs = length trails) by apply length_fmap.
  assert (Htoc : length (concat (le_bytes 4 <$> toc_offsets F0 trs)) = Z.to_nat F0).
  { rewrite length_toc_chunks, length_toc_offsets. unfold F0. lia. }
  split; [easy|]. split; [lia|]. split; [|split].
  - now rewrite Hcontent, <- Htoc, take_app_length.
  - intros i bits bytes Hi.
    assert (Hi' : trs !! i = Some bytes).
    { unfold trs. now rewrite list_lookup_fmap, Hi. }
    assert (Hlt : (i < length trs)%nat) by (eapply lookup_lt_Some; eauto).
    replace (Z.of_nat i + 1) with (Z.of_nat (S i)) by lia.
    rewrite !Hentry by lia.
    rewrite (take_S_r _ _ _ Hi'), concat_app, length_app. cbn [concat].
    rewrite app_nil_r.
    split; [lia|]. split; [lia|]. split.
    + rewrite Forall_forall in Hall.
      now apply (Hall (bits, bytes)), list_elem_of_lookup_2 with i.
    + replace (Z.to_nat (F0 + Z.of_nat (length (concat (take i trs)))))
        with (length (concat (le_bytes 4 <$> toc_offsets F0 trs))
              + length (concat (take i trs)))%nat by lia.
      rewrite Hcontent, <- drop_drop, drop_app_length.
      now apply concat_take_drop.
  - rewrite Hn, <- Hlen, Hentry by lia.
    rewrite <- Htl, firstn_all, Hcontent, length_app. lia.
Qed.


(** *** The length residual *)

(** [huff_encode_grams] changes no bit of the buffer outside the bits
    it appends, and [write_bits] sets the bits of [val] from bit [offs]
    on. *)
Hypothesis huff_frame : forall grams buf offs buf' offs',
  huff_encode_grams codemap grams buf offs fstats = Done (buf', offs') ->
  forall k, 0 <= k -> k < offs \/ offs' <= k ->
  Z.testbit buf' k = Z.testbit buf k.

Hypothesis write_bits_spec : forall buf offs val k,
  0 <= k ->
  Z.testbit (write_bits buf offs val) k
  = Z.testbit buf k || Z.testbit val (k - offs).

Lemma encode_event_frame st ev st' :
  enc_event st ev = Done st' ->
  forall k, 0 <= k -> k < t_offs st \/ t_offs st' <= k ->
  Z.testbit (t_buf st') k = Z.testbit (t_buf st) k.
Proof.
  unfold encode_event. intros H.
  destruct (edge_encode_items _ _ _ _ _) as [[[[n enc] es] pi]| | |]; try easy.
  cbn [mbind outcome_bind] in H.
  destruct (choose_grams _ _ _ _) as [grams gb].
  destruct (huff_encode_grams _ _ _ _ _) as [[buf offs]| | |] eqn:Hh; try easy.
  cbn [mbind outcome_bind] in H. injection H as <-. simpl.
  intros k Hk Hout. now apply (huff_frame _ _ _ _ _ Hh).
Qed.

Lemma encode_run_frame run : forall st st',
  enc_run st run = Done st' ->
  forall k, 0 <= k -> k < t_offs st \/ t_offs st' <= k ->
  Z.testbit (t_buf st') k = Z.testbit (t_buf st) k.
Proof.
  induction run as [|ev run IH]; intros st st' H k Hk Hout; simpl in H.
  - now injection H as <-.
  - destruct (enc_event st ev) as [st1| | |] eqn:He; try easy.
    cbn [mbind outcome_bind] in H.
    pose proof (encode_event_offs _ _ _ He) as Ho1.
    pose proof (encode_run_offs run st1 st' ltac:(lia) H) as Ho2.
    rewrite (IH _ _ H k Hk) by lia.
    apply (encode_event_frame _ _ _ He k Hk). lia.
Qed.

Lemma small_bits_high v n k : 0 <= v < 2 ^ n -> 0 <= n <= k -> Z.testbit v k = false.
Proof.
  intros Hv Hk. rewrite <- (Z.mod_small v (2 ^ n)) by lia.
  apply Z.mod_pow2_bits_high. lia.
Qed.

Lemma bit_of_buf_bytes buf size k :
  0 <= k < 8 * size -> bit_of (buf_bytes buf size) k = Z.testbit buf k.
Proof.
  intros Hk. unfold bit_of, buf_bytes.
  assert (Hq : 0 <= k / 8 < size) by (Z.div_mod_to_equations; lia).
  assert (Hr : 0 <= k mod 8 < 8) by (Z.div_mod_to_equations; lia).
  rewrite (proj2 (index_Some _ (k / 8) (Z.land (Z.shiftr buf (8 * (k / 8))) 255))).
  - simpl. rewrite Z.land_spec, Z.shiftr_spec by lia.
    change 255 with (Z.ones 8). rewrite Z.ones_spec_low by lia.
    rewrite andb_true_r. f_equal. Z.div_mod_to_equations. lia.
  - split; [lia|]. rewrite list_lookup_fmap, lookup_seq_lt by lia.
    simpl. now rewrite Z2Nat.id by lia.
Qed.

(** The bytes written for a trail whose buffer holds nothing outside
    the bits 3 to [t_offs st], and the buffer after the [memset]. *)
Lemma length_residual_bits (st : @trail_state gram_bufs) :
  3 <= t_offs st ->
  (forall k, 0 <= k -> k < 3 \/ t_offs st <= k -> Z.testbit (t_buf st) k = false) ->
  residual_recorded (t_offs st) (buf_bytes (snd (residual st)) (fst (residual st))) /\
  memset_buf (snd (residual st)) (fst (residual st)) = 0.
Proof.
  intros Ho Hzero. unfold length_residual, residual_recorded.
  assert (Hland : Z.land (t_offs st) 7 = t_offs st mod 8).
  { change 7 with (Z.ones 3). now rewrite Z.land_ones by lia. }
  rewrite !Hland. clear Hland. set (offs := t_offs st) in *.
  assert (Hmod : 0 <= offs mod 8 < 8) by (apply Z.mod_pos_bound; lia).
  assert (Hdiv : offs = 8 * (offs / 8) + offs mod 8) by (apply Z.div_mod; lia).
  assert (Hq : 0 <= offs / 8) by (apply Z.div_pos; lia).
  assert (Hhead : forall buf size, 1 <= size ->
            buf_bytes buf size !! 0%nat = Some (Z.land buf 255)).
  { intros buf size Hs. unfold buf_bytes.
    rewrite list_lookup_fmap, lookup_seq_lt by lia. simpl.
    now rewrite Z.shiftr_0_r. }
  assert (Hmemset : forall buf size, 0 <= size ->
            (forall k, 8 * size <= k -> Z.testbit buf k = false) ->
            memset_buf buf size = 0).
  { intros buf size Hs Hb. unfold memset_buf.
    replace (Z.shiftr buf (8 * size)) with 0; [apply Z.shiftl_0_l|].
    symmetry. apply Z.bits_inj'. intros k Hk.
    rewrite Z.bits_0, Z.shiftr_spec by lia. apply Hb. lia. }
  destruct (Z.eqb_spec (offs mod 8) 0) as [Hr|Hr]; cbn [negb fst snd].
  - (* no residual *)
    split; [split|].
    + rewrite length_buf_bytes. lia.
    + exists (Z.land (t_buf st) 255). split; [apply Hhead; lia|].
      apply Z.bits_inj'. intros k Hk. rewrite Z.bits_0, !Z.land_spec.
      destruct (Z.lt_ge_cases k 3).
      * rewrite Hzero by lia. reflexivity.
      * rewrite (small_bits_high 7 3 k) by lia. now rewrite andb_false_r.
    + apply Hmemset; [lia|]. intros k Hk. apply Hzero; lia.
  - (* the residual is written at bit 0 *)
    set (v := 8 - offs mod 8).
    assert (Hv : 1 <= v <= 7) by (unfold v; lia).
    assert (Hbits : forall k, 0 <= k ->
              Z.testbit (write_bits (t_buf st) 0 v) k
              = if k <? 3 then Z.testbit v k
                else if k <? offs then Z.testbit (t_buf st) k else false).
    { intros k Hk. rewrite write_bits_spec, Z.sub_0_r by easy.
      destruct (Z.ltb_spec k 3).
      - now rewrite Hzero by lia.
      - rewrite (small_bits_high v 3 k) by lia. rewrite orb_false_r.
        destruct (Z.ltb_spec k offs); [easy | apply Hzero; lia]. }
    split; [split; [easy | split; [|split]]|].
    + rewrite length_buf_bytes. lia.
    + exists (Z.land (write_bits (t_buf st) 0 v) 255). split; [apply Hhead; lia|].
      apply Z.bits_inj'. intros k Hk. rewrite !Z.land_spec, Hbits by easy.
      destruct (Z.ltb_spec k 3).
      * change 255 with (Z.ones 8). change 7 with (Z.ones 3).
        rewrite !Z.ones_spec_low by lia. now rewrite !andb_true_r.
      * rewrite (small_bits_high 7 3 k), (small_bits_high v 3 k) by lia.
        now rewrite andb_false_r.
    + intros k Hk. rewrite length_buf_bytes in Hk.
      rewrite bit_of_buf_bytes by lia. rewrite Hbits by lia.
      destruct (Z.ltb_spec k 3); [lia|].
      now destruct (Z.ltb_spec k offs); [lia|].
    + apply Hmemset; [lia|]. intros k Hk. rewrite Hbits by lia.
      destruct (Z.ltb_spec k 3); [lia|].
      now destruct (Z.ltb_spec k offs); [lia|].
Qed.

Lemma run_trails_residual : forall runs st trails,
  t_buf st = 0 ->
  trails_of st runs trails ->
  Forall (fun tr => residual_recorded (fst tr) (snd tr)) trails.
Proof.
  induction runs as [|run runs IH]; intros st [|[bits bytes] trails] Hbuf H;
    try easy.
  cbn [run_trails] in H. destruct H as (st1 & Hrun & -> & -> & Hrest).
  pose proof (encode_run_offs run (start st) st1) as Hoffs.
  simpl t_offs in Hoffs.
  specialize (Hoffs ltac:(unfold UINT32_MAX; lia) Hrun).
  destruct (length_residual_bits st1) as [Hrec Hzero]; [lia| |].
  - intros k Hk Hout.
    rewrite (encode_run_frame run _ _ Hrun k Hk) by (simpl; lia).
    simpl. rewrite Hbuf. apply Z.bits_0.
  - constructor; [exact Hrec|].
    refine (IH _ _ _ Hrest). exact Hzero.
Qed.

(** C9. In the file of a call of [encode_trails] that returns, every
    trail was written by one write, and it carries its length residual:
    when its bit length is not a multiple of 8, the low three bits of its
    first byte hold the number, from 1 to 7, of unused bits of its last
    byte, and those bits are zero; when it is a multiple of 8, the low
    three bits of the first byte are zero and there is no byte beyond the
    bit length. *)
Theorem length_residual_written runs fuel f :
  grouped = concat runs ->
  well_grouped 0 runs = true ->
  num_cookies = Z.of_nat (length runs) ->
  (num_cookies + 1) * 4 < 2 ^ 64 ->
  (length grouped <= fuel)%nat ->
  enc_trails fuel = (Some f, Done tt) ->
  exists trails,
    trails_of start_state runs trails /\
    Z.of_nat (length trails) = num_cookies /\
    forall i bits bytes,
      trails !! i = Some (bits, bytes) ->
      (toc_entry (file_content f) (Z.of_nat i), bytes) ∈ writes f /\
      residual_recorded bits bytes.
Proof.
  intros Hg Hwg Hn Hsmall Hfuel H.
  destruct (encode_trails_done runs fuel f Hg Hwg Hn Hsmall Hfuel H)
    as (trails & Htr & Hlen & _ & _ & Hwrites & _ & Hentry).
  cbv zeta in Hwrites, Hentry.
  exists trails. split; [easy|]. split; [lia|].
  intros i bits bytes Hi. split.
  - rewrite Hentry by (apply lookup_lt_Some in Hi; lia).
    rewrite Hwrites. apply elem_of_app. left.
    assert (Hb : (snd <$> trails) !! i = Some bytes)
      by now rewrite list_lookup_fmap, Hi.
    clear -Hb. revert Hb. generalize (snd <$> trails) as trs.
    generalize (4 * (num_cookies + 1)), 0.
    intros F c trs. revert F c i.
    induction trs as [|t trs IH]; intros F c i Hb; [easy|].
    destruct i as [|i]; cbn [trail_writes].
    + injection Hb as ->. simpl. rewrite Z.add_0_r. right. left.
    + right. right. simpl in Hb.
      replace (F + Z.of_nat (length (concat (take (S i) (t :: trs)))))
        with (F + Z.of_nat (length t) + Z.of_nat (length (concat (take i trs)))).
      * now apply IH.
      * cbn [take concat]. rewrite length_app. lia.
  - pose proof (fun Hb => run_trails_residual runs _ trails Hb Htr) as Hall.
    specialize (Hall eq_refl).
    rewrite Forall_forall in Hall.
    now apply (Hall (bits, bytes)), list_elem_of_lookup_2 with i.
Qed.

End TrailFile.

(** ** One cookie's table does not reach the next *)

Section EntityIsolation.

Variable tdb_item_field : Z -> Z.
Context {gram gram_bufs codemap_t gram_freqs_t field_stats_t : Type}.
Variable choose_grams :
  list Z -> gram_freqs_t -> gram_bufs -> tdb_cookie_event -> list gram * gram_bufs.
Variable huff_encode_grams :
  codemap_t -> list gram -> Z -> Z -> field_stats_t -> outcome (Z * Z).
Variable write_bits : Z -> Z -> Z -> Z.
Variable items : list Z.
Variable grouped : list tdb_cookie_event.
Variable num_events : Z.
Variable num_fields : Z.
Variable codemap : codemap_t.
Variable gram_freqs : gram_freqs_t.
Variable fstats : field_stats_t.

Local Abbreviation enc_run :=
  (encode_run tdb_item_field choose_grams huff_encode_grams
     items codemap gram_freqs fstats).
Local Abbreviation enc_cookies :=
  (encode_cookies tdb_item_field choose_grams huff_encode_grams write_bits
     items grouped num_events num_fields codemap gram_freqs fstats).
Local Abbreviation edge_run := (edge_encode_run tdb_item_field items).
Local Abbreviation start := (start_trail num_fields).

(** The size of the output array has no part in what a call that
    returns has kept. *)
Lemma edge_encode_loop_size count : forall j n encoded size1 size2 prev_items
    n1 enc1 s1 t1 n2 enc2 s2 t2,
  edge_encode_loop tdb_item_field count items j n encoded size1 prev_items
  = Done (n1, enc1, s1, t1) ->
  edge_encode_loop tdb_item_field count items j n encoded size2 prev_items
  = Done (n2, enc2, s2, t2) ->
  n1 = n2 /\ enc1 = enc2 /\ t1 = t2.
Proof.
  induction count as [|count IH];
    intros j n encoded size1 size2 prev_items n1 enc1 s1 t1 n2 enc2 s2 t2 H1 H2.
  - simpl in H1, H2. injection H1 as <- <- _ <-. injection H2 as <- <- _ <-. easy.
  - cbn [edge_encode_loop] in H1, H2.
    destruct (index items j) as [item|]; [|easy].
    cbn [of_option mbind outcome_bind] in H1, H2.
    destruct (index prev_items (tdb_item_field item)) as [prev|]; [|easy].
    cbn [of_option mbind outcome_bind] in H1, H2.
    destruct (negb (prev =? item)).
    + destruct (n <? _) in H1; [|easy]. destruct (n <? _) in H2; [|easy].
      exact (IH _ _ _ _ _ _ _ _ _ _ _ _ _ _ H1 H2).
    + exact (IH _ _ _ _ _ _ _ _ _ _ _ _ _ _ H1 H2).
Qed.

Lemma edge_encode_items_size size1 size2 prev_items ev n1 enc1 s1 t1 n2 enc2 s2 t2 :
  edge_encode_items tdb_item_field items size1 prev_items ev = Done (n1, enc1, s1, t1) ->
  edge_encode_items tdb_item_field items size2 prev_items ev = Done (n2, enc2, s2, t2) ->
  n1 = n2 /\ enc1 = enc2 /\ t1 = t2.
Proof.
  unfold edge_encode_items. destruct (_ =? 0).
  - apply edge_encode_loop_size.
  - intros [= <- <- _ <-] [= <- <- _ <-]. easy.
Qed.

Lemma edge_encode_run_size run : forall size1 size2 prev_items outs1 s1 t1 outs2 s2 t2,
  edge_run size1 prev_items run = Done (outs1, s1, t1) ->
  edge_run size2 prev_items run = Done (outs2, s2, t2) ->
  outs1 = outs2 /\ t1 = t2.
Proof.
  induction run as [|ev run IH];
    intros size1 size2 prev_items outs1 s1 t1 outs2 s2 t2 H1 H2.
  - simpl in H1, H2. injection H1 as <- _ <-. injection H2 as <- _ <-. easy.
  - cbn [edge_encode_run] in H1, H2.
    destruct (edge_encode_items _ _ size1 _ _) as [[[[n1 e1] z1] p1]| | |] eqn:E1;
      [|easy..].
    destruct (edge_encode_items _ _ size2 _ _) as [[[[n2 e2] z2] p2]| | |] eqn:E2;
      [|easy..].
    destruct (edge_encode_items_size _ _ _ _ _ _ _ _ _ _ _ _ E1 E2) as (_ & <- & <-).
    cbn [mbind outcome_bind] in H1, H2.
    destruct (edge_run z1 p1 run) as [[[o1 y1] q1]| | |] eqn:R1; [|easy..].
    destruct (edge_run z2 p1 run) as [[[o2 y2] q2]| | |] eqn:R2; [|easy..].
    cbn [mbind outcome_bind] in H1, H2.
    injection H1 as <- _ <-. injection H2 as <- _ <-.
    destruct (IH _ _ _ _ _ _ _ _ _ R1 R2) as [<- <-]. easy.
Qed.

(** The edge encoding inside [encode_run] is [edge_encode_run]. *)
Lemma encode_run_edges run : forall st st',
  enc_run st run = Done st' ->
  exists outs,
    edge_run (t_encoded_size st) (t_prev_items st) run
    = Done (outs, t_encoded_size st', t_prev_items st').
Proof.
  induction run as [|ev run IH]; intros st st' H.
  - simpl in H. injection H as <-. now exists [].
  - cbn [encode_run] in H. unfold encode_event in H.
    cbn [edge_encode_run].
    destruct (edge_encode_items _ _ _ _ _) as [[[[n enc] es] pi]| | |]; [|easy..].
    cbn [mbind outcome_bind] in H |- *.
    destruct (choose_grams _ _ _ _) as [grams gb].
    destruct (huff_encode_grams _ _ _ _ _) as [[buf offs]| | |]; [|easy..].
    cbn [mbind outcome_bind] in H.
    apply IH in H as [outs Houts]. simpl in Houts.
    exists (enc :: outs). now rewrite Houts.
Qed.

(** C7. The outer loop goes on in the same way whatever table the
    cookie before has left, the table being reset before the first
    event of a cookie; and the records of one cookie, encoded after two
    different histories, have the same edge-encoded items and leave the
    same table, those of [edge_encode_run] on the reset table. *)
Theorem entity_isolation :
  (forall fuel out file_offs i ev st table,
     enc_cookies fuel out file_offs i ev (set_prev_items st table)
     = enc_cookies fuel out file_offs i ev st) /\
  (forall st1 st2 run st1' st2',
     enc_run (start st1) run = Done st1' ->
     enc_run (start st2) run = Done st2' ->
     exists outs size1 size2,
       edge_run (t_encoded_size st1) (memset_prev_items num_fields) run
       = Done (outs, size1, t_prev_items st1') /\
       edge_run (t_encoded_size st2) (memset_prev_items num_fields) run
       = Done (outs, size2, t_prev_items st2') /\
       t_prev_items st1' = t_prev_items st2').
Proof.
  split.
  - intros fuel out file_offs i ev st table. destruct fuel; reflexivity.
  - intros st1 st2 run st1' st2' H1 H2.
    apply encode_run_edges in H1 as [outs1 H1].
    apply encode_run_edges in H2 as [outs2 H2].
    simpl in H1, H2.
    destruct (edge_encode_run_size _ _ _ _ _ _ _ _ _ _ H1 H2) as [<- Ht].
    exists outs1, (t_encoded_size st1'), (t_encoded_size st2').
    rewrite <- Ht in H2 |- *. easy.
Qed.

End EntityIsolation.

(** ** The collaborators of the worked examples *)

Lemma write_bits_or_spec buf offs val k :
  0 <= k ->
  Z.testbit (write_bits_or buf offs val) k
  = Z.testbit buf k || Z.testbit val (k - offs).
Proof.
  intros Hk. unfold write_bits_or. now rewrite Z.lor_spec, Z.shiftl_spec.
Qed.

Lemma emit_bytes_offs grams : forall buf offs,
  snd (emit_bytes grams buf offs) = offs + 8 * Z.of_nat (length grams).
Proof.
  induction grams as [|g grams IH]; intros buf offs; simpl; [lia|].
  rewrite IH. lia.
Qed.

Lemma emit_bytes_frame grams : forall buf offs k,
  0 <= k -> k < offs \/ offs + 8 * Z.of_nat (length grams) <= k ->
  Z.testbit (fst (emit_bytes grams buf offs)) k = Z.testbit buf k.
Proof.
  induction grams as [|g grams IH]; intros buf offs k Hk Hout; [easy|].
  cbn [emit_bytes]. simpl length in Hout.
  rewrite IH by lia. rewrite write_bits_or_spec by easy.
  replace (Z.testbit (Z.land g 255) (k - offs)) with false;
    [apply orb_false_r|].
  symmetry. destruct (Z.lt_ge_cases (k - offs) 0).
  - now apply Z.testbit_neg_r.
  - rewrite Z.land_spec. change 255 with (Z.ones 8).
    rewrite Z.ones_spec_high by lia. apply andb_false_r.
Qed.

Lemma huff_bytes_advances grams buf offs buf' offs' :
  huff_bytes tt grams buf offs tt = Done (buf', offs') ->
  offs <= offs' < UINT32_MAX.
Proof.
  unfold huff_bytes. destruct (Z.ltb_spec (offs + 8 * Z.of_nat (length grams)) UINT32_MAX);
    [|easy].
  intros [= Heq]. pose proof (emit_bytes_offs grams buf offs) as Ho.
  rewrite Heq in Ho. simpl in Ho. lia.
Qed.

Lemma huff_bytes_frame grams buf offs buf' offs' :
  huff_bytes tt grams buf offs tt = Done (buf', offs') ->
  forall k, 0 <= k -> k < offs \/ offs' <= k ->
  Z.testbit buf' k = Z.testbit buf k.
Proof.
  unfold huff_bytes. destruct (_ <? _); [|easy].
  intros [= Heq] k Hk Hout.
  pose proof (emit_bytes_offs grams buf offs) as Ho.
  pose proof (emit_bytes_frame grams buf offs k Hk) as Hf.
  rewrite Heq in Ho, Hf. simpl in Ho, Hf. apply Hf. lia.
Qed.

Lemma sc_encode_trails_done : sc_encode_trails 5 = (Some sc_trail_file, Done tt).
Proof. vm_compute. reflexivity. Qed.

(** ** The worked input *)

Lemma trail_file_below_4GB_witness :
  exists f, fst (sc_encode_trails 5) = Some f /\ file_size f < 2 ^ 32 - 1.
Proof.
  destruct (trail_file_below_4GB item_low_byte (fun _ => tt) grams_as_items
              huff_bytes write_bits_or sc_items sc_grouped 3 2 tt tt tt
              huff_bytes_advances sc_runs 5 (Some sc_trail_file) (Done tt))
    as (_ & _ & H).
  - reflexivity.
  - reflexivity.
  - reflexivity.
  - lia.
  - simpl. lia.
  - exact sc_encode_trails_done.
  - destruct (H eq_refl) as (f & Hf & Hsize & _).
    exists f. split; [|exact Hsize]. now rewrite sc_encode_trails_done.
Defined.

Lemma toc_consistency_witness :
  exists trails : list (Z * list Z),
    Z.of_nat (length trails) = 3 /\
    toc_entry (file_content sc_trail_file) 3 = file_size sc_trail_file.
Proof.
  destruct (toc_consistency item_low_byte (fun _ => tt) grams_as_items
              huff_bytes write_bits_or sc_items sc_grouped 3 2 tt tt tt
              huff_bytes_advances sc_runs 5 sc_trail_file)
    as (trails & _ & Hlen & _ & _ & Hlast).
  - reflexivity.
  - reflexivity.
  - reflexivity.
  - lia.
  - simpl. lia.
  - exact sc_encode_trails_done.
  - exists trails. split; [exact Hlen | exact Hlast].
Defined.


Lemma length_residual_written_witness :
  exists trails : list (Z * list Z),
    Z.of_nat (length trails) = 3 /\
    forall i bits bytes,
      trails !! i = Some (bits, bytes) -> residual_recorded bits bytes.
Proof.
  destruct (length_residual_written item_low_byte (fun _ => tt) grams_as_items
              huff_bytes write_bits_or sc_items sc_grouped 3 2 tt tt tt
              huff_bytes_advances huff_bytes_frame write_bits_or_spec
              sc_runs 5 sc_trail_file)
    as (trails & _ & Hlen & Hall).
  - reflexivity.
  - reflexivity.
  - reflexivity.
  - lia.
  - simpl. lia.
  - exact sc_encode_trails_done.
  - exists trails. split; [exact Hlen|].
    intros i bits bytes Hi. now apply (Hall i).
Defined.

Lemma entity_isolation_witness :
  exists outs,
    edge_encode_run item_low_byte sc_items 0 (memset_prev_items 2)
      [mk_cookie_event 1 3 1 5120]
    = Done (outs, 1000000, [0; item_A 7]) /\
    edge_encode_run item_low_byte sc_items 1000000 (memset_prev_items 2)
      [mk_cookie_event 1 3 1 5120]
    = Done (outs, 1000000, [0; item_A 7]).
Proof.
  destruct (entity_isolation item_low_byte grams_as_items huff_bytes write_bits_or
              sc_items sc_grouped 5 2 tt tt tt) as [_ H].
  destruct (H (mk_trail_state 0 [0; 0] tt 0 3)
              (mk_trail_state 1000000 [0; item_A 2] tt 0 19)
              [mk_cookie_event 1 3 1 5120]
              (mk_trail_state 1000000 [0; item_A 7] tt 8 11)
              (mk_trail_state 1000000 [0; item_A 7] tt 8 11))
    as (outs & size1 & size2 & H1 & H2 & _).
  - vm_compute. reflexivity.
  - vm_compute. reflexivity.
  - exists outs. simpl in H1, H2.
    assert (size1 = 1000000) as ->.
    { revert H1. vm_compute. destruct outs; [discriminate|]. now intros [= _ _ <-]. }
    assert (size2 = 1000000) as ->.
    { revert H2. vm_compute. destruct outs; [discriminate|]. now intros [= _ _ <-]. }
    split; [exact H1 | exact H2].
Defined.

(** ** The float quotient with a zero divisor *)

Lemma shr_1_half mrs :
  0 <= shr_m mrs -> shr_m (shr_1 mrs) = shr_m mrs / 2.
Proof.
  destruct mrs as [m r s]. simpl. intros Hm.
  destruct m as [|p|p]; [reflexivity | | lia].
  destruct p as [p|p|]; simpl.
  - apply (Z.div_unique _ _ _ 1); lia.
  - apply (Z.div_unique _ _ _ 0); lia.
  - reflexivity.
Qed.

Lemma pow2_xO p : 2 ^ Z.pos p~0 = 2 ^ Z.pos p * 2 ^ Z.pos p.
Proof.
  replace (Z.pos p~0) with (Z.pos p + Z.pos p) by lia.
  apply Z.pow_add_r; lia.
Qed.

Lemma pow2_xI p : 2 ^ Z.pos p~1 = 2 * (2 ^ Z.pos p * 2 ^ Z.pos p).
Proof.
  replace (Z.pos p~1) with (1 + (Z.pos p + Z.pos p)) by lia.
  rewrite !Z.pow_add_r by lia. reflexivity.
Qed.

Lemma iter_shr_1 p : forall mrs,
  0 <= shr_m mrs ->
  shr_m (SpecFloat.iter_pos shr_1 p mrs) = shr_m mrs / 2 ^ Z.pos p.
Proof.
  induction p as [p IH|p IH|]; intros mrs Hm; cbn [SpecFloat.iter_pos].
  - assert (H1 : 0 <= shr_m (shr_1 mrs)).
    { rewrite shr_1_half by easy. apply Z.div_pos; lia. }
    assert (H2 : 0 <= shr_m (SpecFloat.iter_pos shr_1 p (shr_1 mrs))).
    { rewrite IH by easy. apply Z.div_pos; lia. }
    rewrite IH, IH, shr_1_half by easy.
    rewrite !Z.div_div by lia. now rewrite pow2_xI.
  - assert (H2 : 0 <= shr_m (SpecFloat.iter_pos shr_1 p mrs)).
    { rewrite IH by easy. apply Z.div_pos; lia. }
    rewrite IH, IH by easy.
    rewrite Z.div_div by lia. now rewrite pow2_xO.
  - rewrite shr_1_half by easy. reflexivity.
Qed.

Lemma digits2_pos_lower p : 2 ^ (Z.pos (digits2_pos p) - 1) <= Z.pos p.
Proof.
  induction p as [p IH|p IH|]; cbn [digits2_pos].
  - replace (Z.pos (Pos.succ (digits2_pos p)) - 1)
      with (1 + (Z.pos (digits2_pos p) - 1)) by lia.
    rewrite Z.pow_add_r by lia. change (2 ^ 1) with 2. lia.
  - replace (Z.pos (Pos.succ (digits2_pos p)) - 1)
      with (1 + (Z.pos (digits2_pos p) - 1)) by lia.
    rewrite Z.pow_add_r by lia. change (2 ^ 1) with 2. lia.
  - simpl. lia.
Qed.

(** Rounding a positive mantissa to 24 bits leaves it positive, the
    exponent being far above the least one. *)
Lemma shr_fexp_positive p e l :
  -125 <= e ->
  0 < shr_m (fst (shr_fexp 24 128 (Z.pos p) e l)) /\
  e <= snd (shr_fexp 24 128 (Z.pos p) e l).
Proof.
  intros He. unfold shr_fexp, fexp, emin. cbn [Zdigits2].
  set (d := Z.pos (digits2_pos p)).
  assert (Hd : 1 <= d) by (unfold d; lia).
  replace (Z.max (d + e - 24) (3 - 128 - 24)) with (d + e - 24) by lia.
  replace (d + e - 24 - e) with (d - 24) by lia.
  assert (Hrec : shr_m (shr_record_of_loc (Z.pos p) l) = Z.pos p).
  { destruct l as [|[]]; reflexivity. }
  unfold shr. destruct (d - 24) as [|q|q] eqn:Hq; cbn [fst snd].
  - rewrite Hrec. lia.
  - rewrite iter_shr_1 by (rewrite Hrec; lia). rewrite Hrec. split; [|lia].
    apply Z.div_str_pos. split; [lia|].
    pose proof (digits2_pos_lower p) as Hlow. fold d in Hlow.
    eapply Z.le_trans; [|exact Hlow].
    apply Z.pow_le_mono_r; lia.
  - rewrite Hrec. lia.
Qed.

Lemma round_nearest_even_positive m l : 0 < m -> 0 < round_nearest_even m l.
Proof.
  intros Hm. unfold round_nearest_even. destruct l as [|[]]; try lia.
  destruct (Z.even m); lia.
Qed.

Lemma binary_round_aux_nonzero s p e :
  -125 <= e ->
  exists f, binary_round_aux 24 128 s (Z.pos p) e loc_Exact = f /\
            SFdiv 24 128 f (S754_zero false) = S754_infinity s.
Proof.
  intros He. eexists. split; [reflexivity|].
  unfold binary_round_aux.
  destruct (shr_fexp_positive p e loc_Exact He) as [H1 He1].
  destruct (shr_fexp 24 128 (Z.pos p) e loc_Exact) as [mrs1 e1]. cbn [fst snd] in *.
  pose proof (round_nearest_even_positive (shr_m mrs1) (loc_of_shr_record mrs1) H1)
    as H2.
  destruct (round_nearest_even (shr_m mrs1) (loc_of_shr_record mrs1))
    as [|p2|p2]; [lia | | lia].
  destruct (shr_fexp_positive p2 e1 loc_Exact ltac:(lia)) as [H3 _].
  destruct (shr_fexp 24 128 (Z.pos p2) e1 loc_Exact) as [mrs2 e2]. cbn [fst snd] in *.
  destruct (shr_m mrs2) as [|p3|p3]; [lia | | lia].
  destruct (e2 <=? 128 - 24); simpl; now rewrite xorb_false_r.
Qed.

Lemma float_of_positive_div_zero p :
  float_div (float_of_uint (Z.pos p)) (float_of_uint 0) = S754_infinity false.
Proof.
  unfold float_div, float_of_uint. cbn [binary_normalize].
  unfold binary_round.
  destruct (shl_align p 0 (fexp 24 128 (Z.pos (digits2_pos p) + 0))) as [mz ez] eqn:Hal.
  assert (Hez : -125 <= ez).
  { unfold shl_align, fexp, emin in Hal.
    destruct (Z.max _ _ - 0) as [|q|q] eqn:Hq.
    - injection Hal as _ <-. lia.
    - injection Hal as _ <-. lia.
    - injection Hal as _ <-. lia. }
  destruct (binary_round_aux_nonzero false mz ez Hez) as (f & <- & Hdiv).
  exact Hdiv.
Qed.

(** With the divisor [idx] at zero the ratio test asks whether any
    record at all is invalid. *)
Lemma ratio_gate_any_invalid n :
  0 <= n -> invalid_ratio_exceeded n 0 = negb (n =? 0).
Proof.
  intros Hn. unfold invalid_ratio_exceeded.
  destruct n as [|p|p]; [reflexivity | | lia].
  now rewrite float_of_positive_div_zero.
Qed.

(** ** What the ratio test lets through *)

Lemma count_invalid_app l1 l2 :
  count_invalid (l1 ++ l2) = count_invalid l1 + count_invalid l2.
Proof. unfold count_invalid. rewrite filter_app, length_app. lia. Qed.

(** [num_invalid] counts the invalid-tagged records, modulo [2^64]. *)
Lemma delta_encode_invalid p l : forall m n,
  0 <= n < 2 ^ 64 ->
  snd (delta_encode p l m n)
  = (n + count_invalid (fst (fst (fst (delta_encode p l m n))))) mod 2 ^ 64.
Proof.
  revert p. induction l as [|ev l IH]; intros p m n Hn.
  - simpl. unfold count_invalid. simpl. rewrite Z.add_0_r.
    symmetry. apply Z.mod_small. lia.
  - cbn [delta_encode]. rewrite shift_24.
    destruct (Z.ltb_spec (u32 (timestamp ev - p)) (2 ^ 24)) as [Hfit|Hfit].
    + pose proof (u32_range (timestamp ev - p)).
      pose proof (stored_delta (u32 (timestamp ev - p)) ltac:(lia)) as [Htag _].
      specialize (IH (timestamp ev)
        (if u32 (timestamp ev - p) >? m then u32 (timestamp ev - p) else m) n Hn).
      destruct (delta_encode (timestamp ev) l _ n) as [[[out p'] m'] n'].
      cbn [fst snd] in *. unfold count_invalid in *.
      rewrite filter_cons_False by (simpl; now rewrite Htag).
      exact IH.
    + specialize (IH p m (u64 (n + 1)) (u64_range _)).
      destruct (delta_encode p l m _) as [[[out p'] m'] n'].
      cbn [fst snd] in *. unfold count_invalid in *.
      rewrite filter_cons_True by (simpl; discriminate).
      rewrite IH. unfold u64. simpl length.
      rewrite Z.add_mod_idemp_l by lia. f_equal. lia.
Qed.

Lemma group_cookies_invalid fuel events cookie_pointers base count :
  forall i st st',
  group_cookies fuel events cookie_pointers base count i st = Done st' ->
  0 <= num_invalid st < 2 ^ 64 ->
  exists run,
    grouped_w st' = grouped_w st ++ run /\
    num_invalid st' = (num_invalid st + count_invalid run) mod 2 ^ 64.
Proof.
  induction count as [|count IH]; intros i st st' H Hn; simpl in H.
  - injection H as <-. exists []. rewrite app_nil_r. split; [easy|].
    unfold count_invalid. simpl. rewrite Z.add_0_r. symmetry. now apply Z.mod_small.
  - destruct (group_cookie _ _ _ _ _ _) as [st1| | |] eqn:H1; try easy.
    cbn [mbind outcome_bind] in H.
    unfold group_cookie in H1.
    destruct (index cookie_pointers i) as [p|]; [|easy]. simpl in H1.
    destruct (index events p) as [ev|]; [|easy]. simpl in H1.
    destruct (follow_backlinks _ _ _ _ _ _ _) as [[[chain j] bs]| | |]; try easy.
    simpl in H1.
    pose proof (delta_encode_invalid base (qsort chain) (max_timestamp_delta st)
                  (num_invalid st) Hn) as Hinv.
    destruct (delta_encode base (qsort chain) _ _) as [[[run p'] m'] n'].
    injection H1 as <-. cbn [fst snd] in Hinv.
    apply IH in H as (run' & Hw & Hn').
    + exists (run ++ run'). simpl in Hw, Hn'. split; [now rewrite Hw, app_assoc|].
      rewrite Hn', Hinv, count_invalid_app, Z.add_mod_idemp_l by lia.
      f_equal. lia.
    + simpl. rewrite Hinv. apply Z.mod_pos_bound. lia.
Qed.

(** [group_events] aborts when the count of invalid-tagged records,
    taken modulo [2^64], is not zero, and returns otherwise: the number
    of records has no part in the test. *)
Lemma group_events_gate fuel events cookie_pointers num_cookies base st :
  group_cookies fuel events cookie_pointers base (Z.to_nat num_cookies) 0
    (mk_group_state [] 0 0 0) = Done st ->
  num_invalid st = count_invalid (grouped_w st) mod 2 ^ 64 /\
  group_events fuel events cookie_pointers num_cookies base
  = if num_invalid st =? 0
    then Done (grouped_w st, max_timestamp_delta st)
    else Abort (TooManyInvalid base).
Proof.
  intros H. unfold group_events. rewrite H. cbn [mbind outcome_bind].
  apply group_cookies_invalid in H as (run & Hw & Hn); [|simpl; lia].
  simpl in Hw, Hn. subst run. split; [exact Hn|].
  rewrite ratio_gate_any_invalid by (rewrite Hn; apply Z.mod_pos_bound; lia).
  now destruct (num_invalid st =? 0).
Qed.

(** On an array whose back-links point backward and whose cookie
    pointers are slots of the array, and with fuel for the longest
    chain, [group_events] either returns the grouped stream or aborts at
    the ratio test. *)
Lemma group_events_returns fuel events cookie_pointers num_cookies base :
  backlinks_backward events ->
  Forall (fun p => 0 <= p < Z.of_nat (length events)) cookie_pointers ->
  Z.of_nat (length events) + GROUPBUF_INCREMENT < 2 ^ 32 ->
  (length events <= fuel)%nat ->
  0 <= num_cookies <= Z.of_nat (length cookie_pointers) ->
  (exists grouped maxd,
     group_events fuel events cookie_pointers num_cookies base = Done (grouped, maxd)
     /\ count_invalid grouped mod 2 ^ 64 = 0) \/
  group_events fuel events cookie_pointers num_cookies base
  = Abort (TooManyInvalid base).
Proof.
  intros Hback Hptr Hsize Hfuel Hn.
  destruct (group_cookies_total fuel events cookie_pointers base Hback Hptr Hsize
              Hfuel (Z.to_nat num_cookies) 0 (mk_group_state [] 0 0 0))
    as [st Hst]; [lia | lia | simpl; lia |].
  destruct (group_events_gate _ _ _ _ _ _ Hst) as [Hcount ->].
  destruct (Z.eqb_spec (num_invalid st) 0) as [Hz|Hz]; [left | now right].
  exists (grouped_w st), (max_timestamp_delta st). split; [easy | congruence].
Qed.

(** C1, at an input where one record in 400 is invalid, a ratio of
    0.25%: [group_events] leaves the loop with [num_invalid = 1] after
    400 records and aborts, and [tdb_encode] ends without any file. With
    the number of records as divisor the gate would stay open. *)
Theorem ratio_gate_aborts_below_threshold :
  (exists st,
     group_cookies 400 sparse_events [399] 0 1 0 (mk_group_state [] 0 0 0) = Done st /\
     length (grouped_w st) = 400%nat /\ num_invalid st = 1) /\
  invalid_ratio_exceeded 1 400 = false /\
  group_events 400 sparse_events [399] 1 0 = Abort (TooManyInvalid 0) /\
  example_encode 400 [399] sparse_events [] 1
  = (mk_output_files None None None, Abort (TooManyInvalid 0)).
Proof.
  split; [|split; [|split]].
  - eexists. split; [vm_compute; reflexivity|]. split; reflexivity.
  - vm_compute. reflexivity.
  - vm_compute. reflexivity.
  - vm_compute. reflexivity.
Qed.

(** ** The scenario of the specification

    Cookie 0 has the deltas 0, 0 and 400, and its three events keep the
    items A=1, none, and A=2. *)
Example scenario_cookie_0 :
  group_events 10 sc_events sc_cookie_pointers 3 100 = Done (sc_grouped, 400) /\
  (fun r => Z.shiftr (timestamp r) 8) <$> cookie_run 100
    [mk_cookie_event 0 2 1 500; mk_cookie_event 0 1 1 100; mk_cookie_event 0 0 1 100]
  = [0; 0; 400] /\
  edge_encode_run item_low_byte sc_items 0 (memset_prev_items 2)
    [mk_cookie_event 0 0 1 0; mk_cookie_event 0 1 1 0; mk_cookie_event 0 2 1 102400]
  = Done ([[item_A 1]; []; [item_A 2]], 1000000, [0; item_A 2]).
Proof. repeat split; vm_compute; reflexivity. Qed.

(** * Further properties of the encoder *)

(** ** Grouping *)

Lemma backlinks_backward_sc : backlinks_backward sc_events.
Proof.
  intros k e H.
  repeat (destruct k as [|k]; [injection H as <-; simpl; lia|]).
  inversion H.
Qed.

(** X1. On an array whose back-links point backward, with cookie
    pointers that are slots of the array and fuel for the longest chain,
    the loop of [group_events] ends, and the function then aborts exactly
    when the grouped stream holds an invalid-tagged record (their count
    being taken modulo [2^64]); the number of records is not looked at. *)
Theorem group_events_aborts_iff_invalid fuel events cookie_pointers num_cookies base :
  backlinks_backward events ->
  Forall (fun p => 0 <= p < Z.of_nat (length events)) cookie_pointers ->
  Z.of_nat (length events) + GROUPBUF_INCREMENT < 2 ^ 32 ->
  (length events <= fuel)%nat ->
  0 <= num_cookies <= Z.of_nat (length cookie_pointers) ->
  exists st,
    group_cookies fuel events cookie_pointers base (Z.to_nat num_cookies) 0
      (mk_group_state [] 0 0 0) = Done st /\
    group_events fuel events cookie_pointers num_cookies base
    = if count_invalid (grouped_w st) mod 2 ^ 64 =? 0
      then Done (grouped_w st, max_timestamp_delta st)
      else Abort (TooManyInvalid base).
Proof.
  intros Hback Hptr Hsize Hfuel Hn.
  destruct (group_cookies_total fuel events cookie_pointers base Hback Hptr Hsize
              Hfuel (Z.to_nat num_cookies) 0 (mk_group_state [] 0 0 0))
    as [st Hst]; [lia | lia | simpl; lia |].
  exists st. split; [exact Hst|].
  destruct (group_events_gate _ _ _ _ _ _ Hst) as [Hcount ->].
  now rewrite Hcount.
Qed.

Lemma group_events_aborts_iff_invalid_witness :
  exists st,
    group_cookies 5 sc_events sc_cookie_pointers 100 (Z.to_nat 3) 0
      (mk_group_state [] 0 0 0) = Done st /\
    group_events 5 sc_events sc_cookie_pointers 3 100
    = if count_invalid (grouped_w st) mod 2 ^ 64 =? 0
      then Done (grouped_w st, max_timestamp_delta st)
      else Abort (TooManyInvalid 100).
Proof.
  apply (group_events_aborts_iff_invalid 5 sc_events sc_cookie_pointers 3 100).
  - exact backlinks_backward_sc.
  - repeat constructor; simpl; lia.
  - vm_compute. reflexivity.
  - simpl. lia.
  - simpl. lia.
Defined.

(** A run of records that ascend from the reference and stay within
    [hi], where [hi] is less than [2^24] above the least reference:
    every record is valid-tagged and no delta exceeds [hi - lo]. *)
Lemma delta_encode_narrow lo hi buf : forall p m n,
  hi - lo < 2 ^ 24 ->
  lo <= p ->
  ascending p (timestamp <$> buf) = true ->
  Forall (fun r => timestamp r <= hi) buf ->
  0 <= m <= hi - lo ->
  count_invalid (fst (fst (fst (delta_encode p buf m n)))) = 0 /\
  snd (delta_encode p buf m n) = n /\
  0 <= snd (fst (delta_encode p buf m n)) <= hi - lo.
Proof.
  induction buf as [|ev buf IH]; intros p m n Hspan Hp Hasc Hhi Hm.
  - simpl. unfold count_invalid. simpl. lia.
  - simpl in Hasc. apply andb_true_iff in Hasc as [Hle Hasc]. apply Z.leb_le in Hle.
    inversion Hhi as [|? ? Hev Hrest]; subst.
    cbn [delta_encode]. rewrite shift_24.
    assert (Hd : u32 (timestamp ev - p) = timestamp ev - p)
      by (apply u32_small; lia).
    rewrite Hd.
    destruct (Z.ltb_spec (timestamp ev - p) (2 ^ 24)) as [Hfit|Hfit]; [|lia].
    pose proof (stored_delta (timestamp ev - p) ltac:(lia)) as [Htag _].
    specialize (IH (timestamp ev)
      (if timestamp ev - p >? m then timestamp ev - p else m) n
      Hspan ltac:(lia) Hasc Hrest).
    destruct (delta_encode (timestamp ev) buf _ n) as [[[out p'] m'] n'].
    cbn [fst snd] in *. unfold count_invalid in *.
    rewrite filter_cons_False by (simpl; now rewrite Htag).
    apply IH. destruct (Z.gtb_spec (timestamp ev - p) m); lia.
Qed.

Lemma cookie_run_narrow lo hi i events chain :
  hi - lo < 2 ^ 24 ->
  (forall e, e ∈ events -> lo <= ev_timestamp e <= hi) ->
  Forall (made_from i events) chain ->
  count_invalid (cookie_run lo chain) = 0 /\
  forall m, 0 <= m <= hi - lo ->
    0 <= max_valid_delta m (cookie_run lo chain) <= hi - lo.
Proof.
  intros Hspan Hrange Hall.
  assert (Hb : Forall (fun r => lo <= timestamp r <= hi) chain).
  { eapply Forall_impl; [exact Hall|].
    intros r (_ & e & He & Ht & _). rewrite Ht. now apply Hrange. }
  assert (Hq : Forall (fun r => lo <= timestamp r <= hi) (qsort chain))
    by (now rewrite qsort_perm).
  assert (Hasc : ascending lo (timestamp <$> qsort chain) = true).
  { apply qsort_ascending. eapply Forall_impl; [exact Hb|]. simpl. lia. }
  assert (Hhi : Forall (fun r => timestamp r <= hi) (qsort chain)).
  { eapply Forall_impl; [exact Hq|]. simpl. lia. }
  unfold cookie_run. split.
  - destruct chain as [|r chain]; [reflexivity|].
    inversion Hb; subst.
    apply (delta_encode_narrow lo hi (qsort (r :: chain)) lo 0 0); try easy; lia.
  - intros m Hm.
    pose proof (delta_encode_narrow lo hi (qsort chain) lo m 0 Hspan
                  ltac:(lia) Hasc Hhi Hm) as (_ & _ & Hmax).
    rewrite delta_encode_max in Hmax.
    pose proof (delta_encode_counters lo (qsort chain) m 0 0 0) as Hc.
    destruct (delta_encode lo (qsort chain) m 0) as [[[run p'] m'] n'].
    destruct (delta_encode lo (qsort chain) 0 0) as [[[run0 p0] m0] n0].
    cbn [fst snd] in *. injection Hc as <- _. exact Hmax.
Qed.

Lemma concat_runs_narrow lo hi events chains : forall first m,
  hi - lo < 2 ^ 24 ->
  (forall e, e ∈ events -> lo <= ev_timestamp e <= hi) ->
  (forall k chain, chains !! k = Some chain ->
     Forall (made_from (first + Z.of_nat k) events) chain) ->
  0 <= m <= hi - lo ->
  count_invalid (concat (cookie_run lo <$> chains)) = 0 /\
  0 <= max_valid_delta m (concat (cookie_run lo <$> chains)) <= hi - lo.
Proof.
  induction chains as [|chain chains IH]; intros first m Hspan Hrange Hch Hm.
  - split; [reflexivity | exact Hm].
  - cbn [fmap list_fmap concat].
    pose proof (Hch 0%nat chain eq_refl) as Hall.
    destruct (cookie_run_narrow lo hi _ events chain Hspan Hrange Hall) as [Hc Hmax].
    destruct (IH (first + 1) (max_valid_delta m (cookie_run lo chain)) Hspan Hrange)
      as [Hc' Hmax'].
    + intros k c Hk. specialize (Hch (S k) c Hk).
      now replace (first + 1 + Z.of_nat k) with (first + Z.of_nat (S k)) by lia.
    + now apply Hmax.
    + rewrite count_invalid_app, max_valid_delta_app. split; [lia | exact Hmax'].
Qed.

(** X2. When the timestamps of all events lie less than [2^24] seconds
    apart, grouping from the least of them tags no record invalid:
    [group_events] returns, and the greatest delta it reports is at most
    the span of the timestamps. *)
Theorem narrow_span_has_no_invalid fuel events cookie_pointers num_cookies lo hi :
  backlinks_backward events ->
  Forall (fun p => 0 <= p < Z.of_nat (length events)) cookie_pointers ->
  Z.of_nat (length events) + GROUPBUF_INCREMENT < 2 ^ 32 ->
  (length events <= fuel)%nat ->
  0 <= num_cookies <= Z.of_nat (length cookie_pointers) ->
  timestamp_range events (Z.of_nat (length events)) = Done (lo, hi) ->
  hi - lo < 2 ^ 24 ->
  exists grouped maxd,
    group_events fuel events cookie_pointers num_cookies lo = Done (grouped, maxd) /\
    count_invalid grouped = 0 /\
    Forall (fun r => Z.land (timestamp r) 255 = 0) grouped /\
    0 <= maxd <= Z.max 0 (hi - lo).
Proof.
  intros Hback Hptr Hsize Hfuel Hn Hrange Hspan.
  pose proof (timestamp_range_bounds events lo hi Hrange) as Hb.
  destruct (group_cookies_total fuel events cookie_pointers lo Hback Hptr Hsize
              Hfuel (Z.to_nat num_cookies) 0 (mk_group_state [] 0 0 0))
    as [st Hst]; [lia | lia | simpl; lia |].
  destruct (group_events_gate _ _ _ _ _ _ Hst) as [Hcount Hgate].
  apply group_cookies_inv in Hst as (chains & Hlen & Hch & Hw & Hm).
  simpl in Hw, Hm.
  assert (Hres : count_invalid (grouped_w st) = 0 /\
                 0 <= max_timestamp_delta st <= Z.max 0 (hi - lo)).
  { rewrite Hw, Hm. destruct chains as [|c chains]; [simpl; split; [reflexivity|lia]|].
    assert (Hpos : 0 <= hi - lo).
    { destruct (Hch 0%nat c eq_refl) as [Hne Hall].
      destruct c as [|r c]; [easy|]. inversion Hall as [|? ? Hr _]; subst.
      destruct Hr as (_ & e & He & _). apply Hb in He. lia. }
    rewrite Z.max_r by lia.
    apply (concat_runs_narrow lo hi events (c :: chains) 0 0 Hspan Hb); [|lia].
    intros k chain Hk. now apply Hch in Hk. }
  destruct Hres as [Hzero Hmax].
  exists (grouped_w st), (max_timestamp_delta st).
  rewrite Hgate, Hcount, Hzero. split; [reflexivity|]. split; [reflexivity|].
  split; [|exact Hmax].
  unfold count_invalid in Hzero.
  apply Forall_forall. intros r Hr.
  destruct (decide (Z.land (timestamp r) 255 = 0)) as [|Hne]; [easy|].
  assert (Hin : r ∈ filter (fun r => Z.land (timestamp r) 255 <> 0) (grouped_w st))
    by (apply list_elem_of_filter; split; easy).
  destruct (filter _ (grouped_w st)); [inversion Hin | simpl in Hzero; lia].
Qed.

Lemma narrow_span_has_no_invalid_witness :
  exists grouped maxd,
    group_events 5 sc_events sc_cookie_pointers 3 100 = Done (grouped, maxd) /\
    count_invalid grouped = 0 /\
    Forall (fun r => Z.land (timestamp r) 255 = 0) grouped /\
    0 <= maxd <= Z.max 0 (500 - 100).
Proof.
  apply (narrow_span_has_no_invalid 5 sc_events sc_cookie_pointers 3 100 500).
  - exact backlinks_backward_sc.
  - repeat constructor; simpl; lia.
  - vm_compute. reflexivity.
  - simpl. lia.
  - simpl. lia.
  - reflexivity.
  - lia.
Defined.

(** ** Back-links that form a cycle *)

Lemma follow_backlinks_cycle events P i :
  backlinks_closed events P ->
  forall fuel ev j bs buf,
    P ev ->
    follow_backlinks fuel events i ev j bs buf = Undefined \/
    follow_backlinks fuel events i ev j bs buf = OutOfFuel.
Proof.
  intros Hclosed. induction fuel as [|fuel IH]; intros ev j bs buf Hev; [now right|].
  destruct (Hclosed ev Hev) as [Hprev Hnext].
  cbn [follow_backlinks].
  destruct (j >=? _); [now left|].
  destruct (Z.eqb_spec (prev_event_idx ev) 0) as [|_]; [easy|].
  destruct (index events (prev_event_idx ev - 1)) as [ev'|] eqn:Hidx; [|now left].
  cbn [of_option mbind outcome_bind]. apply IH. now apply Hnext.
Qed.

Lemma follow_backlinks_no_abort events i : forall fuel ev j bs buf w,
  follow_backlinks fuel events i ev j bs buf <> Abort w.
Proof.
  induction fuel as [|fuel IH]; intros ev j bs buf w; [easy|].
  cbn [follow_backlinks]. destruct (j >=? _); [easy|].
  destruct (prev_event_idx ev =? 0); [easy|].
  destruct (index events (prev_event_idx ev - 1)); [|easy].
  cbn [of_option mbind outcome_bind]. apply IH.
Qed.

Lemma group_cookie_no_abort fuel events cookie_pointers base i st w :
  group_cookie fuel events cookie_pointers base i st <> Abort w.
Proof.
  unfold group_cookie.
  destruct (index cookie_pointers i) as [p|]; [|easy].
  cbn [of_option mbind outcome_bind].
  destruct (index events p) as [e|]; [|easy]. cbn [of_option mbind outcome_bind].
  pose proof (follow_backlinks_no_abort events i fuel e 0 (g_buf_size st) []) as Hf.
  destruct (follow_backlinks _ _ _ _ _ _ _) as [[[b j] bs]|w'| |]; try easy.
  - cbn [mbind outcome_bind]. now destruct (delta_encode _ _ _ _) as [[[? ?] ?] ?].
  - now specialize (Hf w').
Qed.

Lemma group_cookies_cycle events P cookie_pointers base fuel c p ev :
  backlinks_closed events P ->
  index cookie_pointers c = Some p -> index events p = Some ev -> P ev ->
  forall count i st,
    i <= c < i + Z.of_nat count ->
    group_cookies fuel events cookie_pointers base count i st = Undefined \/
    group_cookies fuel events cookie_pointers base count i st = OutOfFuel.
Proof.
  intros Hclosed Hp Hev HP. induction count as [|count IH]; intros i st Hc; [lia|].
  cbn [group_cookies].
  destruct (Z.eq_dec i c) as [->|Hne].
  - unfold group_cookie. rewrite Hp. cbn [of_option mbind outcome_bind].
    rewrite Hev. cbn [of_option mbind outcome_bind].
    destruct (follow_backlinks_cycle events P c Hclosed fuel ev 0 (g_buf_size st) [] HP)
      as [-> | ->]; [now left | now right].
  - pose proof (group_cookie_no_abort fuel events cookie_pointers base i st) as Hna.
    destruct (group_cookie fuel events cookie_pointers base i st) as [st1|w| |];
      cbn [mbind outcome_bind].
    + apply IH. lia.
    + now specialize (Hna w).
    + now left.
    + now right.
Qed.

(** X3. When the chain of some cookie runs into a cycle of back-links,
    [group_events] neither returns nor reaches its ratio test, whatever
    the fuel: the walk along the chain has no end, and stops only where
    the 32-bit size of the group buffer wraps around. *)
Theorem cyclic_backlinks_never_return events (P : tdb_event -> Prop) cookie_pointers
    num_cookies base fuel c p ev :
  backlinks_closed events P ->
  0 <= c < num_cookies ->
  index cookie_pointers c = Some p -> index events p = Some ev -> P ev ->
  group_events fuel events cookie_pointers num_cookies base = Undefined \/
  group_events fuel events cookie_pointers num_cookies base = OutOfFuel.
Proof.
  intros Hclosed Hc Hp Hev HP. unfold group_events.
  destruct (group_cookies_cycle events P cookie_pointers base fuel c p ev Hclosed
              Hp Hev HP (Z.to_nat num_cookies) 0 (mk_group_state [] 0 0 0))
    as [-> | ->]; [lia | now left | now right].
Qed.

Lemma cyclic_backlinks_never_return_witness :
  let events := [mk_event 0 1 100 2; mk_event 1 1 200 1] in
  group_events 1000 events [1] 1 100 = Undefined \/
  group_events 1000 events [1] 1 100 = OutOfFuel.
Proof.
  intros events.
  apply (cyclic_backlinks_never_return events (fun e => e ∈ events) [1] 1 100 1000
           0 1 (mk_event 1 1 200 1)).
  - intros e He. apply list_elem_of_In in He. simpl in He.
    destruct He as [<- | [<- | []]]; simpl; (split; [lia|]);
      intros e' He'; injection He' as <-; apply list_elem_of_In; simpl; auto.
  - lia.
  - reflexivity.
  - reflexivity.
  - apply list_elem_of_In. simpl. auto.
Defined.

(** ** The records of a cookie *)

Lemma follow_backlinks_events events i : forall fuel ev j bs buf buf' j' bs',
  follow_backlinks fuel events i ev j bs buf = Done (buf', j', bs') ->
  exists ch chain,
    chain_events fuel events ev = Some ch /\
    buf' = buf ++ chain /\
    record_items <$> chain = event_items_of i <$> ch.
Proof.
  induction fuel as [|fuel IH]; intros ev j bs buf buf' j' bs' H; [easy|].
  cbn [follow_backlinks chain_events] in *.
  destruct (j >=? _); [easy|].
  destruct (prev_event_idx ev =? 0).
  - injection H as <- <- <-. eexists [ev], [_]. repeat split.
  - destruct (index events (prev_event_idx ev - 1)) as [ev'|]; [|easy].
    cbn [of_option mbind outcome_bind option_bind] in *.
    apply IH in H as (ch & chain & -> & -> & Heq).
    eexists (ev :: ch), (_ :: chain). split; [reflexivity|].
    split; [now rewrite <- app_assoc|]. cbn [fmap list_fmap]. simpl. f_equal. exact Heq.
Qed.

Lemma delta_encode_items p l m n :
  record_items <$> fst (fst (fst (delta_encode p l m n))) = record_items <$> l.
Proof.
  pose proof (delta_encode_fields p l m n) as H.
  induction H as [|a b l l' (Hc & Hz & Hn) _ IH]; [reflexivity|].
  cbn [fmap list_fmap]. simpl. unfold record_items at 1 3. now rewrite Hc, Hz, Hn, IH.
Qed.

Lemma group_cookie_events fuel events cookie_pointers base i st st' :
  group_cookie fuel events cookie_pointers base i st = Done st' ->
  exists p ev ch run,
    index cookie_pointers i = Some p /\ index events p = Some ev /\
    chain_events fuel events ev = Some ch /\
    grouped_w st' = grouped_w st ++ run /\
    record_items <$> run ≡ₚ event_items_of i <$> ch.
Proof.
  unfold group_cookie. intros H.
  destruct (index cookie_pointers i) as [p|] eqn:Hp; [|easy].
  cbn [of_option mbind outcome_bind] in H.
  destruct (index events p) as [ev|] eqn:Hev; [|easy].
  cbn [of_option mbind outcome_bind] in H.
  destruct (follow_backlinks _ _ _ _ _ _ _) as [[[chain j] bs]| | |] eqn:Hf; try easy.
  cbn [mbind outcome_bind] in H.
  apply follow_backlinks_events in Hf as (ch & chain' & Hch & -> & Heq).
  simpl in H.
  pose proof (delta_encode_items base (qsort chain') (max_timestamp_delta st)
                (num_invalid st)) as Hitems.
  destruct (delta_encode base (qsort chain') _ _) as [[[run p'] m'] n'].
  injection H as <-. cbn [fst] in Hitems.
  exists p, ev, ch, run. split; [easy|]. split; [easy|]. split; [easy|].
  split; [easy|].
  rewrite Hitems, <- Heq. apply fmap_Permutation, qsort_perm.
Qed.

(** X4. The grouped stream is one run per cookie, in the order of the
    cookies, and the run of cookie [i] holds one record for each event
    on the chain of back-links that starts at [events[cookie_pointers[i]]],
    no more and no less: each record carries the cookie [i] and the item
    range of its event. *)
Theorem group_events_keeps_chain fuel events cookie_pointers num_cookies base
    grouped maxd :
  group_events fuel events cookie_pointers num_cookies base = Done (grouped, maxd) ->
  exists runs,
    grouped = concat runs /\ length runs = Z.to_nat num_cookies /\
    forall i run, runs !! i = Some run ->
      exists p ev ch,
        index cookie_pointers (Z.of_nat i) = Some p /\ index events p = Some ev /\
        chain_events fuel events ev = Some ch /\
        length run = length ch /\
        record_items <$> run ≡ₚ event_items_of (Z.of_nat i) <$> ch.
Proof.
  unfold group_events. intros H.
  destruct (group_cookies _ _ _ _ _ _ _) as [st| | |] eqn:Hg; try easy.
  cbn [mbind outcome_bind] in H. destruct (invalid_ratio_exceeded _ _); [easy|].
  injection H as <- _.
  assert (Hgen : forall count i0 st0 st1,
    group_cookies fuel events cookie_pointers base count i0 st0 = Done st1 ->
    exists runs,
      grouped_w st1 = grouped_w st0 ++ concat runs /\ length runs = count /\
      forall i run, runs !! i = Some run ->
        exists p ev ch,
          index cookie_pointers (i0 + Z.of_nat i) = Some p /\
          index events p = Some ev /\
          chain_events fuel events ev = Some ch /\
          length run = length ch /\
          record_items <$> run ≡ₚ event_items_of (i0 + Z.of_nat i) <$> ch).
  { induction count as [|count IH]; intros i0 st0 st1 H; cbn [group_cookies] in H.
    - injection H as <-. exists []. rewrite app_nil_r. repeat split; easy.
    - destruct (group_cookie _ _ _ _ _ _) as [st2| | |] eqn:H1; try easy.
      cbn [mbind outcome_bind] in H.
      apply group_cookie_events in H1 as (p & ev & ch & run & Hp & Hev & Hch & Hw & Hperm).
      apply IH in H as (runs & Hw' & Hlen & Hruns).
      exists (run :: runs). split; [|split].
      + rewrite Hw', Hw. simpl. now rewrite <- app_assoc.
      + simpl. lia.
      + intros [|i] r Hi; simpl in Hi.
        * injection Hi as <-. rewrite Z.add_0_r. exists p, ev, ch.
          repeat split; try easy.
          apply Permutation_length in Hperm. now rewrite !length_fmap in Hperm.
        * apply Hruns in Hi.
          now replace (i0 + Z.of_nat (S i)) with (i0 + 1 + Z.of_nat i) by lia. }
  apply Hgen in Hg as (runs & Hw & Hlen & Hruns). simpl in Hw.
  exists runs. repeat split; try easy.
Qed.

Lemma group_events_keeps_chain_witness :
  exists runs,
    sc_grouped = concat runs /\ length runs = Z.to_nat 3 /\
    forall i run, runs !! i = Some run ->
      exists p ev ch,
        index sc_cookie_pointers (Z.of_nat i) = Some p /\ index sc_events p = Some ev /\
        chain_events 5 sc_events ev = Some ch /\
        length run = length ch /\
        record_items <$> run ≡ₚ event_items_of (Z.of_nat i) <$> ch.
Proof.
  apply (group_events_keeps_chain 5 sc_events sc_cookie_pointers 3 100 sc_grouped 400).
  vm_compute. reflexivity.
Defined.

(** ** Edge encoding *)

(** When every item of the range is the entry of its field, the loop
    of [edge_encode_items] changes nothing. *)
Lemma edge_encode_loop_noop field items : forall count j n encoded encoded_size prev_items,
  0 <= j ->
  (Z.to_nat j + count <= length items)%nat ->
  Forall (fun item => index prev_items (field item) = Some item)
         (take count (drop (Z.to_nat j) items)) ->
  edge_encode_loop field count items j n encoded encoded_size prev_items
  = Done (n, encoded, encoded_size, prev_items).
Proof.
  induction count as [|count IH]; intros j n encoded encoded_size prev_items Hj Hlen Hall;
    [reflexivity|].
  cbn [edge_encode_loop].
  destruct (items !! Z.to_nat j) as [item|] eqn:Hitem;
    [|apply lookup_ge_None in Hitem; lia].
  assert (Hidx : index items j = Some item).
  { unfold index. destruct (Z.ltb_spec j 0); [lia | exact Hitem]. }
  rewrite Hidx. cbn [of_option mbind outcome_bind].
  rewrite (drop_S _ _ _ Hitem) in Hall. cbn [take] in Hall.
  inversion Hall as [|? ? Hhere Hrest]; subst.
  rewrite Hhere. cbn [of_option mbind outcome_bind].
  rewrite Z.eqb_refl. cbn [negb].
  apply IH; [lia | lia |].
  now replace (Z.to_nat (j + 1)) with (S (Z.to_nat j)) by lia.
Qed.

(** X5. An event whose items have distinct fields, encoded a second
    time right after itself, gives no item and leaves the table and the
    size of the output array as the first call left them. *)
Theorem edge_encode_again_is_empty (field : Z -> Z) items encoded_size prev_items ev
    n encoded encoded_size' prev_items' :
  Z.land (timestamp ev) 255 = 0 ->
  0 <= item_zero ev -> 0 <= num_items ev ->
  item_zero ev + num_items ev <= Z.of_nat (length items) ->
  item_zero ev + num_items ev < 2 ^ 64 ->
  fields_in_table field prev_items (event_items items ev) = true ->
  0 <= encoded_size < 2 ^ 30 ->
  num_items ev + EDGE_INCREMENT < 2 ^ 30 ->
  NoDup (field <$> event_items items ev) ->
  edge_encode_items field items encoded_size prev_items ev
  = Done (n, encoded, encoded_size', prev_items') ->
  edge_encode_items field items encoded_size' prev_items' ev
  = Done (0, [], encoded_size', prev_items').
Proof.
  intros Hvalid Hz Hn Hrange Hwrap Hfields Hsize Hcap Hnd Hfirst.
  assert (Hseen : forall item, item ∈ event_items items ev ->
                    index prev_items' (field item) = Some item).
  { unfold edge_encode_items in Hfirst. rewrite Hvalid in Hfirst. cbn [Z.eqb] in Hfirst.
    rewrite (u64_small (item_zero ev + num_items ev)) in Hfirst by lia.
    replace (Z.to_nat (item_zero ev + num_items ev - item_zero ev))
      with (Z.to_nat (num_items ev)) in Hfirst by lia.
    destruct (edge_encode_loop_spec field items prev_items (Z.to_nat (num_items ev))
                (item_zero ev) 0 [] encoded_size prev_items [])
      as (es' & pi' & Heq & [Hlen Htr] & _); try lia; auto.
    { split; [easy|]. intros f Hf. reflexivity. }
    fold (event_items items ev) in *. simpl in Heq, Htr.
    rewrite Heq in Hfirst. injection Hfirst as _ _ _ <-.
    intros item Hin.
    assert (Hf : 0 <= field item).
    { unfold fields_in_table in Hfields. rewrite forallb_forall in Hfields.
      apply list_elem_of_In, Hfields in Hin. apply andb_true_iff in Hin as [Hin _].
      now apply Z.leb_le. }
    rewrite Htr by easy. now apply last_seen_member. }
  unfold edge_encode_items. rewrite Hvalid. cbn [Z.eqb].
  rewrite (u64_small (item_zero ev + num_items ev)) by lia.
  replace (Z.to_nat (item_zero ev + num_items ev - item_zero ev))
    with (Z.to_nat (num_items ev)) by lia.
  apply edge_encode_loop_noop; [lia | lia |].
  apply Forall_forall. exact Hseen.
Qed.

Lemma edge_encode_again_is_empty_witness :
  edge_encode_items item_low_byte sc_items 1000000 [0; item_A 2]
    (mk_cookie_event 0 2 1 102400)
  = Done (0, [], 1000000, [0; item_A 2]).
Proof.
  apply (edge_encode_again_is_empty item_low_byte sc_items 0 [0; item_A 1]
           (mk_cookie_event 0 2 1 102400) 1 [item_A 2] 1000000 [0; item_A 2]).
  - reflexivity.
  - simpl. lia.
  - simpl. lia.
  - simpl. lia.
  - simpl. lia.
  - reflexivity.
  - lia.
  - unfold EDGE_INCREMENT. simpl. lia.
  - vm_compute. repeat constructor. intros H. inversion H.
  - reflexivity.
Defined.

Lemma edge_encode_loop_growth field items : forall count j n encoded encoded_size
    prev_items n' encoded' encoded_size' prev_items',
  0 <= n <= encoded_size -> encoded_size < 2 ^ 32 ->
  n = Z.of_nat (length encoded) ->
  edge_encode_loop field count items j n encoded encoded_size prev_items
  = Done (n', encoded', encoded_size', prev_items') ->
  n <= n' /\ n' = Z.of_nat (length encoded') /\ n' <= encoded_size' /\
  encoded_size' < 2 ^ 32 /\
  (exists k, 0 <= k /\ encoded_size' = encoded_size + k * EDGE_INCREMENT) /\
  (encoded_size' = encoded_size \/
   encoded_size < n' /\ encoded_size' - EDGE_INCREMENT < n') /\
  (n < n' -> n' <= u32 (encoded_size' * 4) / 4).
Proof.
  induction count as [|count IH];
    intros j n encoded es prev_items n' encoded' es' prev_items' Hn Hes Hlen H.
  - injection H as <- <- <- <-. repeat split; try lia. exists 0. lia.
  - cbn [edge_encode_loop] in H.
    destruct (index items j) as [item|]; [|easy]. cbn [of_option mbind outcome_bind] in H.
    destruct (index prev_items (field item)) as [prev|]; [|easy].
    cbn [of_option mbind outcome_bind] in H.
    destruct (negb (prev =? item)).
    + set (es1 := if n =? es then u32 (es + EDGE_INCREMENT) else es) in *.
      destruct (Z.ltb_spec n (u32 (es1 * 4) / 4)) as [Hroom|]; [|easy].
      assert (Hq : u32 (es1 * 4) / 4 = es1 mod 2 ^ 30).
      { unfold u32. change (2 ^ 32) with (4 * 2 ^ 30).
        rewrite (Z.mul_comm es1 4), Z.mul_mod_distr_l by lia.
        rewrite Z.mul_comm. apply Z.div_mul. lia. }
      assert (Hes1 : 0 <= es1 < 2 ^ 32 /\ (es1 = es \/ n = es /\ es1 = es + EDGE_INCREMENT)).
      { subst es1. destruct (Z.eqb_spec n es) as [Heq|Hne]; [|lia].
        pose proof (u32_range (es + EDGE_INCREMENT)). split; [lia|]. right.
        split; [easy|]. unfold u32, EDGE_INCREMENT in *.
        destruct (Z.lt_ge_cases (es + 1000000) (2 ^ 32)) as [Hlt|Hge].
        - apply Z.mod_small. lia.
        - exfalso.
          assert (Hw : (es + 1000000) mod 2 ^ 32 = es + 1000000 - 2 ^ 32).
          { symmetry. apply (Z.mod_unique _ _ 1); lia. }
          rewrite Hw in *.
          pose proof (Z.mod_le (es + 1000000 - 2 ^ 32) (2 ^ 30) ltac:(lia) ltac:(lia)).
          lia. }
      destruct Hes1 as [Hr1 Hcase]. clearbody es1.
      pose proof (Z.mod_pos_bound es1 (2 ^ 30) ltac:(lia)) as Hmb.
      pose proof (Z.mod_le es1 (2 ^ 30) ltac:(lia) ltac:(lia)) as Hml.
      assert (Hn1 : u32 (n + 1) = n + 1) by (apply u32_small; lia).
      rewrite Hn1 in H.
      apply IH in H as (Hle & Hl' & Hcap & Hr' & (k & Hk & Hgrow) & Hmin & Hroom');
        [|lia|lia|rewrite length_app; simpl; lia].
      split; [lia|]. split; [lia|]. split; [lia|]. split; [lia|].
      split; [|split; [lia|]].
      * destruct Hcase as [Heq|[_ Heq]]; [exists k | exists (k + 1)]; lia.
      * intros _. destruct (Z.eq_dec (n + 1) n') as [<-|Hne]; [|apply Hroom'; lia].
        assert (es' = es1) as -> by lia. lia.
    + apply IH in H as (Hle & Hl' & Hcap & Hr' & Hgrow & Hmin & Hroom'); try easy.
Qed.

(** X6. What [edge_encode_items] does to the output array: the [n]
    items it returns lie within the array as last sized, the array is
    left as it was when they fit, and otherwise it grew in steps of
    [EDGE_INCREMENT] items, by the fewest that make them fit. *)
Theorem edge_encode_grows_as_needed (field : Z -> Z) items encoded_size prev_items ev
    n encoded encoded_size' prev_items' :
  0 <= encoded_size < 2 ^ 32 ->
  edge_encode_items field items encoded_size prev_items ev
  = Done (n, encoded, encoded_size', prev_items') ->
  n = Z.of_nat (length encoded) /\
  n <= encoded_size' /\
  (0 < n -> n <= u32 (encoded_size' * 4) / 4) /\
  (exists k, 0 <= k /\ encoded_size' = encoded_size + k * EDGE_INCREMENT) /\
  (n <= encoded_size -> encoded_size' = encoded_size) /\
  (encoded_size < n -> encoded_size' - EDGE_INCREMENT < n).
Proof.
  intros Hsize H. unfold edge_encode_items in H.
  destruct (Z.land (timestamp ev) 255 =? 0).
  - apply edge_encode_loop_growth in H; [|lia|lia|reflexivity].
    destruct H as (Hle & Hl' & Hcap & Hr' & Hgrow & Hmin & Hroom').
    split; [easy|]. split; [easy|]. split; [easy|]. split; [easy|]. lia.
  - injection H as <- <- <- <-. repeat split; try (simpl; lia). exists 0. lia.
Qed.

Lemma edge_encode_grows_as_needed_witness :
  1 = Z.of_nat (length [item_A 2]) /\
  1 <= 1000000 /\
  (0 < 1 -> 1 <= u32 (1000000 * 4) / 4) /\
  (exists k, 0 <= k /\ 1000000 = 0 + k * EDGE_INCREMENT) /\
  (1 <= 0 -> 1000000 = 0) /\
  (0 < 1 -> 1000000 - EDGE_INCREMENT < 1).
Proof.
  apply (edge_encode_grows_as_needed item_low_byte sc_items 0 [0; item_A 1]
           (mk_cookie_event 0 2 1 102400) 1 [item_A 2] 1000000 [0; item_A 2]).
  - lia.
  - reflexivity.
Defined.

Lemma edge_encode_loop_sublist field items : forall count j n encoded encoded_size
    prev_items n' encoded' encoded_size' prev_items',
  0 <= j ->
  edge_encode_loop field count items j n encoded encoded_size prev_items
  = Done (n', encoded', encoded_size', prev_items') ->
  exists kept,
    encoded' = encoded ++ kept /\
    sublist kept (take count (drop (Z.to_nat j) items)) /\
    length prev_items' = length prev_items /\
    (forall f v, index prev_items' f = Some v ->
       index prev_items f = Some v \/ v ∈ kept /\ field v = f) /\
    Forall (fun item => index prev_items' (field item) <> None) kept.
Proof.
  induction count as [|count IH];
    intros j n encoded es prev_items n' encoded' es' prev_items' Hj H.
  - injection H as <- <- <- <-. exists []. rewrite app_nil_r.
    repeat split; auto; try constructor.
  - cbn [edge_encode_loop] in H.
    destruct (index items j) as [item|] eqn:Hitem; [|easy].
    cbn [of_option mbind outcome_bind] in H.
    apply index_Some in Hitem as [_ Hitem].
    rewrite (drop_S _ _ _ Hitem). cbn [take].
    destruct (index prev_items (field item)) as [prev|] eqn:Hprev; [|easy].
    cbn [of_option mbind outcome_bind] in H.
    destruct (negb (prev =? item)).
    + destruct (n <? _); [|easy].
      apply IH in H as (kept & -> & Hsub & Hlen & Htable & Hin); [|lia].
      replace (Z.to_nat (j + 1)) with (S (Z.to_nat j)) in Hsub by lia.
      rewrite length_insert in Hlen.
      apply index_Some in Hprev as [Hf Hprev].
      pose proof (lookup_lt_Some _ _ _ Hprev) as Hlt.
      exists (item :: kept). rewrite <- app_assoc. split; [reflexivity|].
      split; [now apply sublist_skip|]. split; [exact Hlen|]. split.
      * intros f v Hv. destruct (Htable f v Hv) as [Hold|[Hk Hfv]].
        -- apply index_Some in Hold as [Hf0 Hold].
           apply list_lookup_insert_Some in Hold as [(Heq & <- & _)|[Hne Hold]].
           ++ right. split; [now left | lia].
           ++ left. unfold index. destruct (Z.ltb_spec f 0); [lia | exact Hold].
        -- right. split; [now right | exact Hfv].
      * constructor; [|exact Hin].
        unfold index. destruct (Z.ltb_spec (field item) 0); [lia|].
        intros Hnone. apply lookup_ge_None in Hnone. lia.
    + apply IH in H as (kept & -> & Hsub & Hlen & Htable & Hin); [|lia].
      replace (Z.to_nat (j + 1)) with (S (Z.to_nat j)) in Hsub by lia.
      exists kept. split; [reflexivity|]. split; [now apply sublist_cons|].
      split; [exact Hlen|]. split; [exact Htable | exact Hin].
Qed.

(** X7. Whatever the table holds, the items [edge_encode_items]
    returns are a subsequence of the items of the event; the table
    keeps its length; and an entry of the table is changed to nothing but
    a returned item of its field. *)
Theorem edge_encode_emits_sublist (field : Z -> Z) items encoded_size prev_items ev
    n encoded encoded_size' prev_items' :
  0 <= item_zero ev -> 0 <= num_items ev ->
  item_zero ev + num_items ev < 2 ^ 64 ->
  edge_encode_items field items encoded_size prev_items ev
  = Done (n, encoded, encoded_size', prev_items') ->
  sublist encoded (event_items items ev) /\
  length prev_items' = length prev_items /\
  forall f v, index prev_items' f = Some v ->
    index prev_items f = Some v \/ v ∈ encoded /\ field v = f.
Proof.
  intros Hz Hn Hwrap H. unfold edge_encode_items in H.
  destruct (Z.land (timestamp ev) 255 =? 0).
  - rewrite (u64_small (item_zero ev + num_items ev)) in H by lia.
    replace (Z.to_nat (item_zero ev + num_items ev - item_zero ev))
      with (Z.to_nat (num_items ev)) in H by lia.
    apply edge_encode_loop_sublist in H as (kept & -> & Hsub & Hlen & Htable & _);
      [|lia].
    split; [exact Hsub|]. split; [exact Hlen | exact Htable].
  - injection H as <- <- <- <-. split; [apply sublist_nil_l|]. split; auto.
Qed.

Lemma edge_encode_emits_sublist_witness :
  sublist [item_A 2] (event_items sc_items (mk_cookie_event 0 2 1 102400)) /\
  length [0; item_A 2] = length [0; item_A 1] /\
  forall f v, index [0; item_A 2] f = Some v ->
    index [0; item_A 1] f = Some v \/ v ∈ [item_A 2] /\ item_low_byte v = f.
Proof.
  apply (edge_encode_emits_sublist item_low_byte sc_items 0 [0; item_A 1]
           (mk_cookie_event 0 2 1 102400) 1 [item_A 2] 1000000 [0; item_A 2]).
  - simpl. lia.
  - simpl. lia.
  - simpl. lia.
  - reflexivity.
Defined.

(** ** The trail file at the edges of its input *)

Section TrailStream.

Variable tdb_item_field : Z -> Z.
Context {gram gram_bufs codemap_t gram_freqs_t field_stats_t : Type}.
Variable init_gram_bufs : Z -> gram_bufs.
Variable choose_grams :
  list Z -> gram_freqs_t -> gram_bufs -> tdb_cookie_event -> list gram * gram_bufs.
Variable huff_encode_grams :
  codemap_t -> list gram -> Z -> Z -> field_stats_t -> outcome (Z * Z).
Variable write_bits : Z -> Z -> Z -> Z.
Variable items : list Z.
Variable num_fields : Z.
Variable codemap : codemap_t.
Variable gram_freqs : gram_freqs_t.
Variable fstats : field_stats_t.

Local Abbreviation enc_cookie_events grouped num_events :=
  (encode_cookie_events tdb_item_field choose_grams huff_encode_grams
     items grouped num_events codemap gram_freqs fstats).
Local Abbreviation enc_cookies grouped num_events :=
  (encode_cookies tdb_item_field choose_grams huff_encode_grams write_bits
     items grouped num_events num_fields codemap gram_freqs fstats).
Local Abbreviation enc_trails grouped num_events num_cookies :=
  (encode_trails tdb_item_field init_gram_bufs choose_grams huff_encode_grams
     write_bits items grouped num_events num_cookies num_fields codemap
     gram_freqs fstats).

Lemma encode_trails_empty grouped num_cookies fuel :
  0 <= num_cookies -> (num_cookies + 1) * 4 < UINT32_MAX ->
  enc_trails grouped 0 num_cookies fuel
  = (Some (mk_file [(num_cookies * 4, le_bytes 4 ((num_cookies + 1) * 4))]
             (num_cookies * 4 + 4)), Done tt).
Proof.
  intros Hn Hsmall. unfold UINT32_MAX in Hsmall.
  unfold encode_trails. cbv zeta.
  rewrite (u64_small ((num_cookies + 1) * 4)) by lia.
  rewrite (u64_small (num_cookies * 4)) by lia.
  destruct (Z.geb_spec ((num_cookies + 1) * 4) UINT32_MAX) as [Hge|_];
    [unfold UINT32_MAX in Hge; lia|].
  change (0 <? 0) with false. cbv iota.
  assert (Hloop : forall out file_offs ev st,
            enc_cookies grouped 0 fuel out file_offs 0 ev st = (out, Done file_offs))
    by (intros; destruct fuel; reflexivity).
  rewrite Hloop. reflexivity.
Qed.

(** X8. With no event to encode, [encode_trails] writes nothing but
    the last slot of the table of contents: the file is the table alone,
    the slot of every cookie reads zero, and the last slot holds the size
    of the file. *)
Theorem encode_trails_no_events grouped num_cookies fuel :
  0 <= num_cookies -> (num_cookies + 1) * 4 < UINT32_MAX ->
  exists f,
    enc_trails grouped 0 num_cookies fuel = (Some f, Done tt) /\
    writes f = [(num_cookies * 4, le_bytes 4 ((num_cookies + 1) * 4))] /\
    file_size f = (num_cookies + 1) * 4 /\
    (forall i, 0 <= i < num_cookies -> toc_entry (file_content f) i = 0) /\
    toc_entry (file_content f) num_cookies = file_size f.
Proof.
  intros Hn Hsmall. rewrite encode_trails_empty by easy.
  unfold UINT32_MAX in Hsmall.
  eexists. split; [reflexivity|].
  set (bytes := le_bytes 4 ((num_cookies + 1) * 4)).
  assert (Hcontent : file_content (mk_file [(num_cookies * 4, bytes)]
                                     (num_cookies * 4 + 4))
          = replicate (Z.to_nat (num_cookies * 4)) 0 ++ bytes).
  { unfold file_content, content_of, apply_writes. cbn [writes foldl fst snd].
    rewrite write_at_end by (unfold bytes; simpl; easy || lia).
    unfold pad. cbn [length app]. now rewrite Z.sub_0_r. }
  split; [reflexivity|]. unfold file_size. rewrite Hcontent.
  assert (Hlen : length bytes = 4%nat) by apply length_le_bytes.
  split; [|split].
  - rewrite length_app, length_replicate, Hlen. lia.
  - intros i Hi. unfold toc_entry.
    replace (Z.to_nat (num_cookies * 4))
      with (Z.to_nat (4 * i) + (4 + Z.to_nat (4 * (num_cookies - i - 1))))%nat by lia.
    rewrite !replicate_add, <- !app_assoc.
    rewrite drop_app_length' by (rewrite length_replicate; lia).
    rewrite take_app_length' by (rewrite length_replicate; lia).
    reflexivity.
  - unfold toc_entry.
    replace (4 * num_cookies) with (num_cookies * 4) by lia.
    rewrite drop_app_length' by (rewrite length_replicate; lia).
    rewrite firstn_all2 by lia.
    unfold bytes. rewrite le_value_le_bytes, length_app, length_replicate, length_le_bytes.
    rewrite Z.mod_small by (simpl; lia). lia.
Qed.

(** *** A count of events that differs from the length of the stream *)

Lemma fread_record_at grouped r k :
  last grouped = Some r -> 0 <= k ->
  fread grouped (k + 1) (record_at grouped r k) = record_at grouped r (k + 1).
Proof.
  intros Hlast Hk. unfold fread, record_at, index.
  destruct (Z.ltb_spec (k + 1) 0); [lia|]. destruct (Z.ltb_spec k 0); [lia|].
  destruct (grouped !! Z.to_nat (k + 1)) as [e|] eqn:He; [reflexivity|].
  apply lookup_ge_None in He. simpl.
  destruct (grouped !! Z.to_nat k) as [e|] eqn:Hk'; [|reflexivity].
  pose proof (lookup_lt_Some _ _ _ Hk') as Hlt.
  rewrite last_lookup in Hlast.
  replace (Z.to_nat k) with (Init.Nat.pred (length grouped)) in Hk' by lia.
  simpl. congruence.
Qed.

Lemma stream_as_read_index grouped r n k :
  last grouped = Some r -> 0 <= k < Z.of_nat n ->
  index (stream_as_read grouped r n) k = Some (record_at grouped r k).
Proof.
  intros Hlast Hk. unfold record_at, index, stream_as_read.
  destruct (Z.ltb_spec k 0); [lia|].
  destruct (grouped !! Z.to_nat k) as [e|] eqn:He.
  - pose proof (lookup_lt_Some _ _ _ He).
    rewrite lookup_app_l by (rewrite length_take; lia).
    rewrite lookup_take_lt by lia. now rewrite He.
  - apply lookup_ge_None in He.
    rewrite lookup_app_r by (rewrite length_take; lia).
    simpl. apply lookup_replicate. split; [reflexivity|].
    rewrite length_take. lia.
Qed.

Lemma length_stream_as_read grouped r n : length (stream_as_read grouped r n) = n.
Proof. unfold stream_as_read. rewrite length_app, length_take, length_replicate. lia. Qed.

Lemma encode_cookie_events_as_read grouped r num_events cookie :
  last grouped = Some r ->
  forall fuel i ev' st,
    0 <= i -> (i < num_events -> ev' = record_at grouped r i) ->
    match enc_cookie_events grouped num_events fuel cookie i (record_at grouped r i) st,
          enc_cookie_events (stream_as_read grouped r (Z.to_nat num_events))
            num_events fuel cookie i ev' st with
    | Done (i1, ev1, st1), Done (i2, ev2, st2) =>
        i1 = i2 /\ st1 = st2 /\ 0 <= i1 /\ ev1 = record_at grouped r i1 /\
        (i1 < num_events -> ev2 = record_at grouped r i1)
    | Abort w1, Abort w2 => w1 = w2
    | Undefined, Undefined => True
    | OutOfFuel, OutOfFuel => True
    | _, _ => False
    end.
Proof.
  intros Hlast. induction fuel as [|fuel IH]; intros i ev' st Hi Hev.
  - cbn [encode_cookie_events].
    destruct (Z.ltb_spec i num_events) as [Hlt|Hge]; cbn [andb].
    + rewrite (Hev Hlt). now destruct (cookie_id _ =? cookie).
    + repeat split; easy || lia.
  - cbn [encode_cookie_events].
    destruct (Z.ltb_spec i num_events) as [Hlt|Hge]; cbn [andb].
    + rewrite (Hev Hlt). destruct (cookie_id _ =? cookie); [|now repeat split].
      destruct (encode_event _ _ _ _ _ _ _ _ _) as [st'|w| |];
        cbn [mbind outcome_bind]; try easy.
      rewrite fread_record_at by easy.
      apply IH; [lia|]. intros Hlt'. unfold fread.
      now rewrite stream_as_read_index by (easy || lia).
    + repeat split; easy || lia.
Qed.

Lemma encode_cookies_as_read grouped r num_events :
  last grouped = Some r ->
  forall fuel out file_offs i ev' st,
    0 <= i -> (i < num_events -> ev' = record_at grouped r i) ->
    enc_cookies grouped num_events fuel out file_offs i (record_at grouped r i) st
    = enc_cookies (stream_as_read grouped r (Z.to_nat num_events)) num_events
        fuel out file_offs i ev' st.
Proof.
  intros Hlast. induction fuel as [|fuel IH]; intros out file_offs i ev' st Hi Hev.
  - cbn [encode_cookies]. now destruct (i <? num_events).
  - cbn [encode_cookies].
    destruct (Z.ltb_spec i num_events) as [Hlt|Hge]; [|reflexivity].
    rewrite (Hev Hlt).
    pose proof (encode_cookie_events_as_read grouped r num_events
                  (cookie_id (record_at grouped r i)) Hlast (S fuel) i
                  (record_at grouped r i) (start_trail num_fields st) Hi
                  (fun _ => eq_refl)) as Hin.
    destruct (enc_cookie_events grouped num_events (S fuel) _ i _ _)
      as [[[i1 ev1] st1]|w1| |];
      destruct (enc_cookie_events (stream_as_read _ _ _) num_events (S fuel) _ i _ _)
      as [[[i2 ev2] st2]|w2| |]; try easy; [|now subst].
    destruct Hin as (<- & <- & Hi1 & -> & Hev2).
    destruct (append_trail write_bits _ file_offs st1) as [out1 [[fo1 st'']|w| |]];
      try reflexivity.
    now apply IH.
Qed.

(** X9. [encode_trails] encodes as many records as it is told there
    are events. Records of the stream beyond that count are left out;
    and when the stream ends before the count is reached, the reads that
    fail leave the last record in place, which is then encoded once more
    for every record that is missing. The call ends as it does on the
    stream cut or filled up in this way. *)
Theorem encode_trails_reads_num_events grouped r num_events num_cookies fuel :
  last grouped = Some r -> 0 <= num_events ->
  enc_trails grouped num_events num_cookies fuel
  = enc_trails (stream_as_read grouped r (Z.to_nat num_events)) num_events
      num_cookies fuel.
Proof.
  intros Hlast Hn. unfold encode_trails. cbv zeta.
  destruct (_ >=? UINT32_MAX); [reflexivity|].
  assert (H0 : index grouped 0 = Some (record_at grouped r 0)).
  { unfold record_at. destruct grouped as [|e g]; [discriminate | reflexivity]. }
  rewrite H0.
  assert (Hfirst :
    (if 0 <? num_events then of_option (Some (record_at grouped r 0))
     else Done (default (mk_cookie_event 0 0 0 0) (Some (record_at grouped r 0))))
    = Done (record_at grouped r 0)) by now destruct (0 <? num_events).
  rewrite Hfirst.
  destruct (Z.ltb_spec 0 num_events) as [Hpos|Hzero].
  - rewrite stream_as_read_index by (easy || lia). cbn [of_option].
    now rewrite <- (encode_cookies_as_read grouped r num_events Hlast fuel _ _ 0
                      (record_at grouped r 0)).
  - now rewrite <- (encode_cookies_as_read grouped r num_events Hlast fuel _ _ 0 _
                      _ ltac:(lia) ltac:(lia)).
Qed.

End TrailStream.

Lemma encode_trails_no_events_witness :
  exists f,
    encode_trails item_low_byte (fun _ => tt) grams_as_items huff_bytes write_bits_or
      sc_items [] 0 3 2 tt tt tt 0 = (Some f, Done tt) /\
    writes f = [(3 * 4, le_bytes 4 ((3 + 1) * 4))] /\
    file_size f = (3 + 1) * 4 /\
    (forall i, 0 <= i < 3 -> toc_entry (file_content f) i = 0) /\
    toc_entry (file_content f) 3 = file_size f.
Proof.
  apply (encode_trails_no_events item_low_byte (fun _ => tt) grams_as_items huff_bytes
           write_bits_or sc_items 2 tt tt tt [] 3 0).
  - lia.
  - unfold UINT32_MAX. lia.
Defined.

Lemma encode_trails_reads_num_events_witness :
  encode_trails item_low_byte (fun _ => tt) grams_as_items huff_bytes write_bits_or
    sc_items sc_grouped 7 3 2 tt tt tt 9
  = encode_trails item_low_byte (fun _ => tt) grams_as_items huff_bytes write_bits_or
      sc_items (stream_as_read sc_grouped (mk_cookie_event 2 4 1 7680) (Z.to_nat 7))
      7 3 2 tt tt tt 9.
Proof.
  apply (encode_trails_reads_num_events item_low_byte (fun _ => tt) grams_as_items
           huff_bytes write_bits_or sc_items 2 tt tt tt sc_grouped
           (mk_cookie_event 2 4 1 7680) 7 3 9).
  - reflexivity.
  - lia.
Defined.

(** ** Reading the length of a trail back *)

Section TrailLength.

Variable tdb_item_field : Z -> Z.
Context {gram gram_bufs codemap_t gram_freqs_t field_stats_t : Type}.
Variable init_gram_bufs : Z -> gram_bufs.
Variable choose_grams :
  list Z -> gram_freqs_t -> gram_bufs -> tdb_cookie_event -> list gram * gram_bufs.
Variable huff_encode_grams :
  codemap_t -> list gram -> Z -> Z -> field_stats_t -> outcome (Z * Z).
Variable write_bits : Z -> Z -> Z -> Z.
Variable items : list Z.
Variable grouped : list tdb_cookie_event.
Variable num_cookies : Z.
Variable num_fields : Z.
Variable codemap : codemap_t.
Variable gram_freqs : gram_freqs_t.
Variable fstats : field_stats_t.

Hypothesis huff_advances : forall grams buf offs buf' offs',
  huff_encode_grams codemap grams buf offs fstats = Done (buf', offs') ->
  offs <= offs' < UINT32_MAX.

Hypothesis huff_frame : forall grams buf offs buf' offs',
  huff_encode_grams codemap grams buf offs fstats = Done (buf', offs') ->
  forall k, 0 <= k -> k < offs \/ offs' <= k ->
  Z.testbit buf' k = Z.testbit buf k.

Hypothesis write_bits_spec : forall buf offs val k,
  0 <= k ->
  Z.testbit (write_bits buf offs val) k
  = Z.testbit buf k || Z.testbit val (k - offs).

(** X10. The number of bits of every trail can be read back from the
    file: it is eight times the distance between the cookie's entry of
    the table of contents and the next one, less the number held in the
    low three bits of the byte at the cookie's entry. *)
Theorem trail_bit_length_from_file runs fuel f :
  grouped = concat runs ->
  well_grouped 0 runs = true ->
  num_cookies = Z.of_nat (length runs) ->
  (num_cookies + 1) * 4 < 2 ^ 64 ->
  (length grouped <= fuel)%nat ->
  encode_trails tdb_item_field init_gram_bufs choose_grams huff_encode_grams
    write_bits items grouped (Z.of_nat (length grouped)) num_cookies num_fields
    codemap gram_freqs fstats fuel = (Some f, Done tt) ->
  exists trails,
    run_trails tdb_item_field choose_grams huff_encode_grams write_bits items
      num_fields codemap gram_freqs fstats
      (mk_trail_state 0 (memset_prev_items num_fields) (init_gram_bufs num_fields) 0 3)
      runs trails /\
    Z.of_nat (length trails) = num_cookies /\
    forall i bits bytes,
      trails !! i = Some (bits, bytes) ->
      let content := file_content f in
      exists b0,
        index content (toc_entry content (Z.of_nat i)) = Some b0 /\
        bits = 8 * (toc_entry content (Z.of_nat i + 1) - toc_entry content (Z.of_nat i))
               - Z.land b0 7.
Proof.
  intros Hg Hwg Hn Hsmall Hfuel H.
  destruct (encode_trails_done tdb_item_field init_gram_bufs choose_grams
              huff_encode_grams write_bits items grouped num_cookies num_fields
              codemap gram_freqs fstats huff_advances runs fuel f Hg Hwg Hn Hsmall
              Hfuel H)
    as (trails & Htr & Hlen & Hall & Hmax & _ & Hcontent & Hentry).
  cbv zeta in Hmax, Hentry.
  exists trails. split; [exact Htr|]. split; [lia|].
  intros i bits bytes Hi. cbv zeta.
  set (trs := snd <$> trails) in *.
  set (F0 := 4 * (num_cookies + 1)) in *.
  assert (Hi' : trs !! i = Some bytes).
  { unfold trs. now rewrite list_lookup_fmap, Hi. }
  assert (Hlt : (i < length trails)%nat) by (eapply lookup_lt_Some; eauto).
  replace (Z.of_nat i + 1) with (Z.of_nat (S i)) by lia.
  rewrite !Hentry by lia.
  rewrite (take_S_r _ _ _ Hi'), concat_app, length_app. cbn [concat].
  rewrite app_nil_r.
  pose proof (fun Hb => run_trails_residual tdb_item_field init_gram_bufs choose_grams
                huff_encode_grams write_bits items num_fields codemap gram_freqs
                fstats huff_advances huff_frame write_bits_spec runs _ trails Hb Htr)
    as Hres.
  specialize (Hres eq_refl). rewrite Forall_forall in Hres.
  specialize (Hres (bits, bytes) (list_elem_of_lookup_2 _ _ _ Hi)). cbn [fst snd] in Hres.
  rewrite Forall_forall in Hall.
  destruct (Hall (bits, bytes) (list_elem_of_lookup_2 _ _ _ Hi)) as [Hbits _].
  cbn [fst] in Hbits.
  assert (Hb0 : exists b0, bytes !! 0%nat = Some b0 /\
                           bits = 8 * Z.of_nat (length bytes) - Z.land b0 7).
  { unfold residual_recorded in Hres.
    destruct (Z.eqb_spec (bits mod 8) 0) as [Hz|Hnz].
    - destruct Hres as (Hlen8 & b0 & Hb0 & Hlow). exists b0. split; [exact Hb0|].
      rewrite Hlen8, Hlow. pose proof (Z.div_mod bits 8 ltac:(lia)). lia.
    - destruct Hres as (_ & Hlen8 & (b0 & Hb0 & Hlow) & _). exists b0.
      split; [exact Hb0|]. rewrite Hlen8, Hlow.
      pose proof (Z.div_mod bits 8 ltac:(lia)). lia. }
  destruct Hb0 as (b0 & Hb0 & Hbitlen). exists b0. split; [|lia].
  assert (Htoc : length (concat (le_bytes 4 <$> toc_offsets F0 trs)) = Z.to_nat F0).
  { rewrite length_toc_chunks, length_toc_offsets. unfold trs, F0.
    rewrite length_fmap. lia. }
  unfold index.
  destruct (Z.ltb_spec (F0 + Z.of_nat (length (concat (take i trs)))) 0);
    [unfold F0 in *; lia|].
  replace (Z.to_nat (F0 + Z.of_nat (length (concat (take i trs)))))
    with (length (concat (le_bytes 4 <$> toc_offsets F0 trs))
          + length (concat (take i trs)))%nat by (unfold F0 in *; lia).
  rewrite Hcontent, lookup_app_r by lia.
  replace (_ + _ - _)%nat with (length (concat (take i trs)) + 0)%nat by lia.
  rewrite <- lookup_drop.
  rewrite <- (take_drop_middle trs i bytes Hi') at 2.
  rewrite concat_app, drop_app_length. cbn [concat].
  rewrite lookup_app_l by (apply lookup_lt_Some in Hb0; lia).
  exact Hb0.
Qed.

End TrailLength.

Lemma trail_bit_length_from_file_witness :
  exists trails : list (Z * list Z),
    Z.of_nat (length trails) = 3 /\
    forall i bits bytes,
      trails !! i = Some (bits, bytes) ->
      let content := file_content sc_trail_file in
      exists b0,
        index content (toc_entry content (Z.of_nat i)) = Some b0 /\
        bits = 8 * (toc_entry content (Z.of_nat i + 1) - toc_entry content (Z.of_nat i))
               - Z.land b0 7.
Proof.
  destruct (trail_bit_length_from_file item_low_byte (fun _ => tt) grams_as_items
              huff_bytes write_bits_or sc_items sc_grouped 3 2 tt tt tt
              huff_bytes_advances huff_bytes_frame write_bits_or_spec
              sc_runs 5 sc_trail_file)
    as (trails & _ & Hlen & Hall).
  - reflexivity.
  - reflexivity.
  - reflexivity.
  - lia.
  - simpl. lia.
  - exact sc_encode_trails_done.
  - exists trails. split; [exact Hlen | exact Hall].
Defined.

(** * Utilities *)

(** ** [bits_needed] *)

Lemma bits_needed_loop_spec : forall n fuel x bits,
  (n <= fuel)%nat ->
  0 <= x < 2 ^ Z.of_nat n -> 0 <= bits -> bits + Z.of_nat n < 2 ^ 32 ->
  util.bits_needed_loop fuel x bits
  = Done (bits + (if x =? 0 then 0 else Z.log2 x + 1)).
Proof.
  induction n as [|n IH]; intros fuel x bits Hfuel Hx Hb Hsmall.
  - simpl in Hx. assert (x = 0) as -> by lia. rewrite Z.add_0_r. now destruct fuel.
  - destruct fuel as [|fuel]; [lia|]. cbn [util.bits_needed_loop].
    destruct (Z.eqb_spec x 0) as [->|Hnz]; cbn [negb]; [now rewrite Z.add_0_r|].
    rewrite Nat2Z.inj_succ, Z.pow_succ_r in Hx by lia.
    rewrite (u32_small (bits + 1)) by lia.
    assert (Hy : Z.shiftr x 1 = x / 2)
      by (rewrite Z.shiftr_div_pow2 by lia; reflexivity).
    pose proof (Z.log2_shiftr x 1 ltac:(lia)) as Hlog.
    rewrite (IH fuel);
      [|lia|rewrite Hy; split; [apply Z.div_pos; lia | apply Z.div_lt_upper_bound; lia]
       |lia|lia].
    f_equal. rewrite Hlog, Hy.
    destruct (Z.eqb_spec (x / 2) 0) as [Hz|Hnz2].
    + assert (x = 1) as ->.
      { pose proof (Z.div_mod x 2 ltac:(lia)).
        pose proof (Z.mod_pos_bound x 2 ltac:(lia)). lia. }
      simpl. lia.
    + assert (Hx2 : 2 <= x).
      { destruct (Z.lt_ge_cases x 2) as [Hlt|]; [|easy].
        exfalso. apply Hnz2. apply Z.div_small. lia. }
      pose proof (Z.log2_pos x ltac:(lia)). lia.
Qed.

(** X11. [bits_needed] returns the least number of bits, and at
    least one, in which every value from 0 to [max] can be written: one
    for 0 and for 1, and 32 for the largest values. *)
Theorem bits_needed_is_least fuel max :
  0 <= max < 2 ^ 32 -> (32 <= fuel)%nat ->
  exists bits,
    util.bits_needed fuel max = Done bits /\
    1 <= bits <= 32 /\
    max < 2 ^ bits /\
    forall k, 1 <= k -> max < 2 ^ k -> bits <= k.
Proof.
  intros Hmax Hfuel. unfold util.bits_needed. cbv zeta.
  destruct (Z.eqb_spec max 0) as [->|Hnz]; cbn [negb].
  - exists 1. split; [now destruct fuel|]. repeat split; try lia.
  - rewrite (bits_needed_loop_spec 32) by (simpl; lia).
    destruct (Z.eqb_spec max 0) as [|_]; [easy|].
    exists (Z.log2 max + 1). split; [reflexivity|].
    pose proof (Z.log2_spec max ltac:(lia)) as [Hlo Hhi].
    rewrite <- Z.add_1_r in Hhi.
    assert (Hl32 : Z.log2 max < 32) by (apply Z.log2_lt_pow2; lia).
    pose proof (Z.log2_nonneg max).
    split; [lia|]. split; [exact Hhi|].
    intros k Hk Hfit.
    assert (Z.log2 max < k) by (apply Z.log2_lt_pow2; lia). lia.
Qed.

Lemma bits_needed_is_least_witness :
  exists bits,
    util.bits_needed 32 255 = Done bits /\
    1 <= bits <= 32 /\
    255 < 2 ^ bits /\
    forall k, 1 <= k -> 255 < 2 ^ k -> bits <= k.
Proof. apply (bits_needed_is_least 32 255); lia. Defined.

(** ** [sort_judyl] *)

Lemma util_qsort_insert_perm x l : util.qsort_insert x l ≡ₚ x :: l.
Proof.
  induction l as [|y l IH]; simpl; [reflexivity|].
  destruct (_ <? 0); [reflexivity|]. rewrite IH. apply Permutation_swap.
Qed.

Lemma util_qsort_perm l : util.qsort l ≡ₚ l.
Proof.
  induction l as [|x l IH]; simpl; [reflexivity|].
  now rewrite util_qsort_insert_perm, IH.
Qed.

Lemma util_compare_neg x y :
  (util.compare x y <? 0) = (util.value y <? util.value x).
Proof.
  unfold util.compare.
  destruct (Z.gtb_spec (util.value x) (util.value y));
    destruct (Z.ltb_spec (util.value x) (util.value y));
    destruct (Z.ltb_spec (util.value y) (util.value x)); simpl; try easy; lia.
Qed.

Lemma util_qsort_insert_descending hi x l :
  util.value x <= hi ->
  util.descending hi l = true ->
  util.descending hi (util.qsort_insert x l) = true.
Proof.
  revert hi. induction l as [|y l IH]; intros hi Hx Hl; simpl in *.
  - rewrite andb_true_r. now apply Z.leb_le.
  - apply andb_true_iff in Hl as [Hy Hl]. apply Z.leb_le in Hy.
    rewrite util_compare_neg.
    destruct (Z.ltb_spec (util.value y) (util.value x)); simpl.
    + rewrite Hl, andb_true_r. apply andb_true_iff. split; apply Z.leb_le; lia.
    + apply andb_true_iff. split; [now apply Z.leb_le|]. apply IH; [lia | easy].
Qed.

Lemma util_qsort_descending hi l :
  Forall (fun p => util.value p <= hi) l ->
  util.descending hi (util.qsort l) = true.
Proof.
  induction 1 as [|x l Hx Hl IH]; simpl; [easy|].
  now apply util_qsort_insert_descending.
Qed.

Lemma judy_sorted_app lo done k v rest :
  util.judy_sorted lo (done ++ (k, v) :: rest) = true ->
  Forall (fun e => lo <= fst e < k) done /\ lo <= k < 2 ^ 64 /\
  util.judy_sorted (k + 1) rest = true.
Proof.
  revert lo. induction done as [|e done IH]; intros lo H; simpl in H.
  - rewrite !andb_true_iff in H. destruct H as [[H1 H2] H3].
    apply Z.leb_le in H1. apply Z.ltb_lt in H2. auto.
  - rewrite !andb_true_iff in H. destruct H as [[H1 H2] H3].
    apply Z.leb_le in H1. apply Z.ltb_lt in H2.
    apply IH in H3 as (Hall & Hk & Hrest).
    split; [|split; [lia | easy]].
    constructor; [lia|]. eapply Forall_impl; [exact Hall|]. simpl. lia.
Qed.

Lemma judy_sorted_head lo judy e :
  util.judy_sorted lo judy = true -> head judy = Some e -> lo <= fst e.
Proof.
  destruct judy as [|e0 rest]; [easy|]. simpl. intros H [= <-].
  rewrite !andb_true_iff in H. destruct H as [[H1 _] _]. now apply Z.leb_le.
Qed.

Lemma JLN_next lo done k v rest :
  util.judy_sorted lo (done ++ (k, v) :: rest) = true ->
  util.JLN (done ++ (k, v) :: rest) k = head rest.
Proof.
  intros H. apply judy_sorted_app in H as (Hall & Hk & Hrest).
  unfold util.JLN. induction Hall as [|e done He _ IH]; simpl.
  - rewrite Z.ltb_irrefl. destruct rest as [|e rest]; [reflexivity|].
    pose proof (judy_sorted_head _ _ e Hrest eq_refl). simpl.
    destruct (Z.ltb_spec k (fst e)); [reflexivity | lia].
  - destruct (Z.ltb_spec k (fst e)); [lia | exact IH].
Qed.

Lemma sort_judyl_loop_fill judy :
  util.judy_sorted 0 judy = true -> Z.of_nat (length judy) < 2 ^ 32 ->
  forall rest done fuel,
    judy = done ++ rest -> (length rest <= fuel)%nat ->
    util.sort_judyl_loop fuel judy (head rest) (Z.of_nat (length done))
      (((fun e => util.mk_sortpair (fst e) (snd e)) <$> done)
       ++ replicate (length rest) (util.mk_sortpair 0 0))
    = Done ((fun e => util.mk_sortpair (fst e) (snd e)) <$> judy).
Proof.
  intros Hsorted Hlen. induction rest as [|[k v] rest IH]; intros done fuel Hj Hfuel.
  - simpl. rewrite !app_nil_r in *. subst. now destruct fuel.
  - destruct fuel as [|fuel]; [simpl in Hfuel; lia|].
    cbn [head util.sort_judyl_loop].
    rewrite length_app, length_fmap, length_replicate.
    destruct (Z.ltb_spec (Z.of_nat (length done))
                (Z.of_nat (length done + length ((k, v) :: rest)))) as [_|Hge];
      [|simpl in Hge; lia].
    rewrite Nat2Z.id. cbn [replicate length].
    rewrite insert_app_r_alt by now rewrite length_fmap.
    rewrite length_fmap, Nat.sub_diag. cbn [insert list_insert].
    assert (Hn : Z.of_nat (length done) + 1 < 2 ^ 32).
    { subst judy. rewrite length_app in Hlen. simpl in Hlen. lia. }
    rewrite u32_small by lia.
    rewrite Hj at 2. rewrite (JLN_next 0) by now rewrite <- Hj.
    specialize (IH (done ++ [(k, v)]) fuel).
    rewrite length_app, fmap_app in IH. simpl in IH.
    rewrite cons_middle, app_assoc.
    replace (Z.of_nat (length done + 1)) with (Z.of_nat (length done) + 1) in IH by lia.
    apply IH; [now rewrite <- app_assoc | simpl in Hfuel; lia].
Qed.

Lemma JLC_all judy : forall lo,
  0 <= lo -> util.judy_sorted lo judy = true ->
  util.JLC judy 0 (u64 (-1)) = Z.of_nat (length judy).
Proof.
  unfold util.JLC. induction judy as [|e judy IH]; intros lo Hlo H; [reflexivity|].
  simpl in H. rewrite !andb_true_iff in H. destruct H as [[H1 H2] H3].
  apply Z.leb_le in H1. apply Z.ltb_lt in H2.
  rewrite filter_cons_True by (change (u64 (-1)) with (2 ^ 64 - 1); lia).
  simpl length. specialize (IH (fst e + 1) ltac:(lia) H3). lia.
Qed.

(** X12. [sort_judyl] returns every entry of the array once, the
    entries with the greater values first, and sets [*num_items] to their
    number. *)
Theorem sort_judyl_sorts_by_value fuel judy :
  util.judy_sorted 0 judy = true ->
  Z.of_nat (length judy) < 2 ^ 32 ->
  (length judy <= fuel)%nat ->
  exists pairs,
    util.sort_judyl fuel judy = Done (pairs, Z.of_nat (length judy)) /\
    util.entry_of <$> pairs ≡ₚ judy /\
    forall hi, Forall (fun e => snd e <= hi) judy -> util.descending hi pairs = true.
Proof.
  intros Hsorted Hlen Hfuel. unfold util.sort_judyl. cbv zeta.
  rewrite (JLC_all judy 0) by easy. rewrite Nat2Z.id.
  assert (Hfirst : util.JLF judy 0 = head judy).
  { unfold util.JLF. destruct judy as [|e judy]; [reflexivity|].
    pose proof (judy_sorted_head 0 _ e Hsorted eq_refl). simpl.
    destruct (Z.leb_spec 0 (fst e)); [reflexivity | lia]. }
  rewrite Hfirst.
  pose proof (sort_judyl_loop_fill judy Hsorted Hlen judy [] fuel eq_refl Hfuel) as Hloop.
  cbn [length fmap list_fmap app] in Hloop. change (Z.of_nat 0) with 0 in Hloop.
  rewrite Hloop.
  cbn [mbind outcome_bind].
  eexists. split; [reflexivity|]. split.
  - rewrite util_qsort_perm, <- list_fmap_compose.
    rewrite (list_fmap_ext _ id judy); [now rewrite list_fmap_id|].
    now intros i [k v] _.
  - intros hi Hhi. apply util_qsort_descending.
    apply Forall_fmap. eapply Forall_impl; [exact Hhi|]. now intros [k v].
Qed.

Lemma sort_judyl_sorts_by_value_witness :
  exists pairs,
    util.sort_judyl 3 [(2, 10); (5, 30); (9, 20)] = Done (pairs, 3) /\
    util.entry_of <$> pairs ≡ₚ [(2, 10); (5, 30); (9, 20)] /\
    forall hi, Forall (fun e => snd e <= hi) [(2, 10); (5, 30); (9, 20)] ->
               util.descending hi pairs = true.
Proof.
  apply (sort_judyl_sorts_by_value 3 [(2, 10); (5, 30); (9, 20)]).
  - reflexivity.
  - simpl. lia.
  - simpl. lia.
Defined.

(** ** [parse_uint64] *)

Lemma string_app_nil_r (s : string) : (s ++ "")%string = s.
Proof. induction s as [|c s IH]; simpl; [reflexivity | now rewrite IH]. Qed.

Lemma string_app_assoc (s t u : string) : ((s ++ t) ++ u = s ++ (t ++ u))%string.
Proof. induction s as [|c s IH]; simpl; [reflexivity | now rewrite IH]. Qed.

Lemma uint_value_acc d : forall acc,
  Z.pos (Pos.of_uint_acc d acc) = util.uint_value d (Z.pos acc).
Proof.
  induction d; intros acc; simpl; try reflexivity; rewrite IHd; f_equal; lia.
Qed.

Lemma uint_value_of_uint d : Z.of_N (Pos.of_uint d) = util.uint_value d 0.
Proof.
  induction d; simpl; try reflexivity; try exact IHd; apply uint_value_acc.
Qed.

Lemma read_digits_uint d : forall rest acc any,
  util.read_digits (NilEmpty.string_of_uint d ++ rest) acc any
  = util.read_digits rest (util.uint_value d acc)
      (any || match d with Decimal.Nil => false | _ => true end).
Proof.
  induction d; intros rest acc any; cbn [NilEmpty.string_of_uint String.append];
    [now rewrite orb_false_r | ..];
    cbn [util.read_digits util.digit]; simpl; rewrite IHd;
    rewrite ?Z.add_0_r, orb_true_r; now destruct d.
Qed.

Lemma to_uint_nonnil n : N.to_uint n <> Decimal.Nil.
Proof. destruct n; [discriminate | apply Unsigned.to_uint_nonnil]. Qed.

Lemma print_unsigned_digits x :
  print_unsigned x = NilEmpty.string_of_uint (N.to_uint (Z.to_N x)).
Proof.
  unfold print_unsigned, NilZero.string_of_uint.
  pose proof (to_uint_nonnil (Z.to_N x)). now destruct (N.to_uint (Z.to_N x)).
Qed.

Lemma read_digits_print x rest any :
  0 <= x ->
  util.read_digits (print_unsigned x ++ rest) 0 any = util.read_digits rest x true.
Proof.
  intros Hx. rewrite print_unsigned_digits, read_digits_uint.
  rewrite <- uint_value_of_uint.
  change (Pos.of_uint (N.to_uint (Z.to_N x))) with (N.of_uint (N.to_uint (Z.to_N x))).
  rewrite DecimalN.Unsigned.of_to, Z2N.id by easy.
  pose proof (to_uint_nonnil (Z.to_N x)).
  destruct (N.to_uint (Z.to_N x)); try easy; now rewrite orb_true_r.
Qed.

(** A number in decimal starts with a digit, which [strtoull] takes
    neither for white space nor for a sign. *)
Lemma strtoull_print einval x rest :
  0 <= x ->
  util.strtoull einval (print_unsigned x ++ rest)
  = let '(v, any, p) := util.read_digits (print_unsigned x ++ rest) 0 false in
    if negb any then (0, (print_unsigned x ++ rest)%string, einval)
    else if v >? util.ULLONG_MAX then (util.ULLONG_MAX, p, true)
    else (v, p, false).
Proof.
  intros Hx. unfold util.strtoull. rewrite print_unsigned_digits.
  pose proof (to_uint_nonnil (Z.to_N x)).
  destruct (N.to_uint (Z.to_N x)); try easy; reflexivity.
Qed.

Lemma skip_spaces_app ws s :
  util.all_spaces ws = true -> util.skip_spaces (ws ++ s) = util.skip_spaces s.
Proof.
  induction ws as [|c ws IH]; intros H; [reflexivity|].
  simpl in H. apply andb_true_iff in H as [Hc Hws].
  cbn [String.append util.skip_spaces]. rewrite Hc. now apply IH.
Qed.

(** X13. [parse_uint64] reads back what [%llu] prints: a number in
    decimal is returned as it is when it is below [2^64], and refused
    from [2^64] on. *)
Theorem parse_uint64_of_printed einval x :
  0 <= x ->
  util.parse_uint64 einval (print_unsigned x)
  = if x <? 2 ^ 64 then util.Number x else util.Invalid_unsigned_integer.
Proof.
  intros Hx. unfold util.parse_uint64.
  rewrite <- (string_app_nil_r (print_unsigned x)) at 1.
  rewrite strtoull_print, read_digits_print by easy.
  cbn [util.read_digits negb]. unfold util.ULLONG_MAX.
  destruct (Z.gtb_spec x (2 ^ 64 - 1)); destruct (Z.ltb_spec x (2 ^ 64));
    try lia; reflexivity.
Qed.

Lemma parse_uint64_of_printed_witness :
  util.parse_uint64 false (print_unsigned 18446744073709551615)
  = if 18446744073709551615 <? 2 ^ 64
    then util.Number 18446744073709551615 else util.Invalid_unsigned_integer.
Proof. apply (parse_uint64_of_printed false 18446744073709551615). lia. Defined.

(** X14. Anything but the end of the string after the digits makes
    [parse_uint64] refuse the string. *)
Theorem parse_uint64_refuses_trailing einval x c rest :
  0 <= x -> util.digit c = None -> c <> zero ->
  util.parse_uint64 einval (print_unsigned x ++ String c rest)
  = util.Invalid_unsigned_integer.
Proof.
  intros Hx Hc Hnz. unfold util.parse_uint64.
  rewrite strtoull_print, read_digits_print by easy.
  cbn [util.read_digits]. rewrite Hc. cbn [negb].
  assert (Hp : Ascii.eqb c zero = false) by now apply Ascii.eqb_neq.
  destruct (x >? util.ULLONG_MAX); cbn [util.deref]; now rewrite Hp.
Qed.

Lemma parse_uint64_refuses_trailing_witness :
  util.parse_uint64 false (print_unsigned 12 ++ String "k" EmptyString)
  = util.Invalid_unsigned_integer.
Proof.
  apply (parse_uint64_refuses_trailing false 12 "k" EmptyString).
  - lia.
  - reflexivity.
  - discriminate.
Defined.

(** X15. [parse_uint64] takes white space and a sign before the
    digits; after a minus sign it returns the number negated in 64 bits,
    so that [-1] reads as [2^64 - 1]. *)
Theorem parse_uint64_takes_sign einval ws x :
  util.all_spaces ws = true -> 0 <= x < 2 ^ 64 ->
  util.parse_uint64 einval (ws ++ print_unsigned x) = util.Number x /\
  util.parse_uint64 einval (ws ++ String "+" (print_unsigned x)) = util.Number x /\
  util.parse_uint64 einval (ws ++ String "-" (print_unsigned x))
  = util.Number (u64 (- x)).
Proof.
  intros Hws Hx.
  assert (Hread : util.read_digits (print_unsigned x) 0 false = (x, true, EmptyString)).
  { rewrite <- (string_app_nil_r (print_unsigned x)).
    rewrite read_digits_print by lia. reflexivity. }
  assert (Hfit : (x >? util.ULLONG_MAX) = false).
  { unfold util.ULLONG_MAX. destruct (Z.gtb_spec x (2 ^ 64 - 1)); [lia | reflexivity]. }
  unfold util.parse_uint64, util.strtoull. rewrite !skip_spaces_app by easy.
  split; [|split].
  - assert (Hhead : util.take_sign (util.skip_spaces (print_unsigned x))
                    = (false, print_unsigned x)).
    { rewrite print_unsigned_digits. pose proof (to_uint_nonnil (Z.to_N x)).
      destruct (N.to_uint (Z.to_N x)); try easy; reflexivity. }
    rewrite Hhead. cbv beta iota zeta. rewrite Hread. cbn [negb]. now rewrite Hfit.
  - change (util.take_sign (util.skip_spaces (String "+" (print_unsigned x))))
      with (false, print_unsigned x).
    cbv beta iota zeta. rewrite Hread. cbn [negb]. now rewrite Hfit.
  - change (util.take_sign (util.skip_spaces (String "-" (print_unsigned x))))
      with (true, print_unsigned x).
    cbv beta iota zeta. rewrite Hread. cbn [negb]. now rewrite Hfit.
Qed.

Lemma parse_uint64_takes_sign_witness :
  util.parse_uint64 false (" " ++ String "-" (print_unsigned 1))
  = util.Number 18446744073709551615.
Proof.
  apply (parse_uint64_takes_sign false " " 1); [reflexivity | lia].
Defined.

(** X16. A string in which no digit follows the white space and the
    sign is refused, with one exception: the empty string reads as 0
    where [strtoull] leaves [errno] alone when it converts nothing. *)
Theorem parse_uint64_without_digits einval str :
  (forall c rest, snd (util.take_sign (util.skip_spaces str)) = String c rest ->
                  util.digit c = None) ->
  util.parse_uint64 einval str
  = if Ascii.eqb (util.deref str) zero
    then (if einval then util.Invalid_unsigned_integer else util.Number 0)
    else util.Invalid_unsigned_integer.
Proof.
  intros Hnone. unfold util.parse_uint64, util.strtoull.
  destruct (util.take_sign (util.skip_spaces str)) as [minus s] eqn:Hsign.
  cbn [snd] in Hnone.
  assert (Hread : util.read_digits s 0 false = (0, false, s)).
  { destruct s as [|c rest]; [reflexivity|].
    cbn [util.read_digits]. now rewrite (Hnone c rest eq_refl). }
  rewrite Hread. cbn [negb].
  destruct (Ascii.eqb (util.deref str) zero); cbn [negb orb]; [|reflexivity].
  now destruct einval.
Qed.

Lemma parse_uint64_without_digits_witness :
  util.parse_uint64 false "" = util.Number 0 /\
  util.parse_uint64 true "" = util.Invalid_unsigned_integer /\
  util.parse_uint64 false " -x" = util.Invalid_unsigned_integer.
Proof.
  split; [|split].
  - apply (parse_uint64_without_digits false ""). intros c rest H. discriminate H.
  - apply (parse_uint64_without_digits true ""). intros c rest H. discriminate H.
  - apply (parse_uint64_without_digits false " -x").
    intros c rest H. injection H as <- _. reflexivity.
Defined.

(** ** [dsfmt_shuffle] *)

Lemma insert_head_perm {A} (l : list A) j t a :
  l !! j = Some t -> t :: <[j := a]> l ≡ₚ a :: l.
Proof.
  revert j. induction l as [|b l IH]; intros [|j] H; try easy; simpl in *.
  - injection H as ->. apply Permutation_swap.
  - rewrite Permutation_swap, (IH j H). apply Permutation_swap.
Qed.

(** Exchanging two slots of an array. *)
Lemma swap_perm {A} (arr : list A) : forall i j t x,
  arr !! j = Some t -> arr !! i = Some x ->
  <[i := t]> (<[j := x]> arr) ≡ₚ arr.
Proof.
  induction arr as [|a arr IH]; intros [|i] [|j] t x Hj Hi; try easy; simpl in *.
  - injection Hj as ->. reflexivity.
  - injection Hi as ->. now apply insert_head_perm.
  - injection Hj as ->. rewrite <- (insert_head_perm arr i x t Hi). reflexivity.
  - now rewrite (IH i j t x).
Qed.

Section ShuffleProofs.

Context {dsfmt_t : Type}.
Variable dsfmt_init_gen_rand : Z -> dsfmt_t.
Variable dsfmt_genrand_close_open : dsfmt_t -> dsfmt_t * spec_float.

Local Abbreviation loop := (util.dsfmt_shuffle_loop dsfmt_genrand_close_open).
Local Abbreviation next_state := (fun s => fst (dsfmt_genrand_close_open s)).

Lemma dsfmt_shuffle_loop_perm : forall count i len state arr,
  (exists arr', loop count i len state arr = Done arr' /\ arr' ≡ₚ arr) \/
  loop count i len state arr = Undefined.
Proof.
  induction count as [|count IH]; intros i len state arr; [left; now exists arr|].
  cbn [util.dsfmt_shuffle_loop].
  destruct (dsfmt_genrand_close_open state) as [state' r].
  destruct (util.shuffle_index i len r) as [j|]; [|now right].
  cbn [of_option mbind outcome_bind].
  destruct (index arr j) as [t|] eqn:Hj; [|now right].
  cbn [of_option mbind outcome_bind].
  destruct (index arr i) as [x|] eqn:Hi; [|now right].
  cbn [of_option mbind outcome_bind].
  apply index_Some in Hj as [_ Hj]. apply index_Some in Hi as [_ Hi].
  destruct (IH (i + 1) len state'
              (<[Z.to_nat i := t]> (<[Z.to_nat j := x]> arr)))
    as [(arr' & -> & Hperm)| ->]; [left | now right].
  exists arr'. split; [reflexivity|]. rewrite Hperm. now apply swap_perm.
Qed.

(** X17. [dsfmt_shuffle] moves the elements of the array and changes
    none: when the call returns, the array holds the elements it held
    before, each as often as before; and an array of one element or of
    none is returned as it is. A call that does not return has read
    outside the array. *)
Theorem dsfmt_shuffle_permutes arr len seed :
  ((exists arr',
      util.dsfmt_shuffle dsfmt_init_gen_rand dsfmt_genrand_close_open arr len seed
      = Done arr' /\ arr' ≡ₚ arr /\ length arr' = length arr) \/
   util.dsfmt_shuffle dsfmt_init_gen_rand dsfmt_genrand_close_open arr len seed
   = Undefined) /\
  (len <= 1 ->
   util.dsfmt_shuffle dsfmt_init_gen_rand dsfmt_genrand_close_open arr len seed
   = Done arr).
Proof.
  unfold util.dsfmt_shuffle. split.
  - destruct (len >? 1); [|left; now exists arr].
    destruct (dsfmt_shuffle_loop_perm (Z.to_nat (len - 1)) 0 len
                (dsfmt_init_gen_rand seed) arr) as [(arr' & -> & Hperm)| ->];
      [left | now right].
    exists arr'. split; [reflexivity|]. split; [exact Hperm|].
    now apply Permutation_length.
  - intros Hlen. destruct (Z.gtb_spec len 1); [lia | reflexivity].
Qed.

Lemma dsfmt_shuffle_loop_app : forall n m i len state arr,
  loop (n + m) i len state arr
  = (arr' ← loop n i len state arr;
     loop m (i + Z.of_nat n) len (Nat.iter n next_state state) arr').
Proof.
  induction n as [|n IH]; intros m i len state arr.
  - cbn [Nat.add util.dsfmt_shuffle_loop mbind outcome_bind Nat.iter nat_rect].
    now rewrite Z.add_0_r.
  - cbn [Nat.add util.dsfmt_shuffle_loop].
    rewrite Nat.iter_succ_r.
    destruct (dsfmt_genrand_close_open state) as [state' r] eqn:Hgen.
    destruct (util.shuffle_index i len r) as [j|]; [|reflexivity].
    cbn [of_option mbind outcome_bind].
    destruct (index arr j) as [t|]; [|reflexivity].
    cbn [of_option mbind outcome_bind].
    destruct (index arr i) as [x|]; [|reflexivity].
    cbn [of_option mbind outcome_bind].
    rewrite IH. cbn [fst].
    now replace (i + 1 + Z.of_nat n) with (i + Z.of_nat (S n)) by lia.
Qed.

(** X18. The index of a step can come out as [len]. With six
    elements, when the fifth draw is [1 - 2^-52], the greatest value
    below 1 with 52 bits after the point, the sum [4 + 2 * (1 - 2^-52)]
    rounds to 6 in [double], and the call reads [arr[6]], past the end
    of the array. *)
Theorem dsfmt_shuffle_overruns arr seed :
  length arr = 6%nat ->
  snd (dsfmt_genrand_close_open (Nat.iter 4 next_state (dsfmt_init_gen_rand seed)))
  = util.below_one ->
  util.shuffle_index 4 6 util.below_one = Some 6 /\
  util.dsfmt_shuffle dsfmt_init_gen_rand dsfmt_genrand_close_open arr 6 seed
  = Undefined.
Proof.
  intros Hlen Hdraw. split; [vm_compute; reflexivity|].
  unfold util.dsfmt_shuffle. change (6 >? 1) with true. cbv iota.
  change (Z.to_nat (6 - 1)) with (4 + 1)%nat.
  rewrite dsfmt_shuffle_loop_app.
  destruct (dsfmt_shuffle_loop_perm 4 0 6 (dsfmt_init_gen_rand seed) arr)
    as [(arr' & -> & Hperm)| ->]; [|reflexivity].
  cbn [mbind outcome_bind util.dsfmt_shuffle_loop].
  destruct (dsfmt_genrand_close_open _) as [state' r]. cbn [snd] in Hdraw. subst r.
  change (0 + Z.of_nat 4) with 4.
  replace (util.shuffle_index 4 6 util.below_one) with (Some 6)
    by (vm_compute; reflexivity).
  cbn [of_option mbind outcome_bind].
  apply Permutation_length in Hperm. unfold index.
  change (6 <? 0) with false. cbv iota.
  rewrite (lookup_ge_None_2 arr' (Z.to_nat 6)) by (rewrite Hperm, Hlen; apply le_n).
  reflexivity.
Qed.

End ShuffleProofs.

Lemma dsfmt_shuffle_overruns_witness :
  util.shuffle_index 4 6 util.below_one = Some 6 /\
  util.dsfmt_shuffle (fun _ => tt) (fun s => (s, util.below_one)) [1; 2; 3; 4; 5; 6] 6 0
  = Undefined.
Proof.
  apply (dsfmt_shuffle_overruns (fun _ => tt) (fun s => (s, util.below_one))
           [1; 2; 3; 4; 5; 6] 0); reflexivity.
Defined.

Example dsfmt_shuffle_returns :
  util.dsfmt_shuffle (fun _ => tt)
    (fun s => (s, S754_finite false 4503599627370496 (-53))) [1; 2; 3; 4; 5; 6] 6 0
  = Done [4; 1; 5; 3; 6; 2].
Proof. vm_compute. reflexivity. Qed.

(** * The encoder on no input *)

Section EmptyInput.

Variable tdb_item_field : Z -> Z.
Context {gram gram_bufs codemap_t unigram_freqs_t gram_freqs_t
         field_stats_t codebook_t : Type}.
Variable init_gram_bufs : Z -> gram_bufs.
Variable choose_grams :
  list Z -> gram_freqs_t -> gram_bufs -> tdb_cookie_event -> list gram * gram_bufs.
Variable huff_encode_grams :
  codemap_t -> list gram -> Z -> Z -> field_stats_t -> outcome (Z * Z).
Variable write_bits : Z -> Z -> Z -> Z.
Variable collect_unigrams :
  list tdb_cookie_event -> Z -> list Z -> Z -> unigram_freqs_t.
Variable make_grams :
  list tdb_cookie_event -> Z -> list Z -> Z -> unigram_freqs_t -> gram_freqs_t.
Variable huff_create_codemap : gram_freqs_t -> codemap_t.
Variable huff_field_stats : list Z -> Z -> Z -> field_stats_t.
Variable huff_create_codebook : codemap_t -> codebook_t.

(** X19. With no cookie and no event [tdb_encode] returns and writes
    all three files. The test of the invalid ratio divides zero by zero
    and lets the run pass; the least timestamp is written as
    [4294967295] and the greatest as [0], the values the scan of the
    events starts from; and the trail file is the one slot of its table
    of contents, which holds 4, the size of the file. *)
Theorem tdb_encode_nothing fuel events items num_fields field_cardinalities :
  exists f codebook,
    tdb_encode tdb_item_field init_gram_bufs choose_grams huff_encode_grams
      write_bits collect_unigrams make_grams huff_create_codemap
      huff_field_stats huff_create_codebook fuel [] 0 events 0 items num_fields
      field_cardinalities
    = (mk_output_files (Some (store_info 0 0 4294967295 0 0)) (Some f) (Some codebook),
       Done tt) /\
    store_info 0 0 4294967295 0 0
    = ("0 0 4294967295 0 0" ++ newline)%string /\
    file_content f = [4; 0; 0; 0].
Proof.
  unfold tdb_encode.
  change (timestamp_range events 0) with (Done (A := Z * Z) (UINT32_MAX, 0)).
  cbv iota beta.
  assert (Hg : group_events fuel events [] 0 UINT32_MAX = Done ([], 0))
    by (vm_compute; reflexivity).
  rewrite Hg. cbv iota beta zeta.
  rewrite encode_trails_empty by (lia || (unfold UINT32_MAX; lia)).
  eexists _, _. split; [reflexivity|]. split; reflexivity.
Qed.

End EmptyInput.

(** * The two orderings *)

(** X20. Both [compare] functions order consistently, as [qsort]
    asks of its argument: exchanging the operands changes the sign of
    the result, the order is transitive, and the result is zero only
    for equal keys. The grouped records are ordered by ascending
    timestamp, the pairs by descending value. *)
Theorem compare_is_consistent :
  (forall x y, compare x y = - compare y x) /\
  (forall x y z, compare x y <= 0 -> compare y z <= 0 -> compare x z <= 0) /\
  (forall x y, compare x y < 0 <-> timestamp x < timestamp y) /\
  (forall x y, compare x y = 0 <-> timestamp x = timestamp y) /\
  (forall x y, util.compare x y = - util.compare y x) /\
  (forall x y z, util.compare x y <= 0 -> util.compare y z <= 0 ->
                 util.compare x z <= 0) /\
  (forall x y, util.compare x y < 0 <-> util.value y < util.value x) /\
  (forall x y, util.compare x y = 0 <-> util.value x = util.value y).
Proof.
  unfold compare, util.compare.
  repeat split; intros;
    repeat match goal with
           | H : context [?a >? ?b] |- _ => destruct (Z.gtb_spec a b)
           | H : context [?a <? ?b] |- _ => destruct (Z.ltb_spec a b)
           | |- context [?a >? ?b] => destruct (Z.gtb_spec a b)
           | |- context [?a <? ?b] => destruct (Z.ltb_spec a b)
           end; lia.
Qed.

(** * From the events to the table of contents *)

Section EndToEnd.

Variable tdb_item_field : Z -> Z.
Context {gram gram_bufs codemap_t unigram_freqs_t gram_freqs_t
         field_stats_t codebook_t : Type}.
Variable init_gram_bufs : Z -> gram_bufs.
Variable choose_grams :
  list Z -> gram_freqs_t -> gram_bufs -> tdb_cookie_event -> list gram * gram_bufs.
Variable huff_encode_grams :
  codemap_t -> list gram -> Z -> Z -> field_stats_t -> outcome (Z * Z).
Variable write_bits : Z -> Z -> Z -> Z.
Variable collect_unigrams :
  list tdb_cookie_event -> Z -> list Z -> Z -> unigram_freqs_t.
Variable make_grams :
  list tdb_cookie_event -> Z -> list Z -> Z -> unigram_freqs_t -> gram_freqs_t.
Variable huff_create_codemap : gram_freqs_t -> codemap_t.
Variable huff_field_stats : list Z -> Z -> Z -> field_stats_t.
Variable huff_create_codebook : codemap_t -> codebook_t.

(** [huff_encode_grams] moves the bit offset forward only, and fails
    rather than reach [UINT32_MAX] bits, whatever the code map. *)
Hypothesis huff_advances : forall codemap fstats grams buf offs buf' offs',
  huff_encode_grams codemap grams buf offs fstats = Done (buf', offs') ->
  offs <= offs' < UINT32_MAX.

(** X21. When [tdb_encode] returns on events that are all grouped,
    as many records as events, it has written the three files, and the
    table of contents of the trail file has one entry for each cookie
    and one more: the first entry is the size of the table, the entries
    increase strictly, and the last one is the size of the file, which is
    below [2^32 - 1]. *)
Theorem tdb_encode_table_of_contents fuel cookie_pointers num_cookies events
    num_events items num_fields field_cardinalities files lo hi grouped maxd :
  0 <= num_cookies -> (num_cookies + 1) * 4 < 2 ^ 64 ->
  timestamp_range events num_events = Done (lo, hi) ->
  group_events fuel events cookie_pointers num_cookies lo = Done (grouped, maxd) ->
  num_events = Z.of_nat (length grouped) ->
  (length grouped <= fuel)%nat ->
  tdb_encode tdb_item_field init_gram_bufs choose_grams huff_encode_grams
    write_bits collect_unigrams make_grams huff_create_codemap
    huff_field_stats huff_create_codebook fuel cookie_pointers num_cookies
    events num_events items num_fields field_cardinalities
  = (files, Done tt) ->
  exists f codebook,
    files = mk_output_files
              (Some (store_info num_events num_cookies lo hi maxd))
              (Some f) (Some codebook) /\
    toc_entry (file_content f) 0 = 4 * (num_cookies + 1) /\
    (forall i, 0 <= i < num_cookies ->
       toc_entry (file_content f) i < toc_entry (file_content f) (i + 1)) /\
    toc_entry (file_content f) num_cookies = file_size f /\
    file_size f < 2 ^ 32 - 1.
Proof.
  intros Hnc Hsmall Hrange Hgroup Hne Hfuel Henc.
  unfold tdb_encode in Henc. rewrite Hrange, Hgroup in Henc.
  cbv zeta in Henc.
  set (gram_freqs := make_grams grouped num_events items num_fields
                       (collect_unigrams grouped num_events items num_fields)) in *.
  set (codemap := huff_create_codemap gram_freqs) in *.
  set (fstats := huff_field_stats field_cardinalities num_fields maxd) in *.
  destruct (encode_trails _ _ _ _ _ _ _ _ _ _ _ _ _ _) as [out [[]| | |]] eqn:Htrails;
    try discriminate.
  injection Henc as <-.
  apply group_events_well_grouped in Hgroup as (runs & Hg & Hlen & Hwg).
  assert (Hn : num_cookies = Z.of_nat (length runs)) by lia.
  rewrite Hne in Htrails.
  assert (Hout : exists f, out = Some f).
  { unfold encode_trails in Htrails. cbv zeta in Htrails.
    destruct (_ >=? UINT32_MAX); [discriminate|].
    destruct (if _ <? _ then _ else _); [|discriminate..].
    destruct (encode_cookies _ _ _ _ _ _ _ _ _ _ _ _ _ _ _ _ _) as [o [| | |]];
      injection Htrails as <-; eauto. }
  destruct Hout as [f ->].
  destruct (encode_trails_done tdb_item_field init_gram_bufs choose_grams
              huff_encode_grams write_bits items grouped num_cookies num_fields
              codemap gram_freqs fstats (huff_advances codemap fstats) runs fuel f
              Hg Hwg Hn Hsmall Hfuel Htrails)
    as (trails & _ & Hlt & Hall & Hmax & _ & Hcontent & Hentry).
  cbv zeta in Hmax, Hentry.
  set (trs := snd <$> trails) in *.
  assert (Htl : length trs = length trails) by apply length_fmap.
  exists f, (store_codebook huff_create_codebook codemap).
  split; [reflexivity|]. split; [|split; [|split]].
  - change 0 with (Z.of_nat 0) at 1. rewrite (Hentry 0%nat) by lia. simpl. lia.
  - intros i Hi.
    replace i with (Z.of_nat (Z.to_nat i)) by lia.
    replace (Z.of_nat (Z.to_nat i) + 1) with (Z.of_nat (S (Z.to_nat i))) by lia.
    rewrite !Hentry by lia.
    destruct (lookup_lt_is_Some_2 trails (Z.to_nat i)) as [[bits bytes] Hi']; [lia|].
    assert (Hb : trs !! Z.to_nat i = Some bytes).
    { unfold trs. now rewrite list_lookup_fmap, Hi'. }
    rewrite (take_S_r _ _ _ Hb), concat_app, length_app. cbn [concat].
    rewrite app_nil_r.
    rewrite Forall_forall in Hall.
    pose proof (Hall (bits, bytes) (list_elem_of_lookup_2 _ _ _ Hi')) as [Hbits Hl].
    simpl in Hbits, Hl.
    assert (1 <= (bits + 7) / 8) by (Z.div_mod_to_equations; lia).
    lia.
  - assert (Hsize : file_size f = 4 * (num_cookies + 1) + Z.of_nat (length (concat trs))).
    { unfold file_size. rewrite Hcontent, length_app, length_toc_chunks,
        length_toc_offsets. lia. }
    replace num_cookies with (Z.of_nat (length trails)) at 1 by lia.
    rewrite Hsize, Hentry by lia.
    now rewrite <- Htl, firstn_all.
  - assert (Hsize : file_size f = 4 * (num_cookies + 1) + Z.of_nat (length (concat trs))).
    { unfold file_size. rewrite Hcontent, length_app, length_toc_chunks,
        length_toc_offsets. lia. }
    rewrite Hsize. unfold UINT32_MAX in Hmax. lia.
Qed.

End EndToEnd.

Lemma tdb_encode_table_of_contents_witness :
  exists f codebook,
    fst (example_encode 5 sc_cookie_pointers sc_events sc_items 2)
    = mk_output_files (Some (store_info 5 3 100 500 400)) (Some f) (Some codebook) /\
    toc_entry (file_content f) 0 = 4 * (3 + 1) /\
    (forall i, 0 <= i < 3 ->
       toc_entry (file_content f) i < toc_entry (file_content f) (i + 1)) /\
    toc_entry (file_content f) 3 = file_size f /\
    file_size f < 2 ^ 32 - 1.
Proof.
  apply (tdb_encode_table_of_contents item_low_byte (fun _ => tt) grams_as_items
           huff_bytes write_bits_or (fun _ _ _ _ => tt) (fun _ _ _ _ _ => tt)
           (fun _ => tt) (fun _ _ _ => tt) (fun _ => tt)
           (fun _ _ => huff_bytes_advances) 5 sc_cookie_pointers 3 sc_events 5
           sc_items 2 [] _ 100 500 sc_grouped 400).
  - lia.
  - lia.
  - reflexivity.
  - vm_compute. reflexivity.
  - reflexivity.
  - simpl. lia.
  - vm_compute. reflexivity.
Defined.
